(** * Bourbon: rewrite engine, session store and middleware pipeline

    A shallow embedding of the classes [EnhancedRewriter]
    (lib/enhanced-rewriter.js), [SessionManager] (lib/session-manager.js)
    and [AdvancedMiddleware] (lib/advanced-middleware.js).

    JavaScript strings are sequences of UTF-16 code units, numbers that the
    code uses as counters and timestamps are integers, a [Map] is an
    insertion-ordered association list, and a function that may throw (or an
    [async] function whose promise may reject) returns a [completion]. *)

From Stdlib Require Import List NArith ZArith Lia Bool String Ascii DecimalString.
From Stdlib Require Import Permutation Sorted.
Import ListNotations.

Set Warnings "-register-all".

(* ================================================================== *)
(** * Part I: definitions *)
(* ================================================================== *)

(** ** JavaScript values, strings and completions *)

Module JS.

(** A string is a list of UTF-16 code units. *)
Definition str := list N.

Definition code_unit (c : N) : Prop := (c < 65536)%N.
Definition code_units (s : str) : Prop := Forall code_unit s.

(** An ASCII literal of the source, as code units. *)
Definition lit (s : string) : str := map N_of_ascii (list_ascii_of_string s).

Definition str_eqb (a b : str) : bool :=
  if list_eq_dec N.eq_dec a b then true else false.

(** [s.startsWith(p)] *)
Fixpoint startsWith (s p : str) : bool :=
  match p, s with
  | [], _ => true
  | _ :: _, [] => false
  | a :: p', b :: s' => (a =? b)%N && startsWith s' p'
  end.

(** [s.includes(p)] *)
Fixpoint includes (s p : str) : bool :=
  startsWith s p ||
  match s with
  | [] => false
  | _ :: s' => includes s' p
  end.

(** The values the modelled code handles.  Numbers are the integers
    (counters, timestamps, status codes). *)
Inductive value : Type :=
| VUndefined
| VNull
| VBool (b : bool)
| VNum (n : Z)
| VStr (s : str)
| VArr (items : list value)
| VObj (props : list (str * value)).

(** ToBoolean *)
Definition truthy (v : value) : bool :=
  match v with
  | VUndefined | VNull => false
  | VBool b => b
  | VNum n => negb (n =? 0)%Z
  | VStr s => match s with [] => false | _ => true end
  | VArr _ | VObj _ => true
  end.

(** [a || b] *)
Definition or_else (a b : value) : value := if truthy a then a else b.

(** What a [throw] carries. *)
Inductive exn : Type :=
| TypeError
| URIError
| SyntaxError
| Error (message : string) (statusCode : option Z).

(** The outcome of a call: a value, or a thrown exception (for an [async]
    function: a fulfilled or a rejected promise). *)
Inductive completion (A : Type) : Type :=
| Normal (a : A)
| Throw (e : exn).
Arguments Normal {A} a.
Arguments Throw {A} e.

Definition bind {A B} (c : completion A) (k : A -> completion B) : completion B :=
  match c with
  | Normal a => k a
  | Throw e => Throw e
  end.

(** [try { c } catch (error) { h error }] *)
Definition try_catch {A} (c : completion A) (h : exn -> completion A) : completion A :=
  match c with
  | Normal a => Normal a
  | Throw e => h e
  end.

(** Own-property lookup in an object literal. *)
Fixpoint lookup (props : list (str * value)) (k : str) : option value :=
  match props with
  | [] => None
  | (k', v) :: rest => if str_eqb k' k then Some v else lookup rest k
  end.

(** [o[k]]: reading a property of [null] or [undefined] is a TypeError, a
    missing property reads as [undefined]. *)
Definition get_prop (o : value) (k : str) : completion value :=
  match o with
  | VUndefined | VNull => Throw TypeError
  | VObj props => Normal (match lookup props k with Some v => v | None => VUndefined end)
  | _ => Normal VUndefined
  end.

End JS.

Module Import JSNotations.
Notation "x <- c ;; k" := (JS.bind c (fun x => k))
  (at level 61, c at next level, right associativity).
End JSNotations.

(** ** The platform's URI component codec

    [encodeURIComponent] and [decodeURIComponent] as ECMA-262 defines them
    (abstract operations Encode and Decode), over UTF-16 code units. *)

Module URI.
Import JS.
Local Open Scope N_scope.

Definition in_range (lo hi c : N) : bool := (lo <=? c) && (c <=? hi).

(** uriUnescaped: letters, digits and the marks [- _ . ! ~ * ' ( )]. *)
Definition unescaped (c : N) : bool :=
  in_range 65 90 c || in_range 97 122 c || in_range 48 57 c ||
  existsb (N.eqb c) [45; 95; 46; 33; 126; 42; 39; 40; 41].

Definition is_high_surrogate (c : N) : bool := in_range 55296 56319 c.
Definition is_low_surrogate (c : N) : bool := in_range 56320 57343 c.

(** The code point of a surrogate pair. *)
Definition pair_code_point (hi lo : N) : N :=
  (hi - 55296) * 1024 + (lo - 56320) + 65536.

(** UTF-8 octets of a code point. *)
Definition utf8 (cp : N) : list N :=
  if cp <? 128 then [cp]
  else if cp <? 2048 then [192 + cp / 64; 128 + cp mod 64]
  else if cp <? 65536 then
    [224 + cp / 4096; 128 + (cp / 64) mod 64; 128 + cp mod 64]
  else
    [240 + cp / 262144; 128 + (cp / 4096) mod 64;
     128 + (cp / 64) mod 64; 128 + cp mod 64].

Definition hex_digit (d : N) : N := if d <? 10 then 48 + d else 55 + d.

(** ["%XY"], upper-case hexadecimal. *)
Definition pct (octet : N) : str := [37; hex_digit (octet / 16); hex_digit (octet mod 16)].

Definition pct_all (octets : list N) : str := flat_map pct octets.

(** Encode(string, uriUnescaped): [None] is the URIError thrown at an
    unpaired surrogate. *)
Fixpoint encode (s : str) : option str :=
  match s with
  | [] => Some []
  | c :: rest =>
    if unescaped c then option_map (cons c) (encode rest)
    else if is_high_surrogate c then
      match rest with
      | d :: rest' =>
        if is_low_surrogate d
        then option_map (app (pct_all (utf8 (pair_code_point c d)))) (encode rest')
        else None
      | [] => None
      end
    else if is_low_surrogate c then None
    else option_map (app (pct_all (utf8 c))) (encode rest)
  end.

(** [s.isWellFormed()]: no unpaired surrogate. *)
Fixpoint isWellFormed (s : str) : bool :=
  match s with
  | [] => true
  | c :: rest =>
    if is_high_surrogate c then
      match rest with
      | d :: rest' => is_low_surrogate d && isWellFormed rest'
      | [] => false
      end
    else negb (is_low_surrogate c) && isWellFormed rest
  end.

(** A code point that is a Unicode scalar value. *)
Definition scalar (cp : N) : Prop := cp < 1114112 /\ ~ (55296 <= cp <= 57343).

(** What an encoded component is made of: unescaped characters and [%]. *)
Definition uri_safe (c : N) : Prop := unescaped c = true \/ c = 37.

Definition encodeURIComponent (s : str) : completion str :=
  match encode s with
  | Some r => Normal r
  | None => Throw URIError
  end.

Definition hex_value (c : N) : option N :=
  if in_range 48 57 c then Some (c - 48)
  else if in_range 65 70 c then Some (c - 55)
  else if in_range 97 102 c then Some (c - 87)
  else None.

(** Reads one ["%XY"] escape. *)
Definition read_pct (s : str) : option (N * str) :=
  match s with
  | c :: h :: l :: rest =>
    if c =? 37 then
      match hex_value h, hex_value l with
      | Some a, Some b => Some (16 * a + b, rest)
      | _, _ => None
      end
    else None
  | _ => None
  end.

(** Reads [n] further escapes. *)
Fixpoint read_octets (n : nat) (s : str) : option (list N * str) :=
  match n with
  | O => Some ([], s)
  | S n' =>
    match read_pct s with
    | Some (b, rest) =>
      match read_octets n' rest with
      | Some (bs, r) => Some (b :: bs, r)
      | None => None
      end
    | None => None
    end
  end.

(** Number of leading 1 bits of an octet (5 stands for "more than 4"). *)
Definition leading_ones (b : N) : nat :=
  if b <? 128 then 0%nat
  else if b <? 192 then 1%nat
  else if b <? 224 then 2%nat
  else if b <? 240 then 3%nat
  else if b <? 248 then 4%nat
  else 5%nat.

Definition continuation (b : N) : bool := in_range 128 191 b.

(** The code point a well-formed UTF-8 sequence of 2 to 4 octets encodes:
    no overlong form, no surrogate, nothing above U+10FFFF. *)
Definition utf8_decode (octets : list N) : option N :=
  match octets with
  | [b0; b1] =>
    let cp := (b0 - 192) * 64 + (b1 - 128) in
    if continuation b1 && (128 <=? cp) then Some cp else None
  | [b0; b1; b2] =>
    let cp := (b0 - 224) * 4096 + (b1 - 128) * 64 + (b2 - 128) in
    if continuation b1 && continuation b2 && (2048 <=? cp)
       && negb (in_range 55296 57343 cp)
    then Some cp else None
  | [b0; b1; b2; b3] =>
    let cp := (b0 - 240) * 262144 + (b1 - 128) * 4096 + (b2 - 128) * 64 + (b3 - 128) in
    if continuation b1 && continuation b2 && continuation b3
       && (65536 <=? cp) && (cp <=? 1114111)
    then Some cp else None
  | _ => None
  end.

(** UTF16EncodeCodePoint *)
Definition utf16 (cp : N) : str :=
  if cp <? 65536 then [cp]
  else [55296 + (cp - 65536) / 1024; 56320 + (cp - 65536) mod 1024].

(** Decode(string, empty reserved set).  Each step consumes at least one
    code unit, so [length s] steps always suffice. *)
Fixpoint decode (fuel : nat) (s : str) : option str :=
  match s with
  | [] => Some []
  | c :: rest =>
    match fuel with
    | O => None
    | S fuel' =>
      if c =? 37 then
        match read_pct s with
        | None => None
        | Some (b, r1) =>
          match leading_ones b with
          | 0%nat => option_map (cons b) (decode fuel' r1)
          | 1%nat => None
          | S n =>
            if (4 <? S n)%nat then None else
            match read_octets n r1 with
            | None => None
            | Some (bs, r2) =>
              match utf8_decode (b :: bs) with
              | None => None
              | Some cp => option_map (app (utf16 cp)) (decode fuel' r2)
              end
            end
          end
        end
      else option_map (cons c) (decode fuel' rest)
    end
  end.

Definition decodeURIComponent (s : str) : completion str :=
  match decode (List.length s) s with
  | Some r => Normal r
  | None => Throw URIError
  end.

End URI.

(** ** Regular expressions and [String.prototype.replace]

    The fragment of regular expressions the rewriter's patterns are written
    in: single characters, character classes and [\s], each possibly under
    [?], [+] or [*] (greedy, backtracking), and capture groups of such
    items. *)

Module Regex.
Import JS.
Local Open Scope N_scope.

Inductive atom : Type :=
| Chr (c : N)                (* a literal character *)
| OneOf (cs : list N)        (* [...]  *)
| NoneOf (cs : list N)       (* [^...] *)
| Space.                     (* \s     *)

Inductive item : Type :=
| One (a : atom)
| Opt (a : atom)             (* a? *)
| Plus (a : atom)            (* a+ *)
| Star (a : atom).           (* a* *)

Inductive node : Type :=
| Item (i : item)
| Group (items : list item). (* ( ... ) *)

Definition regex := list node.

(** WhiteSpace and LineTerminator code units. *)
Definition is_space (c : N) : bool :=
  existsb (N.eqb c) [9; 10; 11; 12; 13; 32; 160; 5760; 8232; 8233; 8239; 8287; 12288; 65279]
  || ((8192 <=? c) && (c <=? 8202)).

Definition accepts (a : atom) (c : N) : bool :=
  match a with
  | Chr c' => c =? c'
  | OneOf cs => existsb (N.eqb c) cs
  | NoneOf cs => negb (existsb (N.eqb c) cs)
  | Space => is_space c
  end.

Section Matcher.
Context {R : Type}.

(** Continuations receive the input that is left; the first alternative
    that lets the rest of the pattern match wins. *)
Definition first_of (x y : option R) : option R :=
  match x with Some r => Some r | None => y end.

Fixpoint star (a : atom) (s : str) (k : str -> option R) : option R :=
  match s with
  | c :: s' => if accepts a c then first_of (star a s' k) (k s) else k s
  | [] => k []
  end.

Definition match_item (i : item) (s : str) (k : str -> option R) : option R :=
  match i with
  | One a =>
    match s with
    | c :: s' => if accepts a c then k s' else None
    | [] => None
    end
  | Opt a =>
    match s with
    | c :: s' => if accepts a c then first_of (k s') (k s) else k s
    | [] => k s
    end
  | Plus a =>
    match s with
    | c :: s' => if accepts a c then star a s' k else None
    | [] => None
    end
  | Star a => star a s k
  end.

Fixpoint match_items (items : list item) (s : str) (k : str -> option R) : option R :=
  match items with
  | [] => k s
  | i :: tl => match_item i s (fun s' => match_items tl s' k)
  end.

(** What was consumed between input [s] and its suffix [s']. *)
Definition consumed (s s' : str) : str := firstn (List.length s - List.length s') s.

Fixpoint match_nodes (re : regex) (s : str) (caps : list str)
         (k : list str -> str -> option R) : option R :=
  match re with
  | [] => k caps s
  | Item i :: tl => match_item i s (fun s' => match_nodes tl s' caps k)
  | Group items :: tl =>
    match_items items s (fun s' => match_nodes tl s' (caps ++ [consumed s s']) k)
  end.
End Matcher.

(** A match anchored at the start of [s]: the captures and what is left. *)
Definition match_at (re : regex) (s : str) : option (list str * str) :=
  match_nodes re s [] (fun caps rest => Some (caps, rest)).

(** [s.replace(/re/g, f)]: scans left to right; a match at offset [pos] is
    replaced by [f match captures pos] and the scan resumes after it (one
    code unit further after an empty match). *)
Fixpoint replace_from (fuel : nat) (re : regex) (f : str -> list str -> Z -> str)
         (pos : Z) (s : str) : str :=
  match fuel with
  | O => s
  | S fuel' =>
    match match_at re s with
    | Some (caps, rest) =>
      let m := consumed s rest in
      f m caps pos ++
      match m, s with
      | [], c :: s' => c :: replace_from fuel' re f (pos + 1) s'
      | [], [] => []
      | _ :: _, _ => replace_from fuel' re f (pos + Z.of_nat (List.length m)) rest
      end
    | None =>
      match s with
      | [] => []
      | c :: s' => c :: replace_from fuel' re f (pos + 1) s'
      end
    end
  end.

Definition replace (re : regex) (f : str -> list str -> Z -> str) (s : str) : str :=
  replace_from (S (List.length s)) re f 0 s.

(** A run of literal characters. *)
Definition chars (s : string) : regex := map (fun c => Item (One (Chr c))) (lit s).

End Regex.

(** ** [EnhancedRewriter] *)

Module Rewriter.
Import JS Regex.

(** A parsed URL, with the properties the rewriter reads. *)
Record URL : Type := mkURL {
  protocol : str;
  host : str;
  hostname : str;
  href : str
}.

(** The constructor's options, after its defaults: those the methods below
    read.  [customScripts] and [rewriteRules] are read by the document work
    of [rewriteHTML] only. *)
Record config : Type := mkConfig {
  proxyUrl : str;
  enableMinification : bool;
  blockedDomains : list str
}.

(** What the rewriter takes from the platform and from its libraries:
    the WHATWG [URL] class, [JSON], and the document work of
    [rewriteHTML] (jsdom and html-minifier).  Nothing is assumed about
    them. *)
Class Host : Type := {
  (** [new URL(s)]; [None] when it throws. *)
  URL_parse : str -> option URL;
  (** [new URL(s, base)] *)
  URL_parse_relative : str -> URL -> option URL;
  (** [u.searchParams.set(k, v)] *)
  URL_searchParams_set : URL -> str -> str -> URL;
  (** [JSON.parse(s)]; [None] when it throws. *)
  JSON_parse : str -> option value;
  JSON_stringify : value -> str;
  (** The body of the [try] block of [rewriteHTML]: parsing [html] with
      jsdom, walking and rewriting the document, injecting the scripts,
      serializing and minifying.  Arguments: configuration, html, session
      id, target URL. *)
  rewrite_document : config -> value -> value -> value -> completion str
}.

(** ToString on the values of the model.  A number is printed by its
    decimal digits, as JavaScript prints an integer below 10^21 in absolute
    value. *)
Fixpoint to_string (v : value) : str :=
  match v with
  | VUndefined => lit "undefined"
  | VNull => lit "null"
  | VBool true => lit "true"
  | VBool false => lit "false"
  | VNum n => lit (NilZero.string_of_int (Z.to_int n))
  | VStr s => s
  | VArr items =>
    (fix join (l : list value) : str :=
       match l with
       | [] => []
       | x :: tl =>
         (match x with VUndefined | VNull => [] | _ => to_string x end) ++
         match tl with [] => [] | _ :: _ => 44%N :: join tl end
       end) items
  | VObj _ => lit "[object Object]"
  end.

Section WithHost.
Context {H : Host}.
Variable this : config.

Definition new_URL (v : value) : completion URL :=
  match URL_parse (to_string v) with
  | Some u => Normal u
  | None => Throw TypeError
  end.

Definition new_URL_relative (s : str) (base : URL) : completion URL :=
  match URL_parse_relative s base with
  | Some u => Normal u
  | None => Throw TypeError
  end.

(** The first statement of the [try] block of [rewriteURL]: what the
    variable [url] holds after it, or [Skip] for the early [return url]. *)
Inductive resolution : Type :=
| Resolved (url : str)
| Skip.

Definition resolve (url : str) (targetUrl : value) : completion resolution :=
  if startsWith url (lit "/") then
    baseUrl <- new_URL targetUrl ;;
    Normal (Resolved (protocol baseUrl ++ lit "//" ++ host baseUrl ++ url))
  else if startsWith url (lit "./") || startsWith url (lit "../") then
    baseUrl <- new_URL targetUrl ;;
    u <- new_URL_relative url baseUrl ;;
    Normal (Resolved (href u))
  else if negb (startsWith url (lit "http")) then Normal Skip
  else Normal (Resolved url).

Definition gateway (url : str) : completion str :=
  enc <- URI.encodeURIComponent url ;;
  Normal (proxyUrl this ++ lit "/api/gateway?url=" ++ enc).

(** The rest of the [try] block, on the resolved [url]. *)
Definition proxied (url : str) : completion str :=
  urlObj <- new_URL (VStr url) ;;
  if existsb (fun domain => includes (hostname urlObj) domain) (blockedDomains this)
  then Normal url
  else gateway url.

(** [rewriteURL(url, targetUrl)].  The [catch] clause returns the variable
    [url]: the argument when resolution threw, the resolved URL when a
    later statement threw. *)
Definition rewriteURL (url targetUrl : value) : value :=
  match url with
  | VStr s =>
    if negb (truthy url) then url else
    match resolve s targetUrl with
    | Throw _ => url
    | Normal Skip => url
    | Normal (Resolved url') =>
      match proxied url' with
      | Normal r => VStr r
      | Throw _ => VStr url'
      end
    end
  | _ => url
  end.

(** [rewriteWebSocketURL(url, targetUrl)] *)
Definition rewriteWebSocketURL (url : str) (targetUrl : value) : str :=
  match
    (urlObj <- new_URL (VStr url) ;;
     wsUrl <- new_URL (VStr (proxyUrl this ++ lit "/api/ws")) ;;
     Normal (href (URL_searchParams_set wsUrl (lit "url") url)))
  with
  | Normal r => r
  | Throw _ => url
  end.

(** [isURL(str)] *)
Definition isURL (v : value) : bool :=
  match new_URL v with Normal _ => true | Throw _ => false end.

(** The first capture of a match. *)
Definition cap1 (caps : list str) : str := nth 0 caps [].

(** The pattern of the first [replace] of [rewriteCSS]: [url\(], an optional
    quote (code unit 39 or 34), the captured run of one or more characters
    that are neither a quote nor [)] (41), an optional quote, [\)]. *)
Definition re_css_url : regex :=
  chars "url(" ++
  [Item (Opt (OneOf [39; 34]%N)); Group [Plus (NoneOf [39; 34; 41]%N)];
   Item (Opt (OneOf [39; 34]%N)); Item (One (Chr 41%N))].

(** The pattern of the second [replace]: [@import\s+], a quote, the captured
    run of one or more characters that are not quotes, a quote. *)
Definition re_css_import : regex :=
  chars "@import" ++
  [Item (Plus Space); Item (One (OneOf [39; 34]%N)); Group [Plus (NoneOf [39; 34]%N)];
   Item (One (OneOf [39; 34]%N))].

(** The first [replace] of [rewriteCSS]. *)
Definition rewrite_css_urls (css : str) (targetUrl : value) : str :=
  replace re_css_url (fun _match caps _ =>
    let rewrittenUrl := rewriteURL (VStr (cap1 caps)) targetUrl in
    lit "url('" ++ to_string rewrittenUrl ++ lit "')") css.

(** The second [replace] of [rewriteCSS]. *)
Definition rewrite_css_imports (css : str) (targetUrl : value) : str :=
  replace re_css_import (fun _match caps _ =>
    let rewrittenUrl := rewriteURL (VStr (cap1 caps)) targetUrl in
    lit "@import '" ++ to_string rewrittenUrl ++ lit "'") css.

(** The body of [rewriteCSS] on a string. *)
Definition rewriteCSS_text (css : str) (targetUrl : value) : str :=
  let css := rewrite_css_urls css targetUrl in
  rewrite_css_imports css targetUrl.

(** [rewriteCSS(css, { targetUrl })]: [css.replace] exists on strings only. *)
Definition rewriteCSS (css : value) (targetUrl : value) : completion value :=
  match css with
  | VStr s => Normal (VStr (rewriteCSS_text s targetUrl))
  | _ => Throw TypeError
  end.

(** The pattern of [rewriteJavaScript] for [name]: the characters of
    [name], [\s*\(\s*], one of the three quotes (39, 34, 96), the captured
    run of one or more characters that are not quotes, a quote. *)
Definition re_js_call (name : regex) : regex :=
  name ++
  [Item (Star Space); Item (One (Chr 40%N)); Item (Star Space);
   Item (One (OneOf [39; 34; 96]%N)); Group [Plus (NoneOf [39; 34; 96]%N)];
   Item (One (OneOf [39; 34; 96]%N))].

Definition re_js_fetch : regex := re_js_call (chars "fetch").
Definition re_js_open : regex := re_js_call (chars ".open").
Definition re_js_websocket : regex :=
  re_js_call (chars "new" ++ [Item (Plus Space)] ++ chars "WebSocket").

(** [injectSessionManagement(js, sessionId)] *)
Definition injectSessionManagement (js : str) (sessionId : value) : str :=
  lit "
            // Session management
            if (typeof window !== 'undefined') {
                window.BOURBON_SESSION = '" ++ to_string sessionId ++ lit "';
                
                // Override localStorage
                const originalLocalStorage = window.localStorage;
                window.localStorage = {
                    getItem: function(key) {
                        return originalLocalStorage.getItem('bourbon_' + key);
                    },
                    setItem: function(key, value) {
                        return originalLocalStorage.setItem('bourbon_' + key, value);
                    },
                    removeItem: function(key) {
                        return originalLocalStorage.removeItem('bourbon_' + key);
                    },
                    clear: function() {
                        return originalLocalStorage.clear();
                    },
                    get length() {
                        return originalLocalStorage.length;
                    },
                    key: function(index) {
                        return originalLocalStorage.key(index);
                    }
                };
            }
        " ++ [10%N] ++ js.

(** The body of [rewriteJavaScript] on a string.  The callback of the
    second [replace] names its parameters [(match, method, url)]: with one
    capture group they receive the match, the capture and the offset of
    the match. *)
Definition rewriteJavaScript_text (js : str) (sessionId targetUrl : value) : str :=
  let js :=
    replace re_js_fetch (fun _match caps _ =>
      let rewrittenUrl := rewriteURL (VStr (cap1 caps)) targetUrl in
      lit "fetch('" ++ to_string rewrittenUrl ++ lit "'") js in
  let js :=
    replace re_js_open (fun _match caps offset =>
      let method := cap1 caps in
      let rewrittenUrl := rewriteURL (VNum offset) targetUrl in
      lit ".open('" ++ method ++ lit "', '" ++ to_string rewrittenUrl ++ lit "'") js in
  let js :=
    replace re_js_websocket (fun _match caps _ =>
      let rewrittenUrl := rewriteWebSocketURL (cap1 caps) targetUrl in
      lit "new WebSocket('" ++ rewrittenUrl ++ lit "'") js in
  if truthy sessionId then injectSessionManagement js sessionId else js.

Definition rewriteJavaScript (js : value) (sessionId targetUrl : value) : completion value :=
  match js with
  | VStr s => Normal (VStr (rewriteJavaScript_text s sessionId targetUrl))
  | _ => Throw TypeError
  end.

(** [rewriteObject(obj, targetUrl)] *)
Fixpoint rewriteObject (obj : value) (targetUrl : value) : value :=
  match obj with
  | VStr _ => if isURL obj then rewriteURL obj targetUrl else obj
  | VArr items => VArr (map (fun item => rewriteObject item targetUrl) items)
  | VObj props =>
    VObj (map (fun kv => let '(key, v) := kv in (key, rewriteObject v targetUrl)) props)
  | _ => obj
  end.

(** [rewriteJSON(json, { targetUrl })] *)
Definition rewriteJSON (json : value) (targetUrl : value) : completion value :=
  match JSON_parse (to_string json) with
  | Some data => Normal (VStr (JSON_stringify (rewriteObject data targetUrl)))
  | None => Normal json
  end.

(** [rewriteHTML(html, { sessionId, targetUrl, headers })] *)
Definition rewriteHTML (html : value) (sessionId targetUrl : value) : completion value :=
  try_catch
    (result <- rewrite_document this html sessionId targetUrl ;; Normal (VStr result))
    (fun _error => Normal html).

(** [contentType.includes(s)]: a string method and an array method; on
    every other value of the model the call is a TypeError. *)
Definition includes_call (contentType : value) (s : str) : completion bool :=
  match contentType with
  | VStr t => Normal (includes t s)
  | VArr items =>
    Normal (existsb (fun x => match x with VStr t => str_eqb t s | _ => false end) items)
  | _ => Throw TypeError
  end.

(** The [try] block of [rewriteContent]; [None] when no branch returns. *)
Definition dispatch (content contentType sessionId targetUrl : value)
  : completion (option value) :=
  html <- includes_call contentType (lit "text/html") ;;
  if html then r <- rewriteHTML content sessionId targetUrl ;; Normal (Some r) else
  css <- includes_call contentType (lit "text/css") ;;
  if css then r <- rewriteCSS content targetUrl ;; Normal (Some r) else
  js <- includes_call contentType (lit "application/javascript") ;;
  if js then r <- rewriteJavaScript content sessionId targetUrl ;; Normal (Some r) else
  json <- includes_call contentType (lit "application/json") ;;
  if json then r <- rewriteJSON content targetUrl ;; Normal (Some r) else
  Normal None.

(** [rewriteContent(content, contentType, options = {})].  The
    destructuring of [options] stands before the [try] block. *)
Definition rewriteContent (content contentType options : value) : completion value :=
  let options := match options with VUndefined => VObj [] | _ => options end in
  if negb (truthy content) then Normal content else
  sessionId <- get_prop options (lit "sessionId") ;;
  targetUrl <- get_prop options (lit "targetUrl") ;;
  _headers <- get_prop options (lit "headers") ;;
  try_catch
    (r <- dispatch content contentType sessionId targetUrl ;;
     match r with
     | Some result => Normal result
     | None => Normal content
     end)
    (fun _error => Normal content).

End WithHost.

(** No quote, one single quote or one double quote. *)
Definition opt_quote (q : str) : Prop := q = [] \/ q = [39%N] \/ q = [34%N].

(** What the capture of the [url(...)] pattern may hold. *)
Definition url_char (c : N) : Prop := accepts (NoneOf [39; 34; 41]%N) c = true.

(** What the capture of the [@import] pattern may hold. *)
Definition import_char (c : N) : Prop := accepts (NoneOf [39; 34]%N) c = true.

Definition is_quote (c : N) : Prop := c = 39%N \/ c = 34%N.


End Rewriter.

(** ** Style sheets as references and text

    What [rewriteCSS] is given, cut into the references its two patterns
    match and the text between them. *)

Module Sheets.
Import JS Regex Rewriter.
Local Open Scope N_scope.

(** Whether [re] matches at a position of [x], in [x] followed by [rest]. *)
Fixpoint matches_in (re : regex) (x rest : str) : bool :=
  match x with
  | [] => false
  | c :: x' =>
    match match_at re (c :: x' ++ rest) with
    | Some _ => true
    | None => matches_in re x' rest
    end
  end.

Inductive piece : Type :=
| Text (s : str)
| UrlRef (q body q' : str)                           (* url(  q body q'  ) *)
| ImportRef (ws : str) (c : N) (target : str) (c' : N). (* @import ws c target c' *)

Definition source (p : piece) : str :=
  match p with
  | Text s => s
  | UrlRef q body q' => lit "url(" ++ q ++ body ++ q' ++ [41]
  | ImportRef ws c target c' => lit "@import" ++ ws ++ c :: target ++ [c']
  end.

Definition sheet (ps : list piece) : str := flat_map source ps.

Section WithHost.
Context {H : Host}.
Variable this : config.
Variable targetUrl : value.

(** What the callbacks of the two [replace] calls return. *)
Definition url_out (body : str) : str :=
  lit "url('" ++ to_string (rewriteURL this (VStr body) targetUrl) ++ lit "')".

Definition import_out (target : str) : str :=
  lit "@import '" ++ to_string (rewriteURL this (VStr target) targetUrl) ++ lit "'".

(** A piece after the first [replace], and after both. *)
Definition after_urls (p : piece) : str :=
  match p with
  | UrlRef _ body _ => url_out body
  | _ => source p
  end.

Definition rewritten (p : piece) : str :=
  match p with
  | Text s => s
  | UrlRef _ body _ => url_out body
  | ImportRef _ _ target _ => import_out target
  end.

(** The cut suits the first pattern: a [url(...)] reference has an
    optional quote on either side of one or more characters that are
    neither quotes nor [)], and the pattern matches nowhere else. *)
Fixpoint cut_for_urls (ps : list piece) : Prop :=
  match ps with
  | [] => True
  | p :: tl =>
    match p with
    | UrlRef q body q' =>
      opt_quote q /\ opt_quote q' /\ body <> [] /\ Forall url_char body
    | _ => matches_in re_css_url (source p) (sheet tl) = false
    end /\ cut_for_urls tl
  end.

(** The cut suits the second pattern, which reads what the first
    [replace] returned: an [@import] has white space, a quote, one or more
    characters that are not quotes and a quote, and the pattern matches
    nowhere else. *)
Fixpoint cut_for_imports (ps : list piece) : Prop :=
  match ps with
  | [] => True
  | p :: tl =>
    match p with
    | ImportRef ws c target c' =>
      ws <> [] /\ Forall (fun w => is_space w = true) ws /\
      is_quote c /\ target <> [] /\ Forall import_char target /\ is_quote c'
    | _ => matches_in re_css_import (after_urls p) (flat_map after_urls tl) = false
    end /\ cut_for_imports tl
  end.

Definition well_cut (ps : list piece) : Prop := cut_for_urls ps /\ cut_for_imports ps.

End WithHost.

(** [@import "/a.css";@import"/b.css";body{background:url(/bg.png)}]
    followed by [a{b:url( "/x.png" )}]: the second [@import] has no white
    space, the last reference has blanks inside the parentheses. *)
Definition example_pieces : list piece :=
  [ImportRef [32] 34 (lit "/a.css") 34;
   Text (lit ";@import" ++ [34] ++ lit "/b.css" ++ [34] ++ lit ";body{background:");
   UrlRef [] (lit "/bg.png") [];
   Text (lit "}a{b:url( " ++ [34] ++ lit "/x.png" ++ [34] ++ lit " )}")].

End Sheets.

(** ** A host for the examples

    The [URL] class restricted to plain [http://host/path] and
    [https://host/path] addresses, on which the WHATWG parser changes
    nothing but an empty path; every other input is refused.  The other
    operations are not used by the examples. *)

Module ExampleHost.
Import JS Rewriter.
Local Open Scope N_scope.

Definition lower (c : N) : bool := (97 <=? c) && (c <=? 122).
Definition digit (c : N) : bool := (48 <=? c) && (c <=? 57).

(** Host names: lower-case letters and inner single dots. *)
Fixpoint host_ok (s : str) : bool :=
  match s with
  | [] => false
  | [c] => lower c
  | c :: ((d :: _) as tl) =>
    (lower c || ((c =? 46) && lower d)) && host_ok tl
  end.

(** Paths: [/] followed by letters, digits, [-], [_] and inner [/] and [.]
    that do not start a segment with a dot. *)
Fixpoint path_ok (s : str) : bool :=
  match s with
  | [] => true
  | c :: tl =>
    (lower c || digit c || (c =? 45) || (c =? 95) ||
     ((c =? 47) && match tl with d :: _ => negb (d =? 46) | [] => true end) ||
     (c =? 46)) && path_ok tl
  end.

Fixpoint break_at (c : N) (s : str) : str * str :=
  match s with
  | [] => ([], [])
  | d :: tl =>
    if d =? c then ([], s)
    else let '(a, b) := break_at c tl in (d :: a, b)
  end.

Definition parse_after_scheme (scheme rest : str) : option URL :=
  let '(h, path) := break_at 47 rest in
  if host_ok h && path_ok path && lower (hd 97 h) then
    Some (mkURL (scheme ++ lit ":") h h
                (scheme ++ lit "://" ++ h ++ match path with [] => lit "/" | _ => path end))
  else None.

Definition parse (s : str) : option URL :=
  if startsWith s (lit "https://") then parse_after_scheme (lit "https") (skipn 8 s)
  else if startsWith s (lit "http://") then parse_after_scheme (lit "http") (skipn 7 s)
  else None.

#[export] Instance example_host : Host := {|
  URL_parse := parse;
  URL_parse_relative := fun _ _ => None;
  URL_searchParams_set := fun u _ _ => u;
  JSON_parse := fun _ => None;
  JSON_stringify := fun _ => [];
  rewrite_document := fun _ _ _ _ => Throw TypeError
|}.

(** The rewriter of the examples: proxy [http://p], nothing blocked. *)
Definition example_config : config := mkConfig (lit "http://p") false [].

(** The same with [a.com] blocked. *)
Definition blocking_config : config := mkConfig (lit "http://p") false [lit "a.com"].

End ExampleHost.

(** ** [Map]: an insertion-ordered map with string keys *)

Module Map.
Import JS.

Definition t (V : Type) : Type := list (str * V).

Section Ops.
Context {V : Type}.

Definition empty : t V := [].

Fixpoint get (m : t V) (k : str) : option V :=
  match m with
  | [] => None
  | (k', v) :: tl => if str_eqb k' k then Some v else get tl k
  end.

Definition has (m : t V) (k : str) : bool :=
  match get m k with Some _ => true | None => false end.

(** [m.set(k, v)]: an existing key keeps its place, a new one goes last. *)
Fixpoint set (m : t V) (k : str) (v : V) : t V :=
  match m with
  | [] => [(k, v)]
  | (k', v') :: tl =>
    if str_eqb k' k then (k', v) :: tl else (k', v') :: set tl k v
  end.

Definition delete (m : t V) (k : str) : t V :=
  filter (fun kv => negb (str_eqb (fst kv) k)) m.

Definition size (m : t V) : Z := Z.of_nat (List.length m).

Definition keys (m : t V) : list str := map fst m.

(** [Array.from(m.entries())] *)
Definition entries (m : t V) : list (str * V) := m.

(** [new Map(entries)] *)
Definition of_entries (l : list (str * V)) : t V :=
  fold_left (fun m kv => set m (fst kv) (snd kv)) l empty.

(** Keys are unique in a [Map]. *)
Definition wf (m : t V) : Prop := NoDup (keys m).
End Ops.

End Map.

(** ** [AdvancedMiddleware] *)

Module Middleware.
Import JS.
Local Open Scope string_scope.
Local Open Scope list_scope.

(** A property of the context object: a plain value, or a caught failure
    (what [execute] stores under [error]). *)
Inductive field : Type :=
| Data (v : value)
| Failure (e : exn).

(** The context object: its own properties, in order. *)
Definition context := list (string * field).

Fixpoint set_field (ctx : context) (k : string) (f : field) : context :=
  match ctx with
  | [] => [(k, f)]
  | (k', f') :: tl =>
    if String.eqb k' k then (k', f) :: tl else (k', f') :: set_field tl k f
  end.

(** [{ ...context, error }] *)
Definition with_error (ctx : context) (error : exn) : context :=
  set_field ctx "error" (Failure error).

Section Pipeline.
(** Everything a handler can act on besides the context object: the state
    of its closure, the response stream, the console. *)
Variable world : Type.

(** [await middleware(context)]: the handler may change the context
    object and the world, and then returns or throws. *)
Definition handler : Type := context -> world -> context * world * completion unit.

(** [this.middlewares] *)
Record middlewares : Type := mkMiddlewares {
  request : list handler;
  response : list handler;
  error : list handler
}.

Definition empty : middlewares := mkMiddlewares [] [] [].

(** [this.middlewares[type]] *)
Definition chain (m : middlewares) (type : string) : option (list handler) :=
  if String.eqb type "request" then Some (request m)
  else if String.eqb type "response" then Some (response m)
  else if String.eqb type "error" then Some (error m)
  else None.

(** The names the object literal [this.middlewares] inherits from
    [Object.prototype]: under them it holds a function or an object, which
    passes the test of [use] and has no [push]. *)
Definition inherited (type : string) : bool :=
  existsb (String.eqb type)
    ["constructor"; "__proto__"; "hasOwnProperty"; "isPrototypeOf";
     "propertyIsEnumerable"; "toLocaleString"; "toString"; "valueOf";
     "__defineGetter__"; "__defineSetter__"; "__lookupGetter__"; "__lookupSetter__"].

(** [use(type, middleware)] *)
Definition use (m : middlewares) (type : string) (h : handler) : completion middlewares :=
  if String.eqb type "request" then Normal (mkMiddlewares (request m ++ [h]) (response m) (error m))
  else if String.eqb type "response" then Normal (mkMiddlewares (request m) (response m ++ [h]) (error m))
  else if String.eqb type "error" then Normal (mkMiddlewares (request m) (response m) (error m ++ [h]))
  else if inherited type then Throw TypeError
  else Throw (Error (String.append "Invalid middleware type: " type) None).

(** What a call of [execute] leaves behind: the context object and the
    world after it, the calls of [execute] it made in turn (phase and
    argument), and its completion. *)
Record outcome : Type := mkOutcome {
  ctx_after : context;
  world_after : world;
  calls : list (string * context);
  result : completion unit
}.

(** The [for] loop of [execute]; [escalate] is the recursive call
    [this.execute('error', ...)]. *)
Fixpoint run (escalate : context -> world -> option outcome) (type : string)
         (hs : list handler) (ctx : context) (w : world) : option outcome :=
  match hs with
  | [] => Some (mkOutcome ctx w [] (Normal tt))
  | middleware :: rest =>
    match middleware ctx w with
    | (ctx', w', Normal _) => run escalate type rest ctx' w'
    | (ctx', w', Throw error) =>
      if negb (String.eqb type "error") then
        match escalate (with_error ctx' error) w' with
        | None => None
        | Some o =>
          Some (mkOutcome ctx' (world_after o)
                  (("error", with_error ctx' error) :: calls o)
                  (match result o with
                   | Normal _ => Throw error
                   | Throw later => Throw later
                   end))
        end
      else Some (mkOutcome ctx' w' [] (Throw error))
    end
  end.

(** The handlers of a phase run in order up to the first failure: the
    context and the world they leave, and that failure. *)
Fixpoint settle (hs : list handler) (ctx : context) (w : world)
  : context * world * option exn :=
  match hs with
  | [] => (ctx, w, None)
  | middleware :: rest =>
    match middleware ctx w with
    | (ctx', w', Normal _) => settle rest ctx' w'
    | (ctx', w', Throw error) => (ctx', w', Some error)
    end
  end.

(** [execute(type, context)], with a bound on the depth of its recursion;
    [None] when the bound is reached. *)
Fixpoint execute (depth : nat) (m : middlewares) (type : string)
         (ctx : context) (w : world) : option outcome :=
  match depth with
  | O => None
  | S depth' =>
    match chain m type with
    | None => Some (mkOutcome ctx w [] (Throw TypeError))
    | Some hs => run (execute depth' m "error") type hs ctx w
    end
  end.
End Pipeline.

Arguments mkMiddlewares {world}.
Arguments request {world}.
Arguments response {world}.
Arguments error {world}.
Arguments mkOutcome {world}.
Arguments ctx_after {world}.
Arguments world_after {world}.
Arguments calls {world}.
Arguments result {world}.
Arguments run {world}.
Arguments execute {world}.
Arguments settle {world}.
Arguments chain {world}.
Arguments use {world}.

(** *** The rate limiter *)

(** The request, as far as the limiter reads it: [connection] ([None] when
    it is missing) and its [remoteAddress], and the [x-forwarded-for] entry
    of [headers]. *)
Record request_info : Type := mkRequest {
  connection : option (option str);
  x_forwarded_for : option str
}.

Definition nonempty (o : option str) : option str :=
  match o with
  | Some (_ :: _) => o
  | _ => None
  end.

(** [request.connection?.remoteAddress || request.headers['x-forwarded-for']
    || 'unknown'] *)
Definition clientIP (r : request_info) : str :=
  match nonempty (match connection r with Some a => a | None => None end) with
  | Some a => a
  | None =>
    match nonempty (x_forwarded_for r) with
    | Some a => a
    | None => lit "unknown"
    end
  end.

(** The [while] loop: [shift] while the first entry is older than the
    window. *)
Fixpoint prune (windowStart : Z) (clientRequests : list Z) : list Z :=
  match clientRequests with
  | t0 :: rest => if (t0 <? windowStart)%Z then prune windowStart rest else clientRequests
  | [] => []
  end.

(** The timestamps recorded for an address ([[]] when it has none). *)
Definition history (requests : Map.t (list Z)) (ip : str) : list Z :=
  match Map.get requests ip with Some l => l | None => [] end.

Definition rate_limit_error : exn := Error "Rate limit exceeded" (Some 429%Z).

(** The options of [rateLimiter], after their defaults. *)
Record limits : Type := mkLimits {
  windowMs : Z;
  maxRequests : Z
}.

Definition default_limits : limits := mkLimits 60000 100.

(** One call of the handler [rateLimiter(options)] returns: [requests] is
    the map of its closure, [now] the value of [Date.now()].  The arrays
    stored in the map are changed in place, also by a call that throws. *)
Definition rateLimiter (o : limits) (request : option request_info) (now : Z)
           (requests : Map.t (list Z)) : Map.t (list Z) * completion unit :=
  match request with
  | None => (requests, Normal tt)
  | Some request =>
    let clientIP := clientIP request in
    let windowStart := (now - windowMs o)%Z in
    let requests :=
      if negb (Map.has requests clientIP) then Map.set requests clientIP [] else requests in
    let clientRequests := history requests clientIP in
    let clientRequests := prune windowStart clientRequests in
    if (Z.of_nat (List.length clientRequests) >=? maxRequests o)%Z then
      (Map.set requests clientIP clientRequests, Throw rate_limit_error)
    else
      (Map.set requests clientIP (clientRequests ++ [now]), Normal tt)
  end.

(** A run of the limiter over a sequence of requests with their arrival
    times: the final map and the completion of each call. *)
Fixpoint serve (o : limits) (arrivals : list (request_info * Z))
         (requests : Map.t (list Z)) : Map.t (list Z) * list (completion unit) :=
  match arrivals with
  | [] => (requests, [])
  | (r, now) :: rest =>
    let '(requests', c) := rateLimiter o (Some r) now requests in
    let '(final, cs) := serve o rest requests' in
    (final, c :: cs)
  end.

(** No address has more than [maxRequests] timestamps recorded. *)
Definition bounded (o : limits) (requests : Map.t (list Z)) : Prop :=
  forall k l, Map.get requests k = Some l -> (Z.of_nat (List.length l) <= maxRequests o)%Z.

(** A handler that does nothing but throw. *)
Definition failing (e : exn) : handler unit := fun ctx w => (ctx, w, Throw e).

Definition first_failure : exn := Error "first" None.
Definition second_failure : exn := Error "second" None.

End Middleware.

(** ** [SessionManager] *)

Module Sessions.
Import JS.
Local Open Scope Z_scope.

(** [session.data].  The jar and the two mirrors are [Map] objects, as
    [createSession] and [importSession] make them. *)
Record session_data : Type := mkData {
  cookies : Map.t value;
  localStorage : Map.t value;
  sessionStorage : Map.t value;
  customProxy : value;
  userAgent : value;
  headers : value;
  settings : value
}.

Record session : Type := mkSession {
  id : str;
  createdAt : Z;
  lastAccessed : Z;
  data : session_data
}.

(** The manager: [this.sessions] and the two limits the sweep reads. *)
Record manager : Type := mkManager {
  sessions : Map.t session;
  maxSessions : Z;
  sessionTimeout : Z
}.

Definition with_sessions (m : manager) (s : Map.t session) : manager :=
  mkManager s (maxSessions m) (sessionTimeout m).

(** [options.x || d] on a number. *)
Definition number_or (x : option Z) (d : Z) : Z :=
  match x with
  | Some n => if n =? 0 then d else n
  | None => d
  end.

(** The constructor: [maxSessions] defaults to 1000, [sessionTimeout] to 24
    hours. *)
Definition new_manager (opt_maxSessions opt_sessionTimeout : option Z) : manager :=
  mkManager Map.empty (number_or opt_maxSessions 1000)
            (number_or opt_sessionTimeout (24 * 60 * 60 * 1000)).

(** Two lower-case hexadecimal digits. *)
Definition hex2 (b : N) : str :=
  let digit (d : N) : N := if (d <? 10)%N then (48 + d)%N else (87 + d)%N in
  [digit (b / 16)%N; digit (b mod 16)%N].

(** [generateSessionId()]: [random] is what [crypto.randomBytes(16)]
    returns. *)
Definition generateSessionId (random : list N) : str := flat_map hex2 random.

(** The options of [createSession]; [None] for a property that is absent. *)
Record create_options : Type := mkCreate {
  opt_customProxy : option value;
  opt_userAgent : option value;
  opt_headers : option value;
  opt_settings : list (str * value)
}.

Definition opt_or (x : option value) (d : value) : value :=
  match x with
  | Some v => or_else v d
  | None => d
  end.

(** [{ enableJavaScript: true, ..., ...options.settings }] *)
Definition default_settings : list (str * value) :=
  [(lit "enableJavaScript", VBool true); (lit "enableCookies", VBool true);
   (lit "enableLocalStorage", VBool true); (lit "enableWebSockets", VBool true)].

(** The keys keep the order in which they were first written, which is
    the order of JavaScript for keys that are not array indices. *)
Definition spread (base extra : list (str * value)) : list (str * value) :=
  fold_left (fun m kv => Map.set m (fst kv) (snd kv)) extra base.

(** The first phase of [cleanupOldSessions]: the keys collected in
    [toDelete]. *)
Definition stale (m : manager) (now : Z) (s : session) : bool :=
  now - lastAccessed s >? sessionTimeout m.

(** The sessions that have not timed out. *)
Definition unexpired (m : manager) (now : Z) : Map.t session :=
  filter (fun kv => negb (stale m now (snd kv))) (sessions m).

Definition toDelete (m : manager) (now : Z) : list str :=
  Map.keys (filter (fun kv => stale m now (snd kv)) (sessions m)).

Definition delete_all (ks : list str) (s : Map.t session) : Map.t session :=
  fold_left (fun acc k => Map.delete acc k) ks s.

(** [entries.sort((a, b) => a[1].lastAccessed - b[1].lastAccessed)]: a
    stable sort by [lastAccessed]. *)
Fixpoint insert_entry (e : str * session) (l : list (str * session)) : list (str * session) :=
  match l with
  | [] => [e]
  | e' :: tl =>
    if lastAccessed (snd e) <=? lastAccessed (snd e') then e :: l
    else e' :: insert_entry e tl
  end.

Definition sort_entries (l : list (str * session)) : list (str * session) :=
  fold_right insert_entry [] l.

(** The order of the sort. *)
Definition older (a b : str * session) : Prop :=
  lastAccessed (snd a) <= lastAccessed (snd b).

(** The keys the second phase deletes when it runs [n] times on [s1], and
    the test of the entries it leaves. *)
Definition evicted_keys (s1 : Map.t session) (n : nat) : list str :=
  Map.keys (firstn n (sort_entries (Map.entries s1))).

Definition survives (s1 : Map.t session) (n : nat) (kv : str * session) : bool :=
  negb (existsb (str_eqb (fst kv)) (evicted_keys s1 n)).

(** The loop [for (let i = 0; i < excess; i++)
    this.sessions.delete(sortedSessions[i][0])], from index [i], with
    [count] iterations left: reading [[0]] of a missing entry throws. *)
Fixpoint evict (sortedSessions : list (str * session)) (i count : nat)
         (s : Map.t session) : Map.t session * completion unit :=
  match count with
  | O => (s, Normal tt)
  | S count' =>
    match nth_error sortedSessions i with
    | None => (s, Throw TypeError)
    | Some e => evict sortedSessions (S i) count' (Map.delete s (fst e))
    end
  end.

(** [cleanupOldSessions()], with [now] the value of [Date.now()]. *)
Definition cleanupOldSessions (m : manager) (now : Z) : manager * completion unit :=
  let s := delete_all (toDelete m now) (sessions m) in
  if Map.size s >? maxSessions m then
    let sortedSessions := sort_entries (Map.entries s) in
    let excess := Map.size s - maxSessions m in
    let '(s', c) := evict sortedSessions 0 (Z.to_nat excess) s in
    (with_sessions m s', c)
  else (with_sessions m s, Normal tt).

(** The session object [createSession] builds; the calls of [Date.now()]
    in one method are taken at one instant. *)
Definition new_session (sessionId : str) (now : Z) (o : create_options) : session :=
  mkSession sessionId now now
    (mkData Map.empty Map.empty Map.empty
            (opt_or (opt_customProxy o) VNull)
            (opt_or (opt_userAgent o) VNull)
            (opt_or (opt_headers o) (VObj []))
            (VObj (spread default_settings (opt_settings o)))).

(** [createSession(options)] *)
Definition createSession (m : manager) (now : Z) (random : list N) (o : create_options)
  : manager * completion str :=
  let sessionId := generateSessionId random in
  let session := new_session sessionId now o in
  let m := with_sessions m (Map.set (sessions m) sessionId session) in
  let '(m, c) := cleanupOldSessions m now in
  (m, _ <- c ;; Normal sessionId).

Definition touch (s : session) (now : Z) : session :=
  mkSession (id s) (createdAt s) now (data s).

(** [getSession(sessionId)] *)
Definition getSession (m : manager) (now : Z) (sessionId : str) : manager * option session :=
  match Map.get (sessions m) sessionId with
  | Some s =>
    let s := touch s now in
    (with_sessions m (Map.set (sessions m) sessionId s), Some s)
  | None => (m, None)
  end.

(** The argument of [updateSession]: the properties it carries, of the
    types [session.data] has (for the jar and the mirrors, a [Map]). *)
Record updates : Type := mkUpdates {
  upd_cookies : option (Map.t value);
  upd_localStorage : option (Map.t value);
  upd_sessionStorage : option (Map.t value);
  upd_customProxy : option value;
  upd_userAgent : option value;
  upd_headers : option value;
  upd_settings : option value
}.

Definition assigned {A} (x : option A) (old : A) : A :=
  match x with Some v => v | None => old end.

(** [Object.assign(session.data, updates)] *)
Definition assign (d : session_data) (u : updates) : session_data :=
  mkData (assigned (upd_cookies u) (cookies d))
         (assigned (upd_localStorage u) (localStorage d))
         (assigned (upd_sessionStorage u) (sessionStorage d))
         (assigned (upd_customProxy u) (customProxy d))
         (assigned (upd_userAgent u) (userAgent d))
         (assigned (upd_headers u) (headers d))
         (assigned (upd_settings u) (settings d)).

(** [updateSession(sessionId, updates)] *)
Definition updateSession (m : manager) (now : Z) (sessionId : str) (u : updates)
  : manager * bool :=
  match Map.get (sessions m) sessionId with
  | Some s =>
    let s := mkSession (id s) (createdAt s) now (assign (data s) u) in
    (with_sessions m (Map.set (sessions m) sessionId s), true)
  | None => (m, false)
  end.

(** [deleteSession(sessionId)] *)
Definition deleteSession (m : manager) (sessionId : str) : manager * bool :=
  (with_sessions m (Map.delete (sessions m) sessionId), Map.has (sessions m) sessionId).

(** What [importSession] may find where it expects the entries of a map:
    nothing (the property is missing or falsy, and [|| []] stands in), an
    array of [[key, value]] pairs with string keys, or another truthy
    value, one that is not iterable or that yields something that is not
    an object: [new Map] throws a TypeError on it. *)
Inductive entries_field : Type :=
| NoEntries
| Entries (l : list (str * value))
| NotEntries.

(** What [exportSession] returns and [importSession] takes.  [None] stands
    for a property that is absent, for [x_data] also for [null]. *)
Record exported_data : Type := mkExportedData {
  x_cookies : entries_field;
  x_localStorage : entries_field;
  x_sessionStorage : entries_field;
  x_customProxy : value;
  x_userAgent : value;
  x_headers : value;
  x_settings : value
}.

Record exported : Type := mkExported {
  x_id : option str;
  x_createdAt : option Z;
  x_lastAccessed : option Z;
  x_data : option exported_data
}.

(** [exportSession(sessionId)]; [None] is the [null] returned for an
    unknown id. *)
Definition exportSession (m : manager) (now : Z) (sessionId : str)
  : manager * option exported :=
  match getSession m now sessionId with
  | (m', Some session) =>
    (m', Some (mkExported (Some (id session)) (Some (createdAt session))
                 (Some (lastAccessed session))
                 (Some (mkExportedData
                    (Entries (Map.entries (cookies (data session))))
                    (Entries (Map.entries (localStorage (data session))))
                    (Entries (Map.entries (sessionStorage (data session))))
                    (customProxy (data session))
                    (userAgent (data session))
                    (headers (data session))
                    (settings (data session))))))
  | (m', None) => (m', None)
  end.

(** [new Map(x || [])] *)
Definition new_Map (x : entries_field) : completion (Map.t value) :=
  match x with
  | NoEntries => Normal (Map.of_entries [])
  | Entries l => Normal (Map.of_entries l)
  | NotEntries => Throw TypeError
  end.

(** [sessionData.id || this.generateSessionId()] *)
Definition id_or_generated (x : option str) (random : list N) : str :=
  match x with
  | Some (c :: s) => c :: s
  | _ => generateSessionId random
  end.

(** The session object [importSession] builds: reading a property of a
    missing [sessionData.data] throws, and so does [new Map] on what is
    not an array of pairs. *)
Definition imported_session (now : Z) (random : list N) (sessionData : exported)
  : completion session :=
  match x_data sessionData with
  | None => Throw TypeError
  | Some d =>
    jar <- new_Map (x_cookies d) ;;
    local <- new_Map (x_localStorage d) ;;
    tab <- new_Map (x_sessionStorage d) ;;
    Normal (mkSession (id_or_generated (x_id sessionData) random)
                      (number_or (x_createdAt sessionData) now)
                      (number_or (x_lastAccessed sessionData) now)
                      (mkData jar local tab
                              (or_else (x_customProxy d) VNull)
                              (or_else (x_userAgent d) VNull)
                              (or_else (x_headers d) (VObj []))
                              (or_else (x_settings d) (VObj []))))
  end.

(** [importSession(sessionData)]: the manager holding the imported session,
    and its id; nothing is stored when building the session throws. *)
Definition importSession (m : manager) (now : Z) (random : list N) (sessionData : exported)
  : manager * completion str :=
  match imported_session now random sessionData with
  | Normal session =>
    (with_sessions m (Map.set (sessions m) (id session) session), Normal (id session))
  | Throw e => (m, Throw e)
  end.

(** The shape [createSession] and [importSession] give to the data of a
    session: maps with unique keys, [customProxy] and [userAgent] that are
    [null] or truthy, [headers] and [settings] that are truthy. *)
Definition kept_by_import (d : session_data) : Prop :=
  Map.wf (cookies d) /\ Map.wf (localStorage d) /\ Map.wf (sessionStorage d) /\
  (customProxy d = VNull \/ truthy (customProxy d) = true) /\
  (userAgent d = VNull \/ truthy (userAgent d) = true) /\
  truthy (headers d) = true /\ truthy (settings d) = true.

(** Examples: a session with empty data, a store of five sessions with
    room for two, sixteen bytes, and the update [{ customProxy: '' }]. *)
Definition plain_session (name : string) (accessed : Z) : session :=
  mkSession (lit name) 0 accessed (mkData [] [] [] VNull VNull (VObj []) (VObj [])).

Definition crowded_store : manager :=
  mkManager
    [(lit "a", plain_session "a" 5); (lit "b", plain_session "b" 50);
     (lit "c", plain_session "c" 40); (lit "d", plain_session "d" 60);
     (lit "e", plain_session "e" 40)]
    2 100.

Definition sixteen_bytes : list N :=
  [1; 35; 69; 103; 137; 171; 205; 239; 16; 50; 84; 118; 152; 186; 220; 254]%N.

Definition cleared_proxy : updates :=
  mkUpdates None None None (Some (VStr [])) None None None.

(** A session with a cookie, entries in both mirrors, a proxy, a user
    agent, a header and a setting, and a store that holds it. *)
Definition busy_session : session :=
  mkSession (lit "b") 10 50
    (mkData
       [(lit "sid", VObj [(lit "value", VStr (lit "1")); (lit "path", VStr (lit "/"))]);
        (lit "lang", VObj [(lit "value", VStr (lit "en")); (lit "path", VStr (lit "/app"))])]
       [(lit "theme", VStr (lit "dark")); (lit "visits", VNum 3)]
       [(lit "tab", VStr (lit "2"))]
       (VStr (lit "http://proxy:8080"))
       (VStr (lit "Mozilla/5.0"))
       (VObj [(lit "accept-language", VStr (lit "en"))])
       (VObj [(lit "enableJavaScript", VBool false)])).

Definition busy_store : manager :=
  mkManager [(lit "a", plain_session "a" 5); (lit "b", busy_session)] 10 100.

(** Imported data without [data], and data whose [cookies] is not an
    array of pairs. *)
Definition no_data : exported := mkExported (Some (lit "x")) None None None.

Definition bad_cookies : exported :=
  mkExported None None None
    (Some (mkExportedData NotEntries NoEntries NoEntries VNull VNull VNull VNull)).

End Sessions.

(** ** [SessionManager]: cookies, storage mirrors and statistics *)

Module SessionAccess.
Import JS Sessions.
Local Open Scope Z_scope.

(** [s.endsWith(p)] *)
Definition endsWith (s p : str) : bool :=
  (List.length p <=? List.length s)%nat &&
  str_eqb (skipn (List.length s - List.length p) s) p.

(** The session with [data] replaced: the maps of a session are changed in
    place. *)
Definition with_data (s : session) (d : session_data) : session :=
  mkSession (id s) (createdAt s) (lastAccessed s) d.

Definition with_cookies (d : session_data) (jar : Map.t value) : session_data :=
  mkData jar (localStorage d) (sessionStorage d)
         (customProxy d) (userAgent d) (headers d) (settings d).

Definition with_localStorage (d : session_data) (mirror : Map.t value) : session_data :=
  mkData (cookies d) mirror (sessionStorage d)
         (customProxy d) (userAgent d) (headers d) (settings d).

Definition with_sessionStorage (d : session_data) (mirror : Map.t value) : session_data :=
  mkData (cookies d) (localStorage d) mirror
         (customProxy d) (userAgent d) (headers d) (settings d).

(** The [options] of [setCookie]: [VUndefined] for a property that is
    absent. *)
Record cookie_options : Type := mkCookieOptions {
  c_domain : value;
  c_path : value;
  c_expires : value;
  c_httpOnly : value;
  c_secure : value;
  c_sameSite : value
}.

(** [options = {}] *)
Definition no_cookie_options : cookie_options :=
  mkCookieOptions VUndefined VUndefined VUndefined VUndefined VUndefined VUndefined.

(** The object [setCookie] stores. *)
Definition cookie_object (v : value) (o : cookie_options) : value :=
  VObj [(lit "value", v);
        (lit "domain", or_else (c_domain o) (VStr []));
        (lit "path", or_else (c_path o) (VStr (lit "/")));
        (lit "expires", c_expires o);
        (lit "httpOnly", or_else (c_httpOnly o) (VBool false));
        (lit "secure", or_else (c_secure o) (VBool false));
        (lit "sameSite", or_else (c_sameSite o) (VStr (lit "Lax")))].

(** [setCookie(sessionId, name, value, options)] *)
Definition setCookie (m : manager) (now : Z) (sessionId name : str) (v : value)
           (o : cookie_options) : manager * bool :=
  match getSession m now sessionId with
  | (m', Some session) =>
    let d := data session in
    let session' := with_data session (with_cookies d (Map.set (cookies d) name (cookie_object v o))) in
    (with_sessions m' (Map.set (sessions m') sessionId session'), true)
  | (m', None) => (m', false)
  end.

(** [cookieMatches(cookie, domain, path)] *)
Definition cookieMatches (cookie : value) (domain path : str) : completion bool :=
  d <- get_prop cookie (lit "domain") ;;
  if truthy d && negb (endsWith domain (Rewriter.to_string d)) then Normal false else
  p <- get_prop cookie (lit "path") ;;
  if truthy p && negb (startsWith path (Rewriter.to_string p)) then Normal false else
  Normal true.

(** The loop of [getCookies] over the entries of the jar. *)
Fixpoint matching_cookies (jar : list (str * value)) (domain path : str)
  : completion (list str) :=
  match jar with
  | [] => Normal []
  | (name, cookie) :: rest =>
    matches <- cookieMatches cookie domain path ;;
    if matches then
      v <- get_prop cookie (lit "value") ;;
      cookies <- matching_cookies rest domain path ;;
      Normal ((name ++ lit "=" ++ Rewriter.to_string v) :: cookies)
    else matching_cookies rest domain path
  end.

(** [getCookies(sessionId, domain, path)] *)
Definition getCookies (m : manager) (now : Z) (sessionId domain path : str)
  : manager * completion (list str) :=
  match getSession m now sessionId with
  | (m', Some session) => (m', matching_cookies (cookies (data session)) domain path)
  | (m', None) => (m', Normal [])
  end.

(** [setLocalStorage(sessionId, key, value)] *)
Definition setLocalStorage (m : manager) (now : Z) (sessionId key : str) (v : value)
  : manager * bool :=
  match getSession m now sessionId with
  | (m', Some session) =>
    let d := data session in
    let session' := with_data session (with_localStorage d (Map.set (localStorage d) key v)) in
    (with_sessions m' (Map.set (sessions m') sessionId session'), true)
  | (m', None) => (m', false)
  end.

(** [map.get(key)] as a value: [undefined] for a missing key. *)
Definition map_get (mirror : Map.t value) (key : str) : value :=
  match Map.get mirror key with Some v => v | None => VUndefined end.

(** [getLocalStorage(sessionId, key)] *)
Definition getLocalStorage (m : manager) (now : Z) (sessionId key : str) : manager * value :=
  match getSession m now sessionId with
  | (m', Some session) => (m', map_get (localStorage (data session)) key)
  | (m', None) => (m', VNull)
  end.

(** [setSessionStorage(sessionId, key, value)] *)
Definition setSessionStorage (m : manager) (now : Z) (sessionId key : str) (v : value)
  : manager * bool :=
  match getSession m now sessionId with
  | (m', Some session) =>
    let d := data session in
    let session' := with_data session (with_sessionStorage d (Map.set (sessionStorage d) key v)) in
    (with_sessions m' (Map.set (sessions m') sessionId session'), true)
  | (m', None) => (m', false)
  end.

(** [getSessionStorage(sessionId, key)] *)
Definition getSessionStorage (m : manager) (now : Z) (sessionId key : str) : manager * value :=
  match getSession m now sessionId with
  | (m', Some session) => (m', map_get (sessionStorage (data session)) key)
  | (m', None) => (m', VNull)
  end.

(** One entry of the [sessions] array of [getStats()]. *)
Record summary : Type := mkSummary {
  sum_id : str;
  sum_createdAt : Z;
  sum_lastAccessed : Z;
  cookieCount : Z;
  localStorageCount : Z;
  sessionStorageCount : Z
}.

Record stats : Type := mkStats {
  totalSessions : Z;
  stat_maxSessions : Z;
  stat_sessionTimeout : Z;
  summaries : list summary
}.

(** [getStats()] *)
Definition getStats (m : manager) : stats :=
  mkStats (Map.size (sessions m)) (maxSessions m) (sessionTimeout m)
    (map (fun kv =>
            let session := snd kv in
            mkSummary (id session) (createdAt session) (lastAccessed session)
                      (Map.size (cookies (data session)))
                      (Map.size (localStorage (data session)))
                      (Map.size (sessionStorage (data session))))
         (sessions m)).

(** The numbers inside the value are integers of at most 2^53 in absolute
    value, which JavaScript holds exactly and prints by their decimal
    digits (an object is printed without its contents). *)
Fixpoint plain_numbers (v : value) : bool :=
  match v with
  | VNum n => Z.abs n <=? 9007199254740992
  | VArr items => forallb plain_numbers items
  | _ => true
  end.

(** What [getCookies] prints or compares of a cookie stored with value
    [v] and options [o] has such numbers only. *)
Definition plainly_printed (v : value) (o : cookie_options) : Prop :=
  plain_numbers v = true /\ plain_numbers (c_domain o) = true /\
  plain_numbers (c_path o) = true.

(** A jar every cookie of which was stored by [setCookie], with a value, a
    domain and a path of that kind. *)
Definition stored_by_setCookie (jar : Map.t value) : Prop :=
  Forall (fun kv => exists v o, snd kv = cookie_object v o /\ plainly_printed v o) jar.

(** What a query has to satisfy for a cookie stored with options [o]. *)
Definition domain_allows (o : cookie_options) (domain : str) : Prop :=
  truthy (c_domain o) = true -> exists pre, domain = pre ++ Rewriter.to_string (c_domain o).

Definition path_allows (o : cookie_options) (path : str) : Prop :=
  exists rest, path = Rewriter.to_string (or_else (c_path o) (VStr (lit "/"))) ++ rest.


(** What [crypto.randomBytes] returns: octets. *)
Definition octets (random : list N) : Prop := Forall (fun b => (b < 256)%N) random.

Definition lower_hex (c : N) : Prop :=
  (48 <= c <= 57)%N \/ (97 <= c <= 102)%N.

(** Every session is stored under its own id. *)
Definition keyed_by_id (m : manager) : Prop :=
  Forall (fun kv => id (snd kv) = fst kv) (sessions m).

(** Examples: the options [{ domain: 'a.com', path: '/app' }], a store
    whose one session holds a cookie stored with them, and a store of two
    sessions with room for ten. *)
Definition site_cookie : cookie_options :=
  mkCookieOptions (VStr (lit "a.com")) (VStr (lit "/app"))
                  VUndefined VUndefined VUndefined VUndefined.

Definition cookie_session : session :=
  mkSession (lit "b") 0 50
    (mkData [(lit "sid", cookie_object (VStr (lit "1")) site_cookie)] [] []
            VNull VNull (VObj []) (VObj [])).

Definition cookie_store : manager := mkManager [(lit "b", cookie_session)] 2 100.

Definition roomy_store : manager :=
  mkManager [(lit "a", plain_session "a" 5); (lit "b", plain_session "b" 50)] 10 100.

(** The options [{ settings: { enableCookies: false, theme: 'dark' } }]. *)
Definition custom_settings : create_options :=
  mkCreate None None None [(lit "enableCookies", VBool false); (lit "theme", VStr (lit "dark"))].

End SessionAccess.

(** ** The pipeline: handlers that act on the world only *)

Module ErrorPhase.
Import JS Middleware.

(** The handler leaves the context object, and the objects it holds, as it
    finds them: what it does, it does to the world. *)
Definition leaves_context {world : Type} (h : handler world) : Prop :=
  forall ctx w, fst (fst (h ctx w)) = ctx.

End ErrorPhase.

(** ** The rate limiter: the window *)

Module Window.
Import JS Middleware.
Local Open Scope Z_scope.

(** The timestamps of [l] inside the window that ends at [now]. *)
Definition recent (o : limits) (now : Z) (l : list Z) : list Z :=
  filter (fun t => now - windowMs o <=? t) l.

(** Every list of the map is in the order of arrival and holds no
    timestamp after [now]: what the limiter records when [Date.now()] does
    not go back. *)
Definition chronological (requests : Map.t (list Z)) (now : Z) : Prop :=
  forall k l, Map.get requests k = Some l -> Sorted Z.le l /\ Forall (fun t => t <= now) l.

(** Examples: two clients, and a map in which the first has used up a
    limit of two. *)
Definition alice : request_info := mkRequest (Some (Some (lit "10.0.0.1"))) None.
Definition bob : request_info := mkRequest (Some None) (Some (lit "10.0.0.2")).

Definition busy_map : Map.t (list Z) := [(lit "10.0.0.1", [100; 900]%Z)].

End Window.

(** ** [rewriteJavaScript] and [rewriteObject]: the steps *)

Module Stages.
Import JS Regex Rewriter.

Section WithHost.
Context {H : Host}.
Variable this : config.

(** The first [replace] of [rewriteJavaScript]. *)
Definition rewrite_js_fetch (js : str) (targetUrl : value) : str :=
  replace re_js_fetch (fun _match caps _ =>
    let rewrittenUrl := rewriteURL this (VStr (cap1 caps)) targetUrl in
    lit "fetch('" ++ to_string rewrittenUrl ++ lit "'") js.

(** The second [replace]: its callback receives the capture as [method]
    and the offset of the match as [url]. *)
Definition rewrite_js_open (js : str) (targetUrl : value) : str :=
  replace re_js_open (fun _match caps offset =>
    let method := cap1 caps in
    let rewrittenUrl := rewriteURL this (VNum offset) targetUrl in
    lit ".open('" ++ method ++ lit "', '" ++ to_string rewrittenUrl ++ lit "'") js.

(** The third [replace]. *)
Definition rewrite_js_websocket (js : str) (targetUrl : value) : str :=
  replace re_js_websocket (fun _match caps _ =>
    let rewrittenUrl := rewriteWebSocketURL this (cap1 caps) targetUrl in
    lit "new WebSocket('" ++ rewrittenUrl ++ lit "'") js.

End WithHost.

(** One of the three quotes of the patterns: code units 39, 34 and 96. *)
Definition js_quote (c : N) : Prop := c = 39%N \/ c = 34%N \/ c = 96%N.

(** What the capture of these patterns may hold. *)
Definition js_string_char (c : N) : Prop := accepts (NoneOf [39; 34; 96]%N) c = true.

Definition spaces (ws : str) : Prop := Forall (fun w => is_space w = true) ws.

(** The strings inside a value, from left to right. *)
Fixpoint strings (v : value) : list str :=
  match v with
  | VStr s => [s]
  | VArr items => flat_map strings items
  | VObj props => flat_map (fun kv => let '(_, x) := kv in strings x) props
  | _ => []
  end.

(** The same value up to the contents of its strings: the same constants,
    arrays of the same length, objects with the same keys in the same
    order. *)
Fixpoint same_shape (a b : value) {struct a} : bool :=
  match a, b with
  | VUndefined, VUndefined => true
  | VNull, VNull => true
  | VBool x, VBool y => Bool.eqb x y
  | VNum x, VNum y => Z.eqb x y
  | VStr _, VStr _ => true
  | VArr xs, VArr ys =>
    (fix all2 (l l' : list value) {struct l} : bool :=
       match l, l' with
       | [], [] => true
       | x :: tl, y :: tl' => same_shape x y && all2 tl tl'
       | _, _ => false
       end) xs ys
  | VObj ps, VObj qs =>
    (fix all2 (l l' : list (str * value)) {struct l} : bool :=
       match l, l' with
       | [], [] => true
       | (k, x) :: tl, (k', y) :: tl' => str_eqb k k' && same_shape x y && all2 tl tl'
       | _, _ => false
       end) ps qs
  | _, _ => false
  end.

(** No object inside the value has an own property named [__proto__]
    (assigning to that name on the fresh [result] object of
    [rewriteObject] would set its prototype instead of a property). *)
Fixpoint proto_free (v : value) : bool :=
  match v with
  | VArr items => forallb proto_free items
  | VObj props =>
    forallb (fun kv => let '(k, x) := kv in
                       negb (str_eqb k (lit "__proto__")) && proto_free x) props
  | _ => true
  end.

(** Example: the parsed form of
    [{ name: 'x', link: 'https://a.com/x', tags: ['t', 1, null] }]. *)
Definition example_data : value :=
  VObj [(lit "name", VStr (lit "x")); (lit "link", VStr (lit "https://a.com/x"));
        (lit "tags", VArr [VStr (lit "t"); VNum 1; VNull])].

End Stages.

(** ** A host for the examples with JSON

    [JSON.parse] and [JSON.stringify] restricted to texts that are one
    string literal without escapes, on which they remove and add the
    quotes (code unit 34); every other text is refused.  The [URL] class
    is that of [ExampleHost]. *)

Module JsonExample.
Import JS Rewriter.
Local Open Scope N_scope.

(** What a string literal holds as it is: no quote, no backslash (92), no
    control character. *)
Definition literal_char (c : N) : bool :=
  (32 <=? c) && negb (c =? 34) && negb (c =? 92).

Definition parse_literal (s : str) : option value :=
  match s with
  | c :: tl =>
    if (c =? 34) && (last tl 0 =? 34) && forallb literal_char (removelast tl)
    then Some (VStr (removelast tl))
    else None
  | [] => None
  end.

Definition stringify_literal (v : value) : str :=
  match v with
  | VStr s => 34 :: s ++ [34]
  | _ => lit "null"
  end.

Definition json_host : Host := {|
  URL_parse := ExampleHost.parse;
  URL_parse_relative := fun _ _ => None;
  URL_searchParams_set := fun u _ _ => u;
  JSON_parse := parse_literal;
  JSON_stringify := stringify_literal;
  rewrite_document := fun _ _ _ _ => Throw TypeError
|}.

(** The JSON text of the string [https://a.com/x]. *)
Definition json_link : str := 34 :: lit "https://a.com/x" ++ [34].

End JsonExample.

(** ** The handlers that correct headers *)

Module Handlers.
Import JS Regex Middleware.
Local Open Scope N_scope.

(** [context[k]] *)
Fixpoint get_field (ctx : context) (k : string) : option field :=
  match ctx with
  | [] => None
  | (k', f) :: tl => if String.eqb k' k then Some f else get_field tl k
  end.

(** [o[k] = v] on an object: an existing key keeps its place, a new one
    goes last. *)
Definition set_prop (o : value) (k : str) (v : value) : value :=
  match o with
  | VObj props => VObj (Map.set props k v)
  | _ => o
  end.

(** The replacement text of [s.replace(re, replacement)] for a pattern
    without groups: [$$] stands for [$], [$&] for the match, [$`] for the
    text before it and [$'] for the text after it; every other character,
    also a [$] before something else, stands for itself. *)
Fixpoint substitute (replacement matched before after : str) : str :=
  match replacement with
  | [] => []
  | c :: tl =>
    if c =? 36 then
      match tl with
      | d :: tl' =>
        if d =? 36 then 36 :: substitute tl' matched before after
        else if d =? 38 then matched ++ substitute tl' matched before after
        else if d =? 96 then before ++ substitute tl' matched before after
        else if d =? 39 then after ++ substitute tl' matched before after
        else c :: substitute tl matched before after
      | [] => [c]
      end
    else c :: substitute tl matched before after
  end.

(** [s.replace(re, replacement)] for a pattern without the [g] flag: the
    first match, looked for from the left, is replaced.  [matcher] tries
    the pattern at the head of what is left, [before] is what was
    passed. *)
Fixpoint replace_first_from (matcher : str -> option (list str * str))
         (replacement before s : str) : str :=
  match matcher s with
  | Some (_, rest) => substitute replacement (consumed s rest) before rest ++ rest
  | None =>
    match s with
    | [] => []
    | c :: s' => c :: replace_first_from matcher replacement (before ++ [c]) s'
    end
  end.

Definition replace_first (matcher : str -> option (list str * str))
           (replacement s : str) : str :=
  replace_first_from matcher replacement [] s.

(** A pattern that ends with [$]: the match has to take the rest of the
    input. *)
Definition match_at_end (re : regex) (s : str) : option (list str * str) :=
  match_nodes re s []
    (fun caps rest => match rest with [] => Some (caps, rest) | _ :: _ => None end).

(** A pattern that starts with [^]: it is tried at the start only. *)
Definition replace_at_start (re : regex) (replacement s : str) : str :=
  match match_at re s with
  | Some (_, rest) => substitute replacement (consumed s rest) [] rest ++ rest
  | None => s
  end.

(** [v.replace(...)]: of the values of the model only strings have the
    method. *)
Definition string_replace (v : value) (f : str -> str) : completion value :=
  match v with
  | VStr s => Normal (VStr (f s))
  | _ => Throw TypeError
  end.

(** *** [cookieManager] *)

(** [/Path=\/[^;]*/]; 59 is the semicolon. *)
Definition re_cookie_path : regex := chars "Path=/" ++ [Item (Star (NoneOf [59]))].

(** [cookie.replace(/Path=\/[^;]*/, 'Path=/')] *)
Definition fix_path (cookie : str) : str :=
  replace_first (match_at re_cookie_path) (lit "Path=/") cookie.

(** [cookies.map(cookie => cookie.replace(...))] *)
Fixpoint map_cookies (cookies : list value) : completion (list value) :=
  match cookies with
  | [] => Normal []
  | cookie :: tl =>
    c <- string_replace cookie fix_path ;;
    rest <- map_cookies tl ;;
    Normal (c :: rest)
  end.

(** The body of the handler on a truthy [response]: the object after it
    and the completion. *)
Definition cookieManager_response (response : value) : value * completion unit :=
  match get_prop response (lit "headers") with
  | Throw e => (response, Throw e)
  | Normal headers =>
    if negb (truthy headers) then (response, Normal tt) else
    match get_prop headers (lit "set-cookie") with
    | Throw e => (response, Throw e)
    | Normal cookies =>
      if negb (truthy cookies) then (response, Normal tt) else
      match cookies with
      | VArr items =>
        match map_cookies items with
        | Normal items' =>
          (set_prop response (lit "headers")
             (set_prop headers (lit "set-cookie") (VArr items')), Normal tt)
        | Throw e => (response, Throw e)
        end
      | _ => (response, Normal tt)
      end
    end
  end.

(** The handler [cookieManager()] returns.  A caught failure under
    [response] is an error object: it has no [headers]. *)
Definition cookieManager {world : Type} : handler world := fun ctx w =>
  match get_field ctx "response" with
  | Some (Data response) =>
    if truthy response then
      let '(response', c) := cookieManager_response response in
      (set_field ctx "response" (Data response'), w, c)
    else (ctx, w, Normal tt)
  | _ => (ctx, w, Normal tt)
  end.

(** *** [headerCorrection] *)

Definition digits : list N := [48; 49; 50; 51; 52; 53; 54; 55; 56; 57].

(** [/:\d+$/] without its [$]; 58 is the colon. *)
Definition re_port : regex := [Item (One (Chr 58)); Item (Plus (OneOf digits))].

(** [host.replace(/:\d+$/, '')] *)
Definition fix_host (host : str) : str := replace_first (match_at_end re_port) [] host.

(** [/^https?:\/\/[^\/]+/] without its [^]; 115 is [s], 47 the slash. *)
Definition re_origin : regex :=
  chars "http" ++ [Item (Opt (Chr 115))] ++ chars "://" ++ [Item (Plus (NoneOf [47]))].

(** [referer.replace(/^https?:\/\/[^\/]+/, context.proxyUrl || '')] *)
Definition fix_referer (proxyUrl : value) (referer : str) : str :=
  replace_at_start re_origin (Rewriter.to_string (or_else proxyUrl (VStr []))) referer.

(** [if (headers[name]) headers[name] = headers[name].replace(...)] on
    [request.headers]: the value of [request.headers] after it, and the
    completion. *)
Definition correct_header (headers : value) (name : str) (f : str -> str)
  : value * completion unit :=
  match get_prop headers name with
  | Throw e => (headers, Throw e)
  | Normal v =>
    if negb (truthy v) then (headers, Normal tt) else
    match string_replace v f with
    | Normal v' => (set_prop headers name v', Normal tt)
    | Throw e => (headers, Throw e)
    end
  end.

(** The body of the handler on a truthy [request]. *)
Definition headerCorrection_request (request proxyUrl : value) : value * completion unit :=
  match get_prop request (lit "headers") with
  | Throw e => (request, Throw e)
  | Normal headers =>
    match correct_header headers (lit "host") fix_host with
    | (_, Throw e) => (request, Throw e)
    | (headers1, Normal _) =>
      let '(headers2, c) := correct_header headers1 (lit "referer") (fix_referer proxyUrl) in
      (set_prop request (lit "headers") headers2, c)
    end
  end.

(** [context.proxyUrl] *)
Definition context_value (ctx : context) (k : string) : value :=
  match get_field ctx k with
  | Some (Data v) => v
  | Some (Failure _) => VObj []
  | None => VUndefined
  end.

(** The handler [headerCorrection()] returns.  A caught failure under
    [request] is an error object: reading [host] of its missing [headers]
    throws. *)
Definition headerCorrection {world : Type} : handler world := fun ctx w =>
  match get_field ctx "request" with
  | Some (Data request) =>
    if truthy request then
      let '(request', c) := headerCorrection_request request (context_value ctx "proxyUrl") in
      (set_field ctx "request" (Data request'), w, c)
    else (ctx, w, Normal tt)
  | Some (Failure _) => (ctx, w, Throw TypeError)
  | None => (ctx, w, Normal tt)
  end.

(** *** What the statements need *)

Definition is_digit (c : N) : Prop := 48 <= c <= 57.

(** The text ends with a colon and one or more digits. *)
Definition has_port (s : str) : Prop :=
  exists h ds, s = h ++ 58 :: ds /\ ds <> [] /\ Forall is_digit ds.

(** Nothing, or text that starts with [c]. *)
Definition starts_with_or_empty (c : N) (s : str) : Prop :=
  s = [] \/ exists tl, s = c :: tl.

(** Examples: a response with two cookies, and a request. *)
Definition cookie_response : value :=
  VObj [(lit "headers",
         VObj [(lit "set-cookie",
                VArr [VStr (lit "sid=1; Path=/app"); VStr (lit "lang=en")])])].

Definition plain_request : value :=
  VObj [(lit "headers",
         VObj [(lit "host", VStr (lit "a.com:8080"));
               (lit "referer", VStr (lit "https://a.com/page"))])].

End Handlers.

(* ================================================================== *)
(** * Part II: properties *)
(* ================================================================== *)

(** ** The URI component codec *)

Module URIFacts.
Import JS URI.
Local Open Scope N_scope.

Ltac euclid := zify; Z.to_euclidean_division_equations; lia.

Ltac bools :=
  repeat match goal with
  | |- andb _ _ = true => apply andb_true_intro; split
  | |- negb _ = true => apply negb_true_iff
  | |- andb _ _ = false => apply andb_false_iff
  | |- (_ <=? _) = true => apply N.leb_le
  | |- (_ <? _) = true => apply N.ltb_lt
  | |- (_ <=? _) = false => apply N.leb_gt
  | |- (_ <? _) = false => apply N.ltb_ge
  | |- (_ =? _) = false => apply N.eqb_neq
  end.

Lemma in_range_spec lo hi c : in_range lo hi c = true <-> lo <= c <= hi.
Proof.
  unfold in_range. rewrite andb_true_iff, !N.leb_le. tauto.
Qed.

Lemma in_range_false lo hi c : in_range lo hi c = false <-> (c < lo \/ hi < c).
Proof.
  unfold in_range. rewrite andb_false_iff, !N.leb_gt. tauto.
Qed.

Lemma hex_value_digit d : d < 16 -> hex_value (hex_digit d) = Some d.
Proof.
  intros Hd.
  assert (Hcases : In d [0;1;2;3;4;5;6;7;8;9;10;11;12;13;14;15]).
  { simpl. lia. }
  simpl in Hcases.
  repeat (destruct Hcases as [<- | Hcases]; [reflexivity |]).
  contradiction.
Qed.

Lemma read_pct_pct b tail : b < 256 -> read_pct (pct b ++ tail) = Some (b, tail).
Proof.
  intros Hb. unfold pct. cbn [app read_pct]. rewrite N.eqb_refl.
  rewrite !hex_value_digit by euclid.
  f_equal. f_equal. euclid.
Qed.

Lemma read_octets_pct_all bs tail :
  Forall (fun b => b < 256) bs ->
  read_octets (List.length bs) (pct_all bs ++ tail) = Some (bs, tail).
Proof.
  induction 1 as [| b bs Hb Hbs IH]; [reflexivity |].
  cbn [List.length read_octets pct_all flat_map].
  rewrite <- app_assoc, read_pct_pct by assumption.
  fold (pct_all bs). now rewrite IH.
Qed.

Lemma utf8_octets cp : cp < 1114112 -> Forall (fun b => b < 256) (utf8 cp).
Proof.
  intros Hcp. unfold utf8.
  repeat match goal with |- context [?a <? ?b] => destruct (N.ltb_spec a b) end;
    repeat constructor; euclid.
Qed.

Lemma utf8_head cp :
  128 <= cp -> scalar cp ->
  exists b0 rest,
    utf8 cp = b0 :: rest /\
    leading_ones b0 = S (List.length rest) /\
    (1 <= List.length rest <= 3)%nat /\
    utf8_decode (b0 :: rest) = Some cp.
Proof.
  intros Hlo [Hhi Hsur]. unfold utf8.
  destruct (N.ltb_spec cp 128); [lia |].
  destruct (N.ltb_spec cp 2048); [| destruct (N.ltb_spec cp 65536)].
  - eexists _, _. split; [reflexivity |]. repeat split.
    + unfold leading_ones.
      repeat match goal with |- context [?a <? ?b] => destruct (N.ltb_spec a b) end;
        try reflexivity; euclid.
    + simpl; lia.
    + simpl; lia.
    + unfold utf8_decode.
      replace ((192 + cp / 64 - 192) * 64 + (128 + cp mod 64 - 128)) with cp by euclid.
      replace (continuation (128 + cp mod 64)) with true
        by (symmetry; apply in_range_spec; euclid).
      replace (128 <=? cp) with true by (symmetry; bools; lia).
      reflexivity.
  - eexists _, _. split; [reflexivity |]. repeat split.
    + unfold leading_ones.
      repeat match goal with |- context [?a <? ?b] => destruct (N.ltb_spec a b) end;
        try reflexivity; euclid.
    + simpl; lia.
    + simpl; lia.
    + unfold utf8_decode.
      replace ((224 + cp / 4096 - 224) * 4096 + (128 + (cp / 64) mod 64 - 128) * 64
               + (128 + cp mod 64 - 128)) with cp by euclid.
      replace (continuation (128 + (cp / 64) mod 64)) with true
        by (symmetry; apply in_range_spec; euclid).
      replace (continuation (128 + cp mod 64)) with true
        by (symmetry; apply in_range_spec; euclid).
      replace (2048 <=? cp) with true by (symmetry; bools; lia).
      replace (in_range 55296 57343 cp) with false
        by (symmetry; apply in_range_false; lia).
      reflexivity.
  - eexists _, _. split; [reflexivity |]. repeat split.
    + unfold leading_ones.
      repeat match goal with |- context [?a <? ?b] => destruct (N.ltb_spec a b) end;
        try reflexivity; euclid.
    + simpl; lia.
    + simpl; lia.
    + unfold utf8_decode.
      replace ((240 + cp / 262144 - 240) * 262144 + (128 + (cp / 4096) mod 64 - 128) * 4096
               + (128 + (cp / 64) mod 64 - 128) * 64 + (128 + cp mod 64 - 128))
        with cp by euclid.
      replace (continuation (128 + (cp / 4096) mod 64)) with true
        by (symmetry; apply in_range_spec; euclid).
      replace (continuation (128 + (cp / 64) mod 64)) with true
        by (symmetry; apply in_range_spec; euclid).
      replace (continuation (128 + cp mod 64)) with true
        by (symmetry; apply in_range_spec; euclid).
      replace (65536 <=? cp) with true by (symmetry; bools; lia).
      replace (cp <=? 1114111) with true by (symmetry; bools; lia).
      reflexivity.
Qed.

Lemma decode_escape f s b r1 :
  read_pct s = Some (b, r1) ->
  decode (S f) s =
  match leading_ones b with
  | 0%nat => option_map (cons b) (decode f r1)
  | 1%nat => None
  | S n =>
    if (4 <? S n)%nat then None else
    match read_octets n r1 with
    | None => None
    | Some (bs, r2) =>
      match utf8_decode (b :: bs) with
      | None => None
      | Some cp => option_map (app (utf16 cp)) (decode f r2)
      end
    end
  end.
Proof.
  intros Hr.
  destruct s as [| c [| h [| l rest]]]; try discriminate.
  assert (Hc : (c =? 37) = true).
  { cbn [read_pct] in Hr. destruct (c =? 37); [reflexivity | discriminate]. }
  cbn [decode]. rewrite Hc, Hr. reflexivity.
Qed.

(** Decoding the escapes of a scalar value gives its UTF-16 form back. *)
Lemma decode_pct_utf8 f cp tail :
  scalar cp ->
  decode (S f) (pct_all (utf8 cp) ++ tail) = option_map (app (utf16 cp)) (decode f tail).
Proof.
  intros Hs. pose proof Hs as [Hhi Hsur].
  pose proof (utf8_octets cp Hhi) as Hoct.
  destruct (N.ltb_spec cp 128) as [Hascii | Hwide].
  - assert (Hu : utf8 cp = [cp]).
    { unfold utf8. now replace (cp <? 128) with true by (symmetry; bools; lia). }
    rewrite Hu. cbn [pct_all flat_map]. rewrite app_nil_r.
    rewrite (decode_escape f _ cp tail) by (apply read_pct_pct; lia).
    unfold leading_ones. replace (cp <? 128) with true by (symmetry; bools; lia).
    unfold utf16. replace (cp <? 65536) with true by (symmetry; bools; lia).
    reflexivity.
  - destruct (utf8_head cp Hwide Hs) as (b0 & rest & Hu & Hlead & Hlen & Hdec).
    rewrite Hu in Hoct |- *. inversion Hoct as [| ? ? Hb0 Hrest]; subst.
    cbn [pct_all flat_map]. fold (pct_all rest). rewrite <- app_assoc.
    rewrite (decode_escape f _ b0 (pct_all rest ++ tail)) by (now apply read_pct_pct).
    rewrite Hlead.
    destruct (List.length rest) as [| n] eqn:Hn; [lia |].
    replace (4 <? S (S n))%nat with false by (symmetry; apply Nat.ltb_ge; lia).
    rewrite <- Hn, read_octets_pct_all, Hdec by assumption.
    reflexivity.
Qed.

Lemma unescaped_not_percent c : unescaped c = true -> (c =? 37) = false.
Proof.
  intros Hu. destruct (N.eqb_spec c 37) as [-> |]; [discriminate | reflexivity].
Qed.

Lemma unescaped_ascii c : unescaped c = true -> c < 128.
Proof.
  unfold unescaped. rewrite !orb_true_iff, !in_range_spec. cbn [existsb].
  rewrite !orb_true_iff, !N.eqb_eq. intuition (try lia; try discriminate).
Qed.

Lemma pair_scalar hi lo :
  is_high_surrogate hi = true -> is_low_surrogate lo = true ->
  scalar (pair_code_point hi lo) /\ utf16 (pair_code_point hi lo) = [hi; lo].
Proof.
  unfold is_high_surrogate, is_low_surrogate. rewrite !in_range_spec.
  intros Hh Hl. unfold scalar, pair_code_point, utf16. split; [lia |].
  replace (_ <? 65536) with false by (symmetry; bools; lia).
  f_equal; [| f_equal]; euclid.
Qed.

Lemma pct_all_length bs : List.length (pct_all bs) = (3 * List.length bs)%nat.
Proof.
  induction bs as [| b bs IH]; [reflexivity |].
  cbn [pct_all flat_map]. fold (pct_all bs).
  rewrite length_app, IH. simpl. lia.
Qed.

Lemma utf8_nonempty cp : (1 <= List.length (utf8 cp))%nat.
Proof.
  unfold utf8.
  repeat match goal with |- context [?a <? ?b] => destruct (N.ltb_spec a b) end;
    simpl; lia.
Qed.

(** Decoding what [encode] produced gives the string back, with any fuel
    that covers the encoded length. *)
Lemma decode_encode_fuel n :
  forall s, (List.length s <= n)%nat -> code_units s ->
  forall e, encode s = Some e ->
  forall fuel, (List.length e <= fuel)%nat -> decode fuel e = Some s.
Proof.
  induction n as [| n IH]; intros s Hlen Hcu e Henc fuel Hfuel.
  - destruct s; [| simpl in Hlen; lia].
    injection Henc as <-. now destruct fuel.
  - destruct s as [| c rest].
    { injection Henc as <-. now destruct fuel. }
    inversion Hcu as [| ? ? Hc Hrest]; subst. unfold code_unit in Hc.
    cbn [encode] in Henc. cbn [List.length] in Hlen.
    destruct (unescaped c) eqn:Hun.
    + destruct (encode rest) as [e' |] eqn:He'; [| discriminate].
      injection Henc as <-. cbn [List.length] in Hfuel.
      destruct fuel as [| fuel]; [lia |].
      cbn [decode]. rewrite (unescaped_not_percent c Hun).
      rewrite (IH rest) with (e := e') by (assumption || lia). reflexivity.
    + destruct (is_high_surrogate c) eqn:Hhi.
      * destruct rest as [| d rest']; [discriminate |].
        destruct (is_low_surrogate d) eqn:Hlo; [| discriminate].
        destruct (encode rest') as [e' |] eqn:He'; [| discriminate].
        injection Henc as <-.
        destruct (pair_scalar c d Hhi Hlo) as [Hsc H16].
        inversion Hrest; subst. cbn [List.length] in Hlen.
        pose proof (utf8_nonempty (pair_code_point c d)) as Hne.
        rewrite length_app, pct_all_length in Hfuel.
        destruct fuel as [| fuel]; [lia |].
        rewrite decode_pct_utf8 by assumption.
        rewrite (IH rest') with (e := e') by (assumption || lia).
        now rewrite H16.
      * destruct (is_low_surrogate c) eqn:Hlo; [discriminate |].
        destruct (encode rest) as [e' |] eqn:He'; [| discriminate].
        injection Henc as <-.
        assert (Hsc : scalar c).
        { unfold is_high_surrogate, is_low_surrogate in *.
          apply in_range_false in Hhi, Hlo. unfold scalar. lia. }
        pose proof (utf8_nonempty c) as Hne.
        rewrite length_app, pct_all_length in Hfuel.
        destruct fuel as [| fuel]; [lia |].
        rewrite decode_pct_utf8 by assumption.
        rewrite (IH rest) with (e := e') by (assumption || lia).
        unfold utf16. now replace (c <? 65536) with true by (symmetry; bools; lia).
Qed.

(** [decodeURIComponent(encodeURIComponent(s)) === s] whenever the
    encoding does not throw. *)
Lemma decodeURIComponent_encodeURIComponent s e :
  code_units s -> encodeURIComponent s = Normal e -> decodeURIComponent e = Normal s.
Proof.
  unfold encodeURIComponent, decodeURIComponent. intros Hcu He.
  destruct (encode s) as [e' |] eqn:Henc; [| discriminate].
  injection He as ->.
  now rewrite (decode_encode_fuel (List.length s) s (le_n _) Hcu e Henc _ (le_n _)).
Qed.

(** The encoding is never shorter than the string. *)
Lemma encode_length_bounded n :
  forall s, (List.length s <= n)%nat ->
  forall e, encode s = Some e -> (List.length s <= List.length e)%nat.
Proof.
  induction n as [| n IH]; intros s Hlen e Henc.
  - destruct s; simpl in *; lia.
  - destruct s as [| c rest]; [simpl; lia |].
    cbn [encode] in Henc. cbn [List.length] in Hlen.
    destruct (unescaped c).
    + destruct (encode rest) as [e' |] eqn:He'; [| discriminate].
      injection Henc as <-. specialize (IH rest ltac:(lia) e' He'). simpl. lia.
    + destruct (is_high_surrogate c).
      * destruct rest as [| d rest']; [discriminate |].
        destruct (is_low_surrogate d); [| discriminate].
        destruct (encode rest') as [e' |] eqn:He'; [| discriminate].
        injection Henc as <-. cbn [List.length] in Hlen.
        specialize (IH rest' ltac:(lia) e' He').
        pose proof (utf8_nonempty (pair_code_point c d)).
        rewrite length_app, pct_all_length. simpl. lia.
      * destruct (is_low_surrogate c); [discriminate |].
        destruct (encode rest) as [e' |] eqn:He'; [| discriminate].
        injection Henc as <-. specialize (IH rest ltac:(lia) e' He').
        pose proof (utf8_nonempty c).
        rewrite length_app, pct_all_length. simpl. lia.
Qed.

Lemma encode_length s e : encode s = Some e -> (List.length s <= List.length e)%nat.
Proof. apply (encode_length_bounded (List.length s)). lia. Qed.

Lemma hex_digit_unescaped d : d < 16 -> unescaped (hex_digit d) = true.
Proof.
  intros Hd.
  assert (Hcases : In d [0;1;2;3;4;5;6;7;8;9;10;11;12;13;14;15]).
  { simpl. lia. }
  simpl in Hcases.
  repeat (destruct Hcases as [<- | Hcases]; [reflexivity |]).
  contradiction.
Qed.

Lemma pct_all_safe bs : Forall (fun b => b < 256) bs -> Forall uri_safe (pct_all bs).
Proof.
  induction 1 as [| b bs Hb _ IH]; [constructor |].
  cbn [pct_all flat_map]. fold (pct_all bs). apply Forall_app. split; [| exact IH].
  unfold pct.
  apply Forall_cons; [now right |].
  apply Forall_cons; [left; apply hex_digit_unescaped; euclid |].
  apply Forall_cons; [left; apply hex_digit_unescaped; euclid | apply Forall_nil].
Qed.

(** An encoded component holds nothing but unescaped characters and [%]:
    no [&], [=], [#] or [?]. *)
Lemma encode_safe_bounded n :
  forall s, (List.length s <= n)%nat -> code_units s ->
  forall e, encode s = Some e -> Forall uri_safe e.
Proof.
  induction n as [| n IH]; intros s Hlen Hcu e Henc.
  - destruct s; [| simpl in Hlen; lia]. injection Henc as <-. constructor.
  - destruct s as [| c rest]; [injection Henc as <-; constructor |].
    inversion Hcu as [| ? ? Hc Hrest]; subst. unfold code_unit in Hc.
    cbn [encode] in Henc. cbn [List.length] in Hlen.
    destruct (unescaped c) eqn:Hun.
    + destruct (encode rest) as [e' |] eqn:He'; [| discriminate].
      injection Henc as <-. constructor; [now left |].
      apply (IH rest); (assumption || lia).
    + destruct (is_high_surrogate c) eqn:Hhi.
      * destruct rest as [| d rest']; [discriminate |].
        destruct (is_low_surrogate d) eqn:Hlo; [| discriminate].
        destruct (encode rest') as [e' |] eqn:He'; [| discriminate].
        injection Henc as <-. inversion Hrest; subst. cbn [List.length] in Hlen.
        destruct (pair_scalar c d Hhi Hlo) as [[Hsc _] _].
        apply Forall_app. split; [apply pct_all_safe, utf8_octets, Hsc |].
        apply (IH rest'); (assumption || lia).
      * destruct (is_low_surrogate c); [discriminate |].
        destruct (encode rest) as [e' |] eqn:He'; [| discriminate].
        injection Henc as <-.
        apply Forall_app. split; [apply pct_all_safe, utf8_octets; lia |].
        apply (IH rest); (assumption || lia).
Qed.

Lemma encode_safe s e : code_units s -> encode s = Some e -> Forall uri_safe e.
Proof.
  intros Hcu He. exact (encode_safe_bounded _ s (le_n _) Hcu e He).
Qed.

End URIFacts.

(** ** The matcher and [replace] *)

Module RegexFacts.
Import JS Regex Sheets.

Section Continuations.
Context {R : Type}.
Implicit Types (k : str -> option R) (r : R).

(** Whatever matches hands a suffix of the input to its continuation. *)
Lemma star_cont a s k r :
  star a s k = Some r ->
  exists s', (List.length s' <= List.length s)%nat /\ k s' = Some r.
Proof.
  induction s as [| c s IH]; cbn [star]; intros Hm.
  - now exists [].
  - destruct (accepts a c).
    + unfold first_of in Hm. destruct (star a s k) as [r' |] eqn:Hs.
      * injection Hm as ->. destruct (IH eq_refl) as (s' & Hl & Hk).
        exists s'. split; [simpl; lia | assumption].
      * now exists (c :: s).
    + now exists (c :: s).
Qed.

Lemma match_item_cont i s k r :
  match_item i s k = Some r ->
  exists s', (List.length s' <= List.length s)%nat /\ k s' = Some r.
Proof.
  destruct i as [a | a | a | a]; cbn [match_item]; intros Hm.
  - destruct s as [| c s]; [discriminate |].
    destruct (accepts a c); [| discriminate].
    exists s. split; [simpl; lia | assumption].
  - destruct s as [| c s]; [now exists [] |].
    destruct (accepts a c); [| now exists (c :: s)].
    unfold first_of in Hm. destruct (k s) as [r' |] eqn:Hk.
    + injection Hm as ->. exists s. split; [simpl; lia | assumption].
    + now exists (c :: s).
  - destruct s as [| c s]; [discriminate |].
    destruct (accepts a c); [| discriminate].
    destruct (star_cont _ _ _ _ Hm) as (s' & Hl & Hk).
    exists s'. split; [simpl; lia | assumption].
  - exact (star_cont _ _ _ _ Hm).
Qed.

Lemma match_items_cont items : forall s k r,
  match_items items s k = Some r ->
  exists s', (List.length s' <= List.length s)%nat /\ k s' = Some r.
Proof.
  induction items as [| i tl IH]; cbn [match_items]; intros s k r Hm.
  - now exists s.
  - destruct (match_item_cont _ _ _ _ Hm) as (s1 & Hl1 & Hk1).
    destruct (IH _ _ _ Hk1) as (s2 & Hl2 & Hk2).
    exists s2. split; [lia | assumption].
Qed.

Lemma match_nodes_cont re : forall s caps (k : list str -> str -> option R) r,
  match_nodes re s caps k = Some r ->
  exists caps' s', (List.length s' <= List.length s)%nat /\ k caps' s' = Some r.
Proof.
  induction re as [| [i | items] tl IH]; cbn [match_nodes]; intros s caps k r Hm.
  - now exists caps, s.
  - destruct (match_item_cont _ _ _ _ Hm) as (s1 & Hl1 & Hk1).
    destruct (IH _ _ _ _ Hk1) as (caps' & s2 & Hl2 & Hk2).
    exists caps', s2. split; [lia | assumption].
  - destruct (match_items_cont _ _ _ _ Hm) as (s1 & Hl1 & Hk1).
    destruct (IH _ _ _ _ Hk1) as (caps' & s2 & Hl2 & Hk2).
    exists caps', s2. split; [lia | assumption].
Qed.

(** A greedy run takes every accepted character when the pattern that
    follows matches right after the run. *)
Lemma star_greedy a body rest k r :
  Forall (fun c => accepts a c = true) body ->
  match rest with [] => True | c :: _ => accepts a c = false end ->
  k rest = Some r ->
  star a (body ++ rest) k = Some r.
Proof.
  intros Hbody Hrest Hk. induction Hbody as [| c body Hc _ IH].
  - cbn [app]. destruct rest as [| c rest]; cbn [star]; [assumption |].
    now rewrite Hrest.
  - cbn [app star]. now rewrite Hc, IH.
Qed.
End Continuations.

Lemma match_at_suffix re s caps rest :
  match_at re s = Some (caps, rest) -> (List.length rest <= List.length s)%nat.
Proof.
  intros Hm. apply match_nodes_cont in Hm as (caps' & s' & Hl & Hk).
  now injection Hk as _ <-.
Qed.

Lemma consumed_nil s rest :
  (List.length rest <= List.length s)%nat ->
  consumed s rest = [] -> List.length rest = List.length s.
Proof.
  unfold consumed. intros Hl Hc.
  apply (f_equal (@List.length N)) in Hc. rewrite length_firstn in Hc. simpl in Hc. lia.
Qed.

Lemma consumed_app m rest : consumed (m ++ rest) rest = m.
Proof.
  unfold consumed. rewrite length_app.
  replace (List.length m + List.length rest - List.length rest)%nat with (List.length m) by lia.
  now rewrite firstn_app, firstn_all, Nat.sub_diag, firstn_0, app_nil_r.
Qed.

Section Replace.
Variable re : regex.
Variable f : str -> list str -> Z -> str.

(** Any fuel above the length of the input gives the same result. *)
Lemma replace_from_fuel fuel1 : forall fuel2 pos s,
  (List.length s < fuel1)%nat -> (List.length s < fuel2)%nat ->
  replace_from fuel1 re f pos s = replace_from fuel2 re f pos s.
Proof.
  induction fuel1 as [| fuel1 IH]; intros fuel2 pos s H1 H2; [lia |].
  destruct fuel2 as [| fuel2]; [lia |].
  cbn [replace_from].
  destruct (match_at re s) as [[caps rest] |] eqn:Hm.
  - pose proof (match_at_suffix _ _ _ _ Hm) as Hl.
    destruct (consumed s rest) as [| c m] eqn:Hc.
    + destruct s as [| c s]; [reflexivity |].
      cbn [List.length] in *. f_equal. f_equal. apply IH; lia.
    + f_equal. apply IH.
      * assert (List.length rest <> List.length s); [| lia].
        intros Heq. unfold consumed in Hc. rewrite Heq, Nat.sub_diag in Hc. discriminate.
      * assert (List.length rest <> List.length s); [| lia].
        intros Heq. unfold consumed in Hc. rewrite Heq, Nat.sub_diag in Hc. discriminate.
  - destruct s as [| c s]; [reflexivity |].
    cbn [List.length] in *. f_equal. apply IH; lia.
Qed.

(** The callbacks of [rewriteCSS] do not look at the offset. *)
Hypothesis f_offset : forall m caps p p', f m caps p = f m caps p'.

Lemma replace_from_offset fuel : forall pos pos' s,
  replace_from fuel re f pos s = replace_from fuel re f pos' s.
Proof.
  induction fuel as [| fuel IH]; intros pos pos' s; [reflexivity |].
  cbn [replace_from].
  destruct (match_at re s) as [[caps rest] |].
  - rewrite (f_offset _ _ pos pos'). f_equal.
    destruct (consumed s rest); [destruct s; [reflexivity | f_equal; apply IH] | apply IH].
  - destruct s; [reflexivity | f_equal; apply IH].
Qed.

(** A match at the head of the input is replaced, and the scan goes on
    after it. *)
Lemma replace_match_head m caps rest :
  m <> [] ->
  match_at re (m ++ rest) = Some (caps, rest) ->
  replace re f (m ++ rest) = f m caps 0%Z ++ replace re f rest.
Proof.
  intros Hne Hm. unfold replace at 1. cbn [replace_from].
  rewrite Hm, consumed_app.
  destruct m as [| c m]; [contradiction |].
  f_equal. rewrite (replace_from_offset _ _ 0%Z). unfold replace.
  apply replace_from_fuel; rewrite ?length_app; simpl; lia.
Qed.

(** Where nothing matches, one character is copied. *)
Lemma replace_skip_head c s :
  match_at re (c :: s) = None ->
  replace re f (c :: s) = c :: replace re f s.
Proof.
  intros Hm. unfold replace at 1. cbn [replace_from].
  rewrite Hm. f_equal. rewrite (replace_from_offset _ _ 0%Z). unfold replace.
  apply replace_from_fuel; simpl; lia.
Qed.

(** A stretch in which nothing matches is copied. *)
Lemma replace_copy x rest :
  matches_in re x rest = false ->
  replace re f (x ++ rest) = x ++ replace re f rest.
Proof.
  induction x as [| c x IH]; intros Hm; [reflexivity |].
  cbn [matches_in] in Hm. cbn [app].
  destruct (match_at re (c :: x ++ rest)) eqn:Hc; [discriminate |].
  rewrite replace_skip_head by exact Hc. f_equal. now apply IH.
Qed.
End Replace.

End RegexFacts.

(** ** The rewriter *)

Module RewriterFacts.
Import JS Regex Rewriter Sheets RegexFacts.
Local Open Scope N_scope.

Lemma url_char_not_quote c : url_char c -> accepts (OneOf [39; 34]) c = false.
Proof.
  unfold url_char. cbn [accepts existsb]. rewrite negb_true_iff, !orb_false_iff.
  intros (H1 & H2 & _). now rewrite H1, H2.
Qed.

Lemma accepts_chr c : accepts (Chr c) c = true.
Proof. apply N.eqb_refl. Qed.

Lemma css_url_close q' post caps :
  opt_quote q' ->
  match_nodes [Item (Opt (OneOf [39; 34])); Item (One (Chr 41))] (q' ++ 41 :: post) caps
    (fun caps rest => Some (caps, rest)) = Some (caps, post).
Proof.
  intros [-> | [-> | ->]]; reflexivity.
Qed.

Lemma css_url_match q q' body post :
  opt_quote q -> opt_quote q' -> body <> [] -> Forall url_char body ->
  match_at re_css_url (lit "url(" ++ q ++ body ++ q' ++ 41 :: post) = Some ([body], post).
Proof.
  intros Hq Hq' Hne Hbody.
  assert (Hinner :
    match_nodes [Group [Plus (NoneOf [39; 34; 41])]; Item (Opt (OneOf [39; 34]));
                 Item (One (Chr 41))] (body ++ q' ++ 41 :: post) []
      (fun caps rest => Some (caps, rest)) = Some ([body], post)).
  { destruct body as [| b body]; [contradiction |].
    inversion Hbody as [| ? ? Hb Hrest]; subst.
    cbn [match_nodes match_items match_item app]. unfold url_char in Hb. rewrite Hb.
    apply star_greedy.
    - exact Hrest.
    - destruct Hq' as [-> | [-> | ->]]; reflexivity.
    - change (b :: body ++ q' ++ 41 :: post) with ((b :: body) ++ q' ++ 41 :: post).
      rewrite consumed_app. cbn [app]. now apply css_url_close. }
  set (tl := [Group [Plus (NoneOf [39; 34; 41])]; Item (Opt (OneOf [39; 34]));
              Item (One (Chr 41))]) in *.
  set (k0 := fun (caps : list str) (rest : str) => Some (caps, rest)) in *.
  assert (Hopen :
    match_nodes (Item (Opt (OneOf [39; 34])) :: tl) (q ++ body ++ q' ++ 41 :: post) [] k0
    = Some ([body], post)).
  { destruct Hq as [-> | [-> | ->]].
    - destruct body as [| b body]; [contradiction |].
      inversion Hbody as [| ? ? Hb Hrest]; subst.
      cbn [app] in *. cbn [match_nodes match_item].
      rewrite (url_char_not_quote b Hb). exact Hinner.
    - change (first_of (match_nodes tl (body ++ q' ++ 41 :: post) [] k0)
                       (match_nodes tl (39 :: body ++ q' ++ 41 :: post) [] k0)
              = Some ([body], post)).
      now rewrite Hinner.
    - change (first_of (match_nodes tl (body ++ q' ++ 41 :: post) [] k0)
                       (match_nodes tl (34 :: body ++ q' ++ 41 :: post) [] k0)
              = Some ([body], post)).
      now rewrite Hinner. }
  exact Hopen.
Qed.

Lemma quote_not_space c : is_quote c -> accepts Space c = false.
Proof. intros [-> | ->]; reflexivity. Qed.

Lemma quote_accepted c : is_quote c -> accepts (OneOf [39; 34]) c = true.
Proof. intros [-> | ->]; reflexivity. Qed.

Lemma quote_not_import_char c : is_quote c -> accepts (NoneOf [39; 34]) c = false.
Proof. intros [-> | ->]; reflexivity. Qed.

Lemma css_import_match ws c body c' post :
  ws <> [] -> Forall (fun w => is_space w = true) ws ->
  is_quote c -> body <> [] -> Forall import_char body -> is_quote c' ->
  match_at re_css_import (lit "@import" ++ ws ++ c :: body ++ c' :: post)
  = Some ([body], post).
Proof.
  intros Hws Hspace Hc Hne Hbody Hc'.
  set (k0 := fun (caps : list str) (rest : str) => Some (caps, rest)).
  assert (Hinner :
    match_nodes [Item (One (OneOf [39; 34])); Group [Plus (NoneOf [39; 34])];
                 Item (One (OneOf [39; 34]))] (c :: body ++ c' :: post) [] k0
    = Some ([body], post)).
  { cbn [match_nodes match_item]. rewrite (quote_accepted c Hc).
    destruct body as [| b body]; [contradiction |].
    inversion Hbody as [| ? ? Hb Hrest]; subst.
    cbn [match_items match_item app]. unfold import_char in Hb. rewrite Hb.
    apply star_greedy.
    - exact Hrest.
    - now apply quote_not_import_char.
    - change (b :: body ++ c' :: post) with ((b :: body) ++ c' :: post).
      rewrite consumed_app. cbn [app match_nodes match_item].
      now rewrite (quote_accepted c' Hc'). }
  assert (Hplus :
    match_nodes [Item (Plus Space); Item (One (OneOf [39; 34]));
                 Group [Plus (NoneOf [39; 34])]; Item (One (OneOf [39; 34]))]
      (ws ++ c :: body ++ c' :: post) [] k0
    = Some ([body], post)).
  { destruct ws as [| w ws]; [contradiction |].
    inversion Hspace as [| ? ? Hw Hrest]; subst.
    cbn [app match_nodes match_item]. cbn [accepts]. rewrite Hw.
    apply star_greedy.
    - exact Hrest.
    - now apply quote_not_space.
    - exact Hinner. }
  exact Hplus.
Qed.

Section WithHost.
Context {H : Host}.
Variable this : config.

Lemma rewrite_css_urls_head targetUrl q q' body post :
  opt_quote q -> opt_quote q' -> body <> [] -> Forall url_char body ->
  rewrite_css_urls this (lit "url(" ++ q ++ body ++ q' ++ 41 :: post) targetUrl
  = lit "url('" ++ to_string (rewriteURL this (VStr body) targetUrl) ++ lit "')"
    ++ rewrite_css_urls this post targetUrl.
Proof.
  intros Hq Hq' Hne Hbody.
  pose proof (css_url_match q q' body post Hq Hq' Hne Hbody) as Hm.
  unfold rewrite_css_urls.
  replace (lit "url(" ++ q ++ body ++ q' ++ 41 :: post)
    with ((lit "url(" ++ q ++ body ++ q' ++ [41]) ++ post) in *
    by (now rewrite <- !app_assoc).
  erewrite replace_match_head; [| reflexivity | discriminate | exact Hm].
  cbn [cap1 nth]. now rewrite <- !app_assoc.
Qed.

Lemma rewrite_css_urls_skip targetUrl c s :
  match_at re_css_url (c :: s) = None ->
  rewrite_css_urls this (c :: s) targetUrl = c :: rewrite_css_urls this s targetUrl.
Proof.
  intros Hm. unfold rewrite_css_urls.
  erewrite replace_skip_head; [reflexivity | reflexivity | exact Hm].
Qed.

Lemma rewrite_css_imports_head targetUrl ws c body c' post :
  ws <> [] -> Forall (fun w => is_space w = true) ws ->
  is_quote c -> body <> [] -> Forall import_char body -> is_quote c' ->
  rewrite_css_imports this (lit "@import" ++ ws ++ c :: body ++ c' :: post) targetUrl
  = lit "@import '" ++ to_string (rewriteURL this (VStr body) targetUrl) ++ lit "'"
    ++ rewrite_css_imports this post targetUrl.
Proof.
  intros Hws Hspace Hc Hne Hbody Hc'.
  pose proof (css_import_match ws c body c' post Hws Hspace Hc Hne Hbody Hc') as Hm.
  unfold rewrite_css_imports.
  replace (lit "@import" ++ ws ++ c :: body ++ c' :: post)
    with ((lit "@import" ++ ws ++ c :: body ++ [c']) ++ post) in *
    by (rewrite <- !app_assoc; cbn [app]; now rewrite <- !app_assoc).
  erewrite replace_match_head; [| reflexivity | discriminate | exact Hm].
  cbn [cap1 nth]. now rewrite <- !app_assoc.
Qed.

Lemma rewrite_css_imports_skip targetUrl c s :
  match_at re_css_import (c :: s) = None ->
  rewrite_css_imports this (c :: s) targetUrl = c :: rewrite_css_imports this s targetUrl.
Proof.
  intros Hm. unfold rewrite_css_imports.
  erewrite replace_skip_head; [reflexivity | reflexivity | exact Hm].
Qed.

Lemma rewrite_css_urls_copy targetUrl x rest :
  matches_in re_css_url x rest = false ->
  rewrite_css_urls this (x ++ rest) targetUrl = x ++ rewrite_css_urls this rest targetUrl.
Proof.
  intros Hm. unfold rewrite_css_urls. apply replace_copy; [reflexivity | exact Hm].
Qed.

Lemma rewrite_css_imports_copy targetUrl x rest :
  matches_in re_css_import x rest = false ->
  rewrite_css_imports this (x ++ rest) targetUrl = x ++ rewrite_css_imports this rest targetUrl.
Proof.
  intros Hm. unfold rewrite_css_imports. apply replace_copy; [reflexivity | exact Hm].
Qed.

(** The first [replace] turns each [url(...)] reference of a cut sheet
    into its single-quoted form and copies the rest. *)
Lemma rewrite_css_urls_cut targetUrl ps :
  cut_for_urls ps ->
  rewrite_css_urls this (sheet ps) targetUrl = flat_map (after_urls this targetUrl) ps.
Proof.
  induction ps as [| p tl IH]; [reflexivity |].
  intros [Hp Htl]. specialize (IH Htl). unfold sheet in *. cbn [flat_map].
  destruct p as [t | q body q' | ws c target c'].
  - rewrite rewrite_css_urls_copy by exact Hp. now rewrite IH.
  - destruct Hp as (Hq & Hq' & Hne & Hbody). cbn [source after_urls]. unfold url_out.
    replace ((lit "url(" ++ q ++ body ++ q' ++ [41]) ++ flat_map source tl)
      with (lit "url(" ++ q ++ body ++ q' ++ 41 :: flat_map source tl)
      by (now rewrite <- !app_assoc).
    rewrite rewrite_css_urls_head by assumption. rewrite IH. now rewrite <- !app_assoc.
  - rewrite rewrite_css_urls_copy by exact Hp. now rewrite IH.
Qed.

(** The second [replace] does the same to each [@import]. *)
Lemma rewrite_css_imports_cut targetUrl ps :
  cut_for_imports this targetUrl ps ->
  rewrite_css_imports this (flat_map (after_urls this targetUrl) ps) targetUrl
  = flat_map (rewritten this targetUrl) ps.
Proof.
  induction ps as [| p tl IH]; [reflexivity |].
  intros [Hp Htl]. specialize (IH Htl). cbn [flat_map].
  destruct p as [t | q body q' | ws c target c'].
  - rewrite rewrite_css_imports_copy by exact Hp. now rewrite IH.
  - rewrite rewrite_css_imports_copy by exact Hp. now rewrite IH.
  - destruct Hp as (Hws & Hspace & Hc & Hne & Htarget & Hc').
    cbn [source after_urls rewritten]. unfold import_out.
    replace ((lit "@import" ++ ws ++ c :: target ++ [c'])
             ++ flat_map (after_urls this targetUrl) tl)
      with (lit "@import" ++ ws ++ c :: target
            ++ c' :: flat_map (after_urls this targetUrl) tl)
      by (rewrite <- !app_assoc; cbn [app]; now rewrite <- !app_assoc).
    rewrite rewrite_css_imports_head by assumption. rewrite IH. now rewrite <- !app_assoc.
Qed.

End WithHost.

End RewriterFacts.

Module RewriterClaims.
Import JS Regex Rewriter Sheets URIFacts RegexFacts RewriterFacts ExampleHost.
Local Open Scope N_scope.

Lemma encode_wellformed_bounded n :
  forall s, (List.length s <= n)%nat -> URI.isWellFormed s = true ->
  exists e, URI.encode s = Some e.
Proof.
  induction n as [| n IH]; intros s Hlen Hwf.
  - destruct s; [now exists [] | simpl in Hlen; lia].
  - destruct s as [| c rest]; [now exists [] |].
    cbn [URI.encode URI.isWellFormed] in *. cbn [List.length] in Hlen.
    destruct (URI.unescaped c) eqn:Hun.
    + pose proof (unescaped_ascii c Hun) as Hc.
      replace (URI.is_high_surrogate c) with false in Hwf
        by (symmetry; apply in_range_false; lia).
      apply andb_true_iff in Hwf as [_ Hwf].
      destruct (IH rest ltac:(lia) Hwf) as [e ->]. now eexists.
    + destruct (URI.is_high_surrogate c).
      * destruct rest as [| d rest']; [discriminate |].
        apply andb_true_iff in Hwf as [-> Hwf]. cbn [List.length] in Hlen.
        destruct (IH rest' ltac:(lia) Hwf) as [e ->]. now eexists.
      * apply andb_true_iff in Hwf as [Hlo Hwf].
        apply negb_true_iff in Hlo. rewrite Hlo.
        destruct (IH rest ltac:(lia) Hwf) as [e ->]. now eexists.
Qed.

Lemma encode_wellformed s : URI.isWellFormed s = true -> exists e, URI.encode s = Some e.
Proof. apply (encode_wellformed_bounded (List.length s)). lia. Qed.

Lemma existsb_none {A} (f : A -> bool) l :
  (forall x, In x l -> f x = false) -> existsb f l = false.
Proof.
  induction l as [| a l IH]; intros Hall; [reflexivity |].
  cbn [existsb]. rewrite (Hall a (or_introl eq_refl)), IH; [reflexivity |].
  intros x Hx. apply Hall. now right.
Qed.

Lemma startsWith_app s p : startsWith (p ++ s) p = true.
Proof.
  induction p as [| a p IH]; [now destruct s |].
  cbn [app startsWith]. now rewrite N.eqb_refl, IH.
Qed.

Lemma includes_suffix pre d : includes (pre ++ d) d = true.
Proof.
  induction pre as [| a pre IH].
  - cbn [app]. destruct d as [| c d]; [reflexivity |].
    cbn [includes]. rewrite <- (app_nil_r (c :: d)) at 1.
    now rewrite startsWith_app.
  - cbn [app includes]. rewrite IH. apply orb_true_r.
Qed.

(** A string that starts with [http] takes the last branch of the
    resolution: it is kept as it is. *)
Lemma resolve_http {H : Host} u targetUrl :
  startsWith u (lit "http") = true -> resolve u targetUrl = Normal (Resolved u).
Proof.
  intros Hh. unfold resolve. rewrite Hh.
  destruct u as [| c u]; [discriminate |].
  change (lit "http") with [104; 116; 116; 112] in Hh.
  cbn [startsWith] in Hh. apply andb_true_iff in Hh as [Hc _].
  apply N.eqb_eq in Hc. subst c. reflexivity.
Qed.

(** A string that starts with [/] is appended to the origin of the
    target. *)
Lemma resolve_root_relative {H : Host} u targetUrl base :
  startsWith u (lit "/") = true ->
  URL_parse (to_string targetUrl) = Some base ->
  resolve u targetUrl = Normal (Resolved (protocol base ++ lit "//" ++ host base ++ u)).
Proof.
  intros Hs Hp. unfold resolve, new_URL. now rewrite Hs, Hp.
Qed.

Lemma resolved_nonempty {H : Host} u targetUrl url' :
  resolve u targetUrl = Normal (Resolved url') -> truthy (VStr u) = true.
Proof. destruct u; [discriminate | reflexivity]. Qed.

Section WithHost.
Context {H : Host}.
Variable this : config.

(** C1 (amended): a well-formed string that starts with [http], parses as a
    URL and whose host name contains no blocked domain is rewritten to
    [proxyUrl], [/api/gateway?url=] and [encodeURIComponent(u)]; the
    encoded parameter holds only unescaped characters and [%], and
    [decodeURIComponent] of it gives [u] back. *)
Theorem rewriteURL_gateway (u : str) (targetUrl : value) (r : URL) :
  code_units u ->
  URI.isWellFormed u = true ->
  startsWith u (lit "http") = true ->
  URL_parse u = Some r ->
  (forall d, In d (blockedDomains this) -> includes (hostname r) d = false) ->
  exists e,
    URI.encodeURIComponent u = Normal e /\
    rewriteURL this (VStr u) targetUrl
      = VStr (proxyUrl this ++ lit "/api/gateway?url=" ++ e) /\
    Forall URI.uri_safe e /\
    URI.decodeURIComponent e = Normal u.
Proof.
  intros Hcu Hwf Hhttp Hparse Hfree.
  destruct (encode_wellformed u Hwf) as [e He].
  assert (Henc : URI.encodeURIComponent u = Normal e).
  { unfold URI.encodeURIComponent. now rewrite He. }
  exists e. split; [exact Henc | split; [| split; [now apply (encode_safe u) |]]].
  - unfold rewriteURL.
    rewrite (resolved_nonempty u targetUrl u (resolve_http u targetUrl Hhttp)).
    cbn [negb]. rewrite (resolve_http u targetUrl Hhttp).
    unfold proxied, new_URL. cbn [to_string]. rewrite Hparse. cbn [bind].
    rewrite (existsb_none (fun domain => includes (hostname r) domain) _ Hfree).
    unfold gateway. rewrite Henc. reflexivity.
  - now apply decodeURIComponent_encodeURIComponent with (s := u).
Qed.

(** A string the resolution skips, or on which it throws, is returned as
    it is. *)
Lemma rewriteURL_unresolved (u : str) (targetUrl : value) :
  (forall url', resolve u targetUrl <> Normal (Resolved url')) ->
  rewriteURL this (VStr u) targetUrl = VStr u.
Proof.
  intros Hno. unfold rewriteURL.
  destruct (negb (truthy (VStr u))); [reflexivity |].
  destruct (resolve u targetUrl) as [[url' |] | e]; try reflexivity.
  now destruct (Hno url').
Qed.

(** C5: when the host name of the resolved URL ends with a configured
    blocked domain, [rewriteURL] returns the resolved URL itself, which is
    not its gateway form. *)
Theorem rewriteURL_blocked (u : str) (targetUrl : value) (url' : str) (r : URL) (d : str) :
  resolve u targetUrl = Normal (Resolved url') ->
  URL_parse url' = Some r ->
  In d (blockedDomains this) ->
  (exists pre, hostname r = pre ++ d) ->
  rewriteURL this (VStr u) targetUrl = VStr url' /\
  (forall g, gateway this url' = Normal g -> g <> url').
Proof.
  intros Hres Hparse Hd [pre Hsuffix]. split.
  - unfold rewriteURL. rewrite (resolved_nonempty _ _ _ Hres). cbn [negb].
    rewrite Hres. unfold proxied, new_URL. cbn [to_string]. rewrite Hparse. cbn [bind].
    replace (existsb _ (blockedDomains this)) with true; [reflexivity |].
    symmetry. apply existsb_exists. exists d. split; [assumption |].
    rewrite Hsuffix. apply includes_suffix.
  - intros g Hg Heq. unfold gateway, URI.encodeURIComponent in Hg.
    destruct (URI.encode url') as [e |] eqn:He; [| discriminate].
    cbn [bind] in Hg. injection Hg as <-.
    apply encode_length in He.
    apply (f_equal (@List.length N)) in Heq.
    rewrite length_app in Heq. cbn [List.length] in Heq. lia.
Qed.

(** C6 (amended): in a style sheet made of [url(...)] references (an
    optional quote of either kind, one or more characters that are
    neither quotes nor [)], an optional quote), of [@import]s (white
    space, a quote, one or more characters that are not quotes, a quote)
    and of text, where the first pattern of [rewriteCSS] matches at no
    position outside those references and the second, in what the first
    [replace] returned, at no position outside those [@import]s, every
    such reference is replaced by its rewritten URL in single quotes and
    every such [@import] by [@import] and its rewritten target in single
    quotes, whatever the quotes were, and the text is copied; the example
    of the specification gives a gateway URL under [/api/gateway]. *)
Theorem rewriteCSS_single_quoted (targetUrl : value) (ps : list piece) :
  well_cut this targetUrl ps ->
  rewriteCSS this (VStr (sheet ps)) targetUrl
    = Normal (VStr (flat_map (rewritten this targetUrl) ps)) /\
  rewriteCSS (H := example_host) example_config
             (VStr (lit "body{background:url(/bg.png)}")) (VStr (lit "https://a.com/page"))
    = Normal (VStr (lit
        "body{background:url('http://p/api/gateway?url=https%3A%2F%2Fa.com%2Fbg.png')}")).
Proof.
  intros [Hurls Himports]. split.
  - cbn [rewriteCSS]. unfold rewriteCSS_text.
    rewrite (rewrite_css_urls_cut this targetUrl ps Hurls).
    now rewrite (rewrite_css_imports_cut this targetUrl ps Himports).
  - vm_compute. reflexivity.
Qed.


(** C10: falsy content is returned as it is, whatever [contentType] and
    [options] are. *)
Theorem rewriteContent_falsy_content (content contentType options : value) :
  truthy content = false ->
  rewriteContent this content contentType options = Normal content.
Proof.
  intros Hf. unfold rewriteContent. now rewrite Hf.
Qed.

End WithHost.

Lemma rewriteURL_gateway_witness :
  exists e,
    URI.encodeURIComponent (lit "https://a.com/x") = Normal e /\
    rewriteURL example_config (VStr (lit "https://a.com/x")) VUndefined
      = VStr (proxyUrl example_config ++ lit "/api/gateway?url=" ++ e) /\
    Forall URI.uri_safe e /\
    URI.decodeURIComponent e = Normal (lit "https://a.com/x").
Proof.
  apply (rewriteURL_gateway (H := example_host) example_config (lit "https://a.com/x")
           VUndefined (mkURL (lit "https:") (lit "a.com") (lit "a.com") (lit "https://a.com/x"))).
  - repeat constructor.
  - reflexivity.
  - reflexivity.
  - reflexivity.
  - intros d [].
Defined.

(** C1, as stated, fails: the gateway path of the code is [/api/gateway],
    not [/gateway]. *)
Lemma rewriteURL_gateway_path_counterexample :
  URI.encodeURIComponent (lit "https://a.com/x") = Normal (lit "https%3A%2F%2Fa.com%2Fx") /\
  rewriteURL (H := example_host) example_config (VStr (lit "https://a.com/x")) VUndefined
    = VStr (lit "http://p/api/gateway?url=https%3A%2F%2Fa.com%2Fx") /\
  rewriteURL (H := example_host) example_config (VStr (lit "https://a.com/x")) VUndefined
    <> VStr (proxyUrl example_config ++ lit "/gateway?url="
             ++ lit "https%3A%2F%2Fa.com%2Fx").
Proof.
  split; [vm_compute; reflexivity |].
  split; [vm_compute; reflexivity |].
  vm_compute. discriminate.
Qed.

(** The blocklist test is [hostname.includes(domain)]: a host name that
    holds a blocked domain anywhere, not only at its end, is left
    unproxied. *)
Lemma rewriteURL_blocked_inside_example :
  rewriteURL (H := example_host) blocking_config
             (VStr (lit "https://a.com.example.org/x")) VUndefined
  = VStr (lit "https://a.com.example.org/x").
Proof. vm_compute. reflexivity. Qed.

(** The scheme test is [url.startsWith('http')]: an upper-case scheme is
    left unproxied. *)
Lemma rewriteURL_upper_case_scheme_example :
  rewriteURL (H := example_host) example_config (VStr (lit "HTTPS://a.com/x")) VUndefined
  = VStr (lit "HTTPS://a.com/x").
Proof. vm_compute. reflexivity. Qed.

(** An unpaired surrogate makes [encodeURIComponent] throw: the URL is
    returned as it is, on any host that parses it. *)
Lemma rewriteURL_unpaired_surrogate {H : Host} (this : config) (u : str) (targetUrl : value) :
  startsWith u (lit "http") = true ->
  URI.encodeURIComponent u = Throw URIError ->
  rewriteURL this (VStr u) targetUrl = VStr u.
Proof.
  intros Hhttp Henc. unfold rewriteURL.
  rewrite (resolved_nonempty u targetUrl u (resolve_http u targetUrl Hhttp)).
  cbn [negb]. rewrite (resolve_http u targetUrl Hhttp).
  unfold proxied, gateway. rewrite Henc.
  destruct (new_URL (VStr u)) as [urlObj | e]; cbn [bind]; [| reflexivity].
  now destruct (existsb _ _).
Qed.

Lemma rewriteURL_blocked_witness :
  rewriteURL (H := example_host) blocking_config (VStr (lit "/x")) (VStr (lit "https://cdn.a.com/page"))
    = VStr (lit "https://cdn.a.com/x") /\
  (forall g, gateway blocking_config (lit "https://cdn.a.com/x") = Normal g ->
             g <> lit "https://cdn.a.com/x").
Proof.
  apply (rewriteURL_blocked (H := example_host) blocking_config (lit "/x")
           (VStr (lit "https://cdn.a.com/page")) (lit "https://cdn.a.com/x")
           (mkURL (lit "https:") (lit "cdn.a.com") (lit "cdn.a.com") (lit "https://cdn.a.com/x"))
           (lit "a.com")).
  - reflexivity.
  - reflexivity.
  - simpl. now left.
  - exists (lit "cdn."). reflexivity.
Defined.

Lemma rewriteCSS_single_quoted_witness :
  rewriteCSS (H := example_host) example_config (VStr (sheet example_pieces))
             (VStr (lit "https://a.com/page"))
    = Normal (VStr (flat_map (rewritten (H := example_host) example_config
                                        (VStr (lit "https://a.com/page")))
                             example_pieces)) /\
  rewriteCSS (H := example_host) example_config
             (VStr (lit "body{background:url(/bg.png)}")) (VStr (lit "https://a.com/page"))
    = Normal (VStr (lit
        "body{background:url('http://p/api/gateway?url=https%3A%2F%2Fa.com%2Fbg.png')}")).
Proof.
  apply (rewriteCSS_single_quoted (H := example_host) example_config
           (VStr (lit "https://a.com/page")) example_pieces).
  split; cbn [example_pieces cut_for_urls cut_for_imports].
  - repeat split; try (vm_compute; reflexivity); try (now left); try discriminate.
    repeat constructor.
  - repeat split; try (vm_compute; reflexivity); try (now right); try discriminate;
      repeat constructor.
Defined.

(** The example sheet and what it becomes: the first [@import]
    and the unquoted reference come out in single quotes; the [@import]
    without white space and the reference with blanks inside the
    parentheses stay. *)
Lemma rewriteCSS_example_pieces :
  sheet example_pieces
  = lit "@import " ++ [34] ++ lit "/a.css" ++ [34]
    ++ lit ";@import" ++ [34] ++ lit "/b.css" ++ [34]
    ++ lit ";body{background:url(/bg.png)}a{b:url( "
    ++ [34] ++ lit "/x.png" ++ [34] ++ lit " )}" /\
  rewriteCSS (H := example_host) example_config (VStr (sheet example_pieces))
             (VStr (lit "https://a.com/page"))
  = Normal (VStr (
      lit "@import 'http://p/api/gateway?url=https%3A%2F%2Fa.com%2Fa.css'"
      ++ lit ";@import" ++ [34] ++ lit "/b.css" ++ [34]
      ++ lit ";body{background:url('http://p/api/gateway?url=https%3A%2F%2Fa.com%2Fbg.png')}"
      ++ lit "a{b:url( " ++ [34] ++ lit "/x.png" ++ [34] ++ lit " )}")).
Proof. split; vm_compute; reflexivity. Qed.

(** C6, as stated, fails: the example of the specification gives another
    string than the one it states, and a double-quoted reference comes out
    in single quotes. *)
Lemma rewriteCSS_quoting_counterexample :
  rewriteCSS (H := example_host) example_config
             (VStr (lit "body{background:url(/bg.png)}")) (VStr (lit "https://a.com/page"))
    <> Normal (VStr (lit
         "body{background:url('http://p/gateway?url=https%3A%2F%2Fa.com%2Fbg.png')}")) /\
  rewriteCSS (H := example_host) example_config
             (VStr (lit "a{b:url(" ++ [34] ++ lit "/x" ++ [34] ++ lit ")}"))
             (VStr (lit "https://a.com/page"))
    = Normal (VStr (lit "a{b:url('http://p/api/gateway?url=https%3A%2F%2Fa.com%2Fx')}")).
Proof.
  split; [vm_compute; discriminate | vm_compute; reflexivity].
Qed.



Lemma rewriteContent_falsy_content_witness :
  rewriteContent (H := example_host) example_config (VStr []) VNull VNull = Normal (VStr []).
Proof.
  apply (rewriteContent_falsy_content (H := example_host) example_config (VStr []) VNull VNull).
  reflexivity.
Defined.

End RewriterClaims.

(** ** Maps *)

Module MapFacts.
Import JS.

Lemma str_eqb_eq a b : str_eqb a b = true <-> a = b.
Proof.
  unfold str_eqb. destruct (list_eq_dec N.eq_dec a b); split; congruence.
Qed.

Lemma str_eqb_refl a : str_eqb a a = true.
Proof. now apply str_eqb_eq. Qed.

Lemma str_eqb_neq a b : str_eqb a b = false <-> a <> b.
Proof.
  unfold str_eqb. destruct (list_eq_dec N.eq_dec a b); split; congruence.
Qed.

Section Lookup.
Context {V : Type}.
Implicit Types (m : Map.t V) (k : str) (v : V).

Lemma get_set_same m k v : Map.get (Map.set m k v) k = Some v.
Proof.
  induction m as [| [k' v'] m IH]; cbn [Map.set Map.get].
  - now rewrite str_eqb_refl.
  - destruct (str_eqb k' k) eqn:Hk; cbn [Map.get]; now rewrite Hk.
Qed.

Lemma get_set_other m k k0 v : k <> k0 -> Map.get (Map.set m k v) k0 = Map.get m k0.
Proof.
  intros Hne. induction m as [| [k' v'] m IH]; cbn [Map.set Map.get].
  - now replace (str_eqb k k0) with false by (symmetry; now apply str_eqb_neq).
  - destruct (str_eqb k' k) eqn:Hk; cbn [Map.get].
    + apply str_eqb_eq in Hk. subst k'.
      now replace (str_eqb k k0) with false by (symmetry; now apply str_eqb_neq).
    + now rewrite IH.
Qed.
(** The operations keep the keys unique. *)
Lemma wf_empty : Map.wf (@Map.empty V).
Proof. apply NoDup_nil. Qed.

Lemma keys_set m k v k0 :
  In k0 (Map.keys (Map.set m k v)) -> k0 = k \/ In k0 (Map.keys m).
Proof.
  induction m as [| [k' v'] m IH]; cbn [Map.set Map.keys map fst].
  - intros [<- | []]. now left.
  - destruct (str_eqb k' k); cbn [map fst].
    + intros Hin. now right.
    + intros [<- | Hin]; [right; now left |].
      destruct (IH Hin) as [-> | Hm]; [now left | right; now right].
Qed.

Lemma wf_set m k v : Map.wf m -> Map.wf (Map.set m k v).
Proof.
  unfold Map.wf. induction m as [| [k' v'] m IH]; intros Hwf.
  - cbn. constructor; [intros [] | constructor].
  - cbn [Map.keys map fst] in Hwf. inversion Hwf as [| ? ? Hnin Hnd]; subst.
    cbn [Map.set]. destruct (str_eqb k' k) eqn:Hk.
    + cbn [Map.keys map fst]. now constructor.
    + cbn [Map.keys map fst]. constructor; [| now apply IH].
      intros Hin. apply keys_set in Hin as [-> | Hin]; [| now apply Hnin].
      now rewrite str_eqb_refl in Hk.
Qed.

Lemma wf_filter (f : str * V -> bool) m : Map.wf m -> Map.wf (filter f m).
Proof.
  unfold Map.wf, Map.keys. induction m as [| e m IH]; intros Hwf; [exact Hwf |].
  cbn [map] in Hwf. inversion Hwf as [| ? ? Hnin Hnd]; subst.
  cbn [filter]. destruct (f e); [| now apply IH].
  cbn [map]. constructor; [| now apply IH].
  intros Hin. apply Hnin. apply in_map_iff in Hin as (e' & He' & Hin).
  apply filter_In in Hin as [Hin _]. apply in_map_iff. now exists e'.
Qed.

Lemma wf_delete m k : Map.wf m -> Map.wf (Map.delete m k).
Proof. apply wf_filter. Qed.

Lemma wf_of_entries (l : list (str * V)) : Map.wf (Map.of_entries l).
Proof.
  unfold Map.of_entries. generalize (wf_empty). generalize (@Map.empty V).
  induction l as [| [k v] l IH]; intros acc Hacc; [exact Hacc |].
  cbn [fold_left fst snd]. apply IH. now apply wf_set.
Qed.
End Lookup.

End MapFacts.

(** ** The middleware pipeline and the rate limiter *)

Module MiddlewareFacts.
Import JS Middleware MapFacts.
Local Open Scope string_scope.
Local Open Scope list_scope.
Local Open Scope Z_scope.

Section Pipeline.
Variable world : Type.
Implicit Types (hs : list (handler world)) (ctx : context) (w : world).

(** The error phase does not escalate. *)
Lemma run_error_phase escalate hs : forall ctx w,
  run escalate "error" hs ctx w =
  Some (let '(c, w', failure) := settle hs ctx w in
        mkOutcome c w' []
          (match failure with None => Normal tt | Some e => Throw e end)).
Proof.
  induction hs as [| h hs IH]; intros ctx w; cbn [run settle]; [reflexivity |].
  destruct (h ctx w) as [[c w'] [[] | e]]; [apply IH | reflexivity].
Qed.

(** What [execute] does on a request or response phase: the handlers run
    up to the first failure; the error phase is then run once, on the
    context with the failure attached, and the call throws the failure of
    the error phase when it has one, the first failure otherwise. *)
Lemma execute_escalates_once (m : middlewares world) type hs ctx w n :
  chain m type = Some hs -> type <> "error" ->
  execute (S (S n)) m type ctx w =
  Some (match settle hs ctx w with
        | (c, w', None) => mkOutcome c w' [] (Normal tt)
        | (c, w', Some e) =>
          let '(_, w2, failure) := settle (error m) (with_error c e) w' in
          mkOutcome c w2 [("error", with_error c e)]
            (match failure with None => Throw e | Some later => Throw later end)
        end).
Proof.
  intros Hchain Htype. cbn [execute]. rewrite Hchain. clear Hchain.
  assert (Hneq : negb (String.eqb type "error") = true).
  { apply negb_true_iff. now apply String.eqb_neq. }
  revert ctx w. induction hs as [| h hs IH]; intros ctx w; cbn [run settle]; [reflexivity |].
  destruct (h ctx w) as [[c w'] [[] | e]]; [apply IH |].
  rewrite Hneq.
  change (chain m "error") with (Some (error m)). cbv beta iota.
  rewrite run_error_phase.
  destruct (settle (error m) (with_error c e) w') as [[c2 w2] [later |]]; reflexivity.
Qed.
End Pipeline.

(** *** The rate limiter *)

Lemma prune_suffix windowStart l : exists dropped, l = dropped ++ prune windowStart l.
Proof.
  induction l as [| t0 l [dropped IH]]; [now exists [] |].
  cbn [prune]. destruct (t0 <? windowStart).
  - exists (t0 :: dropped). cbn [app]. now f_equal.
  - now exists [].
Qed.

Lemma prune_length windowStart l : (List.length (prune windowStart l) <= List.length l)%nat.
Proof.
  destruct (prune_suffix windowStart l) as [dropped Hd].
  rewrite Hd at 2. rewrite length_app. lia.
Qed.

Lemma prune_fresh windowStart l :
  Forall (fun t => windowStart <= t) l -> prune windowStart l = l.
Proof.
  destruct 1 as [| t0 l Ht _]; [reflexivity |].
  cbn [prune]. now replace (t0 <? windowStart) with false by (symmetry; apply Z.ltb_ge; lia).
Qed.

Lemma history_registered requests ip :
  history (if negb (Map.has requests ip) then Map.set requests ip [] else requests) ip
  = history requests ip.
Proof.
  unfold Map.has, history. destruct (Map.get requests ip) eqn:Hg; cbn [negb].
  - now rewrite Hg.
  - now rewrite get_set_same.
Qed.

(** One call, seen from the caller's address: the pruned history is kept
    and the call throws, or the arrival time is appended to it. *)
Lemma rateLimiter_history o r now requests :
  let pruned := prune (now - windowMs o) (history requests (clientIP r)) in
  let '(requests', c) := rateLimiter o (Some r) now requests in
  if Z.of_nat (List.length pruned) >=? maxRequests o
  then Map.get requests' (clientIP r) = Some pruned /\ c = Throw rate_limit_error
  else Map.get requests' (clientIP r) = Some (pruned ++ [now]) /\ c = Normal tt.
Proof.
  cbn zeta. unfold rateLimiter.
  fold (history (if negb (Map.has requests (clientIP r))
                 then Map.set requests (clientIP r) [] else requests) (clientIP r)).
  rewrite history_registered.
  destruct (Z.of_nat _ >=? maxRequests o); now rewrite get_set_same.
Qed.

Lemma rateLimiter_others o r now requests k :
  k <> clientIP r ->
  Map.get (fst (rateLimiter o (Some r) now requests)) k = Map.get requests k.
Proof.
  intros Hk. unfold rateLimiter.
  assert (Hreg : Map.get (if negb (Map.has requests (clientIP r))
                          then Map.set requests (clientIP r) [] else requests) k
                 = Map.get requests k).
  { destruct (negb _); [now rewrite get_set_other by congruence | reflexivity]. }
  destruct (Z.of_nat _ >=? maxRequests o); cbn [fst];
    now rewrite get_set_other by congruence.
Qed.

Lemma rateLimiter_keeps_bound o request now requests :
  0 <= maxRequests o -> bounded o requests ->
  bounded o (fst (rateLimiter o request now requests)).
Proof.
  intros Hmax Hb. destruct request as [r |]; [| exact Hb].
  assert (Hold : Z.of_nat (List.length (history requests (clientIP r))) <= maxRequests o).
  { unfold history. destruct (Map.get requests (clientIP r)) eqn:Hg; [now apply (Hb _ _ Hg) |].
    simpl. lia. }
  pose proof (prune_length (now - windowMs o) (history requests (clientIP r))) as Hpr.
  intros k l Hk.
  destruct (list_eq_dec N.eq_dec k (clientIP r)) as [-> | Hne].
  - pose proof (rateLimiter_history o r now requests) as Hh. cbn zeta in Hh.
    destruct (rateLimiter o (Some r) now requests) as [requests' c]. cbn [fst] in Hk.
    destruct (Z.of_nat _ >=? maxRequests o) eqn:Hfull; destruct Hh as [Hget _];
      rewrite Hget in Hk; injection Hk as <-.
    + lia.
    + rewrite Z.geb_leb in Hfull. apply Z.leb_gt in Hfull.
      rewrite length_app. simpl. lia.
  - rewrite rateLimiter_others in Hk by assumption. now apply (Hb _ _ Hk).
Qed.

Lemma serve_keeps_bound o arrivals : forall requests,
  0 <= maxRequests o -> bounded o requests -> bounded o (fst (serve o arrivals requests)).
Proof.
  induction arrivals as [| [r now] arrivals IH]; intros requests Hmax Hb; [exact Hb |].
  cbn [serve].
  pose proof (rateLimiter_keeps_bound o (Some r) now requests Hmax Hb) as Hstep.
  destruct (rateLimiter o (Some r) now requests) as [requests' c]. cbn [fst] in Hstep.
  specialize (IH requests' Hmax Hstep).
  destruct (serve o arrivals requests') as [final cs]. exact IH.
Qed.

End MiddlewareFacts.

Module MiddlewareClaims.
Import JS Middleware MapFacts MiddlewareFacts.
Local Open Scope string_scope.
Local Open Scope list_scope.
Local Open Scope Z_scope.

(** C4, at the failing input: one request handler that throws [first] and
    one error handler that throws [second].  The error phase is called
    once, with the failure attached to the context, but the call of
    [execute] throws [second], not [first]. *)
Theorem execute_later_failure_wins :
  execute 2 (mkMiddlewares [failing first_failure] [] [failing second_failure])
          "request" [] tt
  = Some (mkOutcome [] tt [("error", [("error", Failure first_failure)])]
                    (Throw second_failure)).
Proof. reflexivity. Qed.

(** C7: with [windowMs = 1000] and [maxRequests = 2], of three requests
    from one address within 1000 ms the first two pass and the third throws
    the rate-limit error, whose status code is 429. *)
Theorem rateLimiter_third_request
        (requests : Map.t (list Z)) (r1 r2 r3 : request_info) (t1 t2 t3 : Z) :
  clientIP r2 = clientIP r1 -> clientIP r3 = clientIP r1 ->
  Map.has requests (clientIP r1) = false ->
  t1 <= t2 <= t3 -> t3 - t1 <= 1000 ->
  snd (serve (mkLimits 1000 2) [(r1, t1); (r2, t2); (r3, t3)] requests)
  = [Normal tt; Normal tt; Throw (Error "Rate limit exceeded" (Some 429))].
Proof.
  intros H2 H3 Hnew Horder Hwindow.
  set (o := mkLimits 1000 2).
  assert (Hh0 : history requests (clientIP r1) = []).
  { unfold history. unfold Map.has in Hnew.
    now destruct (Map.get requests (clientIP r1)). }
  cbn [serve].
  pose proof (rateLimiter_history o r1 t1 requests) as S1. cbn zeta in S1.
  destruct (rateLimiter o (Some r1) t1 requests) as [m1 c1].
  rewrite Hh0 in S1. cbn in S1. destruct S1 as [G1 ->].
  pose proof (rateLimiter_history o r2 t2 m1) as S2. cbn zeta in S2.
  destruct (rateLimiter o (Some r2) t2 m1) as [m2 c2].
  unfold history in S2. rewrite H2, G1 in S2.
  rewrite prune_fresh in S2 by (repeat constructor; cbn; lia).
  cbn in S2. destruct S2 as [G2 ->].
  pose proof (rateLimiter_history o r3 t3 m2) as S3. cbn zeta in S3.
  destruct (rateLimiter o (Some r3) t3 m2) as [m3 c3].
  unfold history in S3. rewrite H3, G2 in S3.
  rewrite prune_fresh in S3 by (repeat constructor; cbn; lia).
  cbn in S3. destruct S3 as [G3 ->].
  reflexivity.
Qed.

(** C9: with a non-negative [maxRequests], no address ever has more than
    [maxRequests] timestamps recorded; a call that throws leaves the
    caller's pruned list, a suffix of the list it found, and does not
    record its own arrival. *)
Theorem rateLimiter_bounded (o : limits) :
  0 <= maxRequests o ->
  (forall arrivals, bounded o (fst (serve o arrivals Map.empty))) /\
  (forall requests request now,
     bounded o requests -> bounded o (fst (rateLimiter o request now requests))) /\
  (forall requests r now e,
     snd (rateLimiter o (Some r) now requests) = Throw e ->
     e = rate_limit_error /\
     Map.get (fst (rateLimiter o (Some r) now requests)) (clientIP r)
       = Some (prune (now - windowMs o) (history requests (clientIP r))) /\
     exists dropped,
       history requests (clientIP r)
       = dropped ++ prune (now - windowMs o) (history requests (clientIP r))).
Proof.
  intros Hmax. repeat split.
  - intros arrivals. apply serve_keeps_bound; [assumption |].
    intros k l Hk. discriminate.
  - intros requests request now Hb. now apply rateLimiter_keeps_bound.
  - pose proof (rateLimiter_history o r now requests) as Hh. cbn zeta in Hh.
    destruct (rateLimiter o (Some r) now requests) as [requests' c]. cbn [snd] in *.
    destruct (Z.of_nat _ >=? maxRequests o); destruct Hh as [_ ->]; congruence.
  - pose proof (rateLimiter_history o r now requests) as Hh. cbn zeta in Hh.
    destruct (rateLimiter o (Some r) now requests) as [requests' c]. cbn [fst snd] in *.
    destruct (Z.of_nat _ >=? maxRequests o); destruct Hh as [Hg ->];
      [exact Hg | discriminate].
  - apply prune_suffix.
Qed.

Lemma rateLimiter_third_request_witness :
  snd (serve (mkLimits 1000 2)
         [(mkRequest (Some (Some (lit "10.0.0.1"))) None, 0);
          (mkRequest (Some (Some (lit "10.0.0.1"))) None, 400);
          (mkRequest (Some (Some (lit "10.0.0.1"))) None, 1000)] Map.empty)
  = [Normal tt; Normal tt; Throw (Error "Rate limit exceeded" (Some 429))].
Proof.
  apply (rateLimiter_third_request Map.empty
           (mkRequest (Some (Some (lit "10.0.0.1"))) None)
           (mkRequest (Some (Some (lit "10.0.0.1"))) None)
           (mkRequest (Some (Some (lit "10.0.0.1"))) None) 0 400 1000).
  - reflexivity.
  - reflexivity.
  - reflexivity.
  - lia.
  - lia.
Defined.

Lemma rateLimiter_bounded_witness :
  bounded (mkLimits 1000 2)
    (fst (serve (mkLimits 1000 2)
            [(mkRequest (Some (Some (lit "10.0.0.1"))) None, 0);
             (mkRequest (Some (Some (lit "10.0.0.1"))) None, 1);
             (mkRequest (Some (Some (lit "10.0.0.1"))) None, 2)] Map.empty)).
Proof.
  apply (rateLimiter_bounded (mkLimits 1000 2)).
  cbn. lia.
Defined.

End MiddlewareClaims.

(** ** The session store *)

Module SessionFacts.
Import JS Sessions MapFacts.
Local Open Scope Z_scope.

Implicit Types (s : Map.t session) (e : str * session) (ks : list str).

Lemma delete_all_filter ks : forall s,
  delete_all ks s = filter (fun kv => negb (existsb (str_eqb (fst kv)) ks)) s.
Proof.
  induction ks as [| k ks IH]; intros s; cbn [delete_all fold_left existsb].
  - induction s as [| e s IHs]; [reflexivity |]. cbn [filter negb]. now f_equal.
  - fold (delete_all ks (Map.delete s k)). rewrite IH. unfold Map.delete.
    induction s as [| e s IHs]; [reflexivity |].
    cbn [filter]. destruct (str_eqb (fst e) k); cbn [negb orb filter]; [exact IHs |].
    destruct (negb (existsb (str_eqb (fst e)) ks)); [now f_equal | exact IHs].
Qed.

Lemma existsb_keys k (l : list (str * session)) :
  existsb (str_eqb k) (Map.keys l) = true <-> exists v, In (k, v) l.
Proof.
  unfold Map.keys. rewrite existsb_exists. split.
  - intros (k' & Hin & Heq). apply str_eqb_eq in Heq. subst k'.
    apply in_map_iff in Hin as ([k'' v] & Hk & Hin). cbn [fst] in Hk. subst k''. now exists v.
  - intros (v & Hin). exists k. split; [| apply str_eqb_refl].
    apply in_map_iff. now exists (k, v).
Qed.

(** In a map, a key has one value. *)
Lemma wf_functional s k v v' : Map.wf s -> In (k, v) s -> In (k, v') s -> v = v'.
Proof.
  unfold Map.wf, Map.keys. induction s as [| [k0 v0] s IH]; intros Hwf H1 H2; [contradiction |].
  cbn [map fst] in Hwf. inversion Hwf as [| ? ? Hnin Hnd]; subst.
  destruct H1 as [H1 | H1], H2 as [H2 | H2].
  - congruence.
  - injection H1 as -> ->. exfalso. apply Hnin. apply in_map_iff. now exists (k, v').
  - injection H2 as -> ->. exfalso. apply Hnin. apply in_map_iff. now exists (k, v).
  - now apply IH.
Qed.

(** The first phase keeps exactly the sessions that are not stale. *)
Lemma first_phase m now :
  Map.wf (sessions m) ->
  delete_all (toDelete m now) (sessions m) = unexpired m now.
Proof.
  intros Hwf. rewrite delete_all_filter. unfold unexpired.
  apply filter_ext_in. intros [k v] Hin. cbn [fst snd]. f_equal.
  unfold toDelete.
  destruct (stale m now v) eqn:Hst.
  - apply existsb_keys. exists v. apply filter_In. now split.
  - destruct (existsb _ _) eqn:Hex; [| reflexivity].
    apply existsb_keys in Hex as (v' & Hin'). apply filter_In in Hin' as [Hin' Hst'].
    cbn [snd] in Hst'. rewrite (wf_functional _ _ _ _ Hwf Hin Hin') in Hst. congruence.
Qed.

(** *** The sort *)

Lemma insert_entry_perm e l : Permutation.Permutation (insert_entry e l) (e :: l).
Proof.
  induction l as [| e' l IH]; cbn [insert_entry]; [reflexivity |].
  destruct (lastAccessed (snd e) <=? lastAccessed (snd e')); [reflexivity |].
  rewrite IH. apply Permutation.perm_swap.
Qed.

Lemma sort_entries_perm l : Permutation.Permutation (sort_entries l) l.
Proof.
  induction l as [| e l IH]; cbn [sort_entries fold_right]; [reflexivity |].
  fold (sort_entries l). rewrite insert_entry_perm. now constructor.
Qed.

Lemma insert_entry_sorted e l :
  Sorted.StronglySorted older l -> Sorted.StronglySorted older (insert_entry e l).
Proof.
  induction 1 as [| e' l Hs IH Hall]; cbn [insert_entry].
  - repeat constructor.
  - destruct (lastAccessed (snd e) <=? lastAccessed (snd e')) eqn:Hle.
    + apply Z.leb_le in Hle. constructor; [now constructor |].
      constructor; [exact Hle |].
      eapply Forall_impl; [| exact Hall]. unfold older. intros; lia.
    + apply Z.leb_gt in Hle. constructor; [exact IH |].
      eapply Permutation.Permutation_Forall; [symmetry; apply insert_entry_perm |].
      constructor; [unfold older; lia | exact Hall].
Qed.

Lemma sort_entries_sorted l : Sorted.StronglySorted older (sort_entries l).
Proof.
  induction l as [| e l IH]; cbn [sort_entries fold_right]; [constructor |].
  now apply insert_entry_sorted.
Qed.

Lemma in_firstn {A} n (l : list A) x : In x (firstn n l) -> In x l.
Proof.
  intros Hin. rewrite <- (firstn_skipn n l). apply in_or_app. now left.
Qed.

Lemma in_skipn {A} n (l : list A) x : In x (skipn n l) -> In x l.
Proof.
  intros Hin. rewrite <- (firstn_skipn n l). apply in_or_app. now right.
Qed.

Lemma sorted_split (l : list (str * session)) n a b :
  Sorted.StronglySorted older l -> In a (firstn n l) -> In b (skipn n l) -> older a b.
Proof.
  intros Hs. revert n. induction Hs as [| e l Hs IH Hall]; intros n Ha Hb.
  - now rewrite firstn_nil in Ha.
  - destruct n as [| n]; [contradiction |].
    cbn [firstn skipn] in Ha, Hb. destruct Ha as [<- | Ha].
    + rewrite Forall_forall in Hall. apply Hall. eapply in_skipn; eassumption.
    + now apply (IH n).
Qed.

(** *** The second phase *)

Lemma skipn_nth {A} i : forall (l : list A) x,
  nth_error l i = Some x -> skipn i l = x :: skipn (S i) l.
Proof.
  induction i as [| i IH]; intros [| a l] x Hn; try discriminate.
  - now injection Hn as ->.
  - cbn [skipn]. now apply IH.
Qed.

Lemma evict_spec sortedSessions count : forall i s,
  (i + count <= List.length sortedSessions)%nat ->
  evict sortedSessions i count s
  = (delete_all (Map.keys (firstn count (skipn i sortedSessions))) s, Normal tt).
Proof.
  induction count as [| count IH]; intros i s Hlen; cbn [evict]; [reflexivity |].
  destruct (nth_error sortedSessions i) as [e |] eqn:Hnth.
  - rewrite IH by lia.
    pose proof (skipn_nth _ _ _ Hnth) as Hskip.
    rewrite Hskip. reflexivity.
  - apply nth_error_None in Hnth. lia.
Qed.

Lemma filter_perm {A} (f : A -> bool) l l' :
  Permutation l l' -> Permutation (filter f l) (filter f l').
Proof.
  induction 1 as [| x l l' _ IH | x y l | l l' l'' _ IH1 _ IH2]; cbn [filter].
  - constructor.
  - destruct (f x); [now constructor | exact IH].
  - destruct (f x), (f y); try reflexivity. apply perm_swap.
  - now transitivity (filter f l').
Qed.

Lemma filter_none {A} (f : A -> bool) l : (forall x, In x l -> f x = false) -> filter f l = [].
Proof.
  induction l as [| a l IH]; intros Hall; [reflexivity |].
  cbn [filter]. rewrite (Hall a (or_introl eq_refl)). apply IH.
  intros x Hx. apply Hall. now right.
Qed.

Lemma filter_all {A} (f : A -> bool) l : (forall x, In x l -> f x = true) -> filter f l = l.
Proof.
  induction l as [| a l IH]; intros Hall; [reflexivity |].
  cbn [filter]. rewrite (Hall a (or_introl eq_refl)). f_equal. apply IH.
  intros x Hx. apply Hall. now right.
Qed.

Lemma nodup_app_disjoint {A} (l1 l2 : list A) :
  NoDup (l1 ++ l2) -> forall a, In a l1 -> ~ In a l2.
Proof.
  induction l1 as [| x l1 IH]; intros Hnd a Hin Hin2; [contradiction |].
  cbn [app] in Hnd. inversion Hnd as [| ? ? Hnin Hnd']; subst.
  destruct Hin as [-> | Hin].
  - apply Hnin. apply in_or_app. now right.
  - exact (IH Hnd' a Hin Hin2).
Qed.

Section SecondPhase.
Variable s1 : Map.t session.
Variable n : nat.
Hypothesis s1_wf : Map.wf s1.

Lemma sorted_wf : Map.wf (sort_entries s1).
Proof.
  unfold Map.wf, Map.keys. eapply Permutation_NoDup; [| exact s1_wf].
  apply Permutation_map. symmetry. apply sort_entries_perm.
Qed.

Lemma evicted_dropped e : In e (firstn n (sort_entries s1)) -> survives s1 n e = false.
Proof.
  intros Hin. unfold survives, evicted_keys, Map.entries. apply negb_false_iff.
  destruct e as [k v]. apply existsb_keys. now exists v.
Qed.

Lemma others_kept e : In e (skipn n (sort_entries s1)) -> survives s1 n e = true.
Proof.
  intros Hin. unfold survives, evicted_keys, Map.entries. apply negb_true_iff.
  destruct e as [k v]. cbn [fst].
  destruct (existsb _ _) eqn:Hex; [| reflexivity]. exfalso.
  apply existsb_keys in Hex as (v' & Hin').
  pose proof sorted_wf as Hwf. unfold Map.wf, Map.keys in Hwf.
  rewrite <- (firstn_skipn n (sort_entries s1)), map_app in Hwf.
  apply (nodup_app_disjoint _ _ Hwf k).
  - apply in_map_iff. now exists (k, v').
  - apply in_map_iff. now exists (k, v).
Qed.

Lemma kept_sorted : filter (survives s1 n) (sort_entries s1) = skipn n (sort_entries s1).
Proof.
  rewrite <- (firstn_skipn n (sort_entries s1)) at 1. rewrite filter_app.
  rewrite (filter_none _ _ evicted_dropped), (filter_all _ _ others_kept).
  reflexivity.
Qed.

Lemma kept_perm : Permutation (filter (survives s1 n) s1) (skipn n (sort_entries s1)).
Proof.
  rewrite <- kept_sorted. apply filter_perm. symmetry. apply sort_entries_perm.
Qed.

Lemma kept_length : List.length (filter (survives s1 n) s1) = (List.length s1 - n)%nat.
Proof.
  rewrite (Permutation_length kept_perm), length_skipn.
  now rewrite (Permutation_length (sort_entries_perm s1)).
Qed.

(** What goes is not accessed later than what stays. *)
Lemma kept_most_recent a b :
  In a s1 -> ~ In a (filter (survives s1 n) s1) -> In b (filter (survives s1 n) s1) ->
  older a b.
Proof.
  intros Ha Hgone Hb.
  assert (Hb' : In b (skipn n (sort_entries s1))).
  { eapply Permutation_in; [apply kept_perm | exact Hb]. }
  assert (Ha' : In a (firstn n (sort_entries s1))).
  { assert (Hs : In a (sort_entries s1)).
    { eapply Permutation_in; [symmetry; apply sort_entries_perm | exact Ha]. }
    rewrite <- (firstn_skipn n (sort_entries s1)) in Hs.
    apply in_app_or in Hs as [Hs | Hs]; [exact Hs |].
    exfalso. apply Hgone. apply filter_In. split; [exact Ha | now apply others_kept]. }
  exact (sorted_split (sort_entries s1) n a b (sort_entries_sorted _) Ha' Hb').
Qed.
End SecondPhase.

(** [cleanupOldSessions] in one equation. *)
Lemma cleanupOldSessions_eq m now :
  Map.wf (sessions m) -> 0 <= maxSessions m ->
  cleanupOldSessions m now =
  (with_sessions m
     (if Map.size (unexpired m now) >? maxSessions m then
        filter (survives (unexpired m now)
                         (Z.to_nat (Map.size (unexpired m now) - maxSessions m)))
               (unexpired m now)
      else unexpired m now),
   Normal tt).
Proof.
  intros Hwf Hmax. unfold cleanupOldSessions. rewrite first_phase by assumption.
  destruct (Map.size (unexpired m now) >? maxSessions m) eqn:Hbig; [| reflexivity].
  unfold Map.entries. rewrite evict_spec.
  - rewrite skipn_0, delete_all_filter. reflexivity.
  - rewrite (Permutation_length (sort_entries_perm _)). unfold Map.size. lia.
Qed.

(** *** The store stays a map, and what is created or imported has the
    shape that export and import keep *)

Lemma delete_all_wf ks : forall s, Map.wf s -> Map.wf (delete_all ks s).
Proof.
  intros s Hwf. rewrite delete_all_filter. now apply wf_filter.
Qed.

Lemma evict_wf sortedSessions count : forall i s,
  Map.wf s -> Map.wf (fst (evict sortedSessions i count s)).
Proof.
  induction count as [| count IH]; intros i s Hwf; cbn [evict]; [exact Hwf |].
  destruct (nth_error sortedSessions i); [| exact Hwf].
  apply IH. now apply wf_delete.
Qed.

Lemma cleanupOldSessions_wf m now :
  Map.wf (sessions m) -> Map.wf (sessions (fst (cleanupOldSessions m now))).
Proof.
  intros Hwf. unfold cleanupOldSessions.
  pose proof (delete_all_wf (toDelete m now) _ Hwf) as Hwf1.
  destruct (Map.size _ >? maxSessions m); [| exact Hwf1].
  pose proof (evict_wf (sort_entries (Map.entries (delete_all (toDelete m now) (sessions m))))
                (Z.to_nat (Map.size (delete_all (toDelete m now) (sessions m)) - maxSessions m))
                0 _ Hwf1) as Hwf2.
  now destruct (evict _ _ _ _).
Qed.

Lemma createSession_wf m now random o :
  Map.wf (sessions m) -> Map.wf (sessions (fst (createSession m now random o))).
Proof.
  intros Hwf. unfold createSession.
  pose proof (cleanupOldSessions_wf
                (with_sessions m (Map.set (sessions m) (generateSessionId random)
                                          (new_session (generateSessionId random) now o)))
                now (wf_set _ _ _ Hwf)) as Hc.
  now destruct (cleanupOldSessions _ _).
Qed.

Lemma getSession_wf m now sessionId :
  Map.wf (sessions m) -> Map.wf (sessions (fst (getSession m now sessionId))).
Proof.
  intros Hwf. unfold getSession.
  destruct (Map.get (sessions m) sessionId); [now apply wf_set | exact Hwf].
Qed.

Lemma updateSession_wf m now sessionId u :
  Map.wf (sessions m) -> Map.wf (sessions (fst (updateSession m now sessionId u))).
Proof.
  intros Hwf. unfold updateSession.
  destruct (Map.get (sessions m) sessionId); [now apply wf_set | exact Hwf].
Qed.

Lemma deleteSession_wf m sessionId :
  Map.wf (sessions m) -> Map.wf (sessions (fst (deleteSession m sessionId))).
Proof. intros Hwf. now apply wf_delete. Qed.

Lemma importSession_wf m now random x :
  Map.wf (sessions m) -> Map.wf (sessions (fst (importSession m now random x))).
Proof.
  intros Hwf. unfold importSession.
  destruct (imported_session now random x); [now apply wf_set | exact Hwf].
Qed.

Lemma or_else_null v : or_else v VNull = VNull \/ truthy (or_else v VNull) = true.
Proof.
  unfold or_else. destruct (truthy v) eqn:Hv; [now right | now left].
Qed.

Lemma or_else_object v : truthy (or_else v (VObj [])) = true.
Proof.
  unfold or_else. now destruct (truthy v) eqn:Hv.
Qed.

Lemma new_session_shape sessionId now o : kept_by_import (data (new_session sessionId now o)).
Proof.
  unfold kept_by_import. cbn [new_session data cookies localStorage sessionStorage
    customProxy userAgent headers settings].
  repeat split; try apply wf_empty.
  - destruct (opt_customProxy o); [apply or_else_null | now left].
  - destruct (opt_userAgent o); [apply or_else_null | now left].
  - destruct (opt_headers o); [apply or_else_object | reflexivity].
Qed.

Lemma new_Map_wf x jar : new_Map x = Normal jar -> Map.wf jar.
Proof.
  destruct x; cbn [new_Map]; intros Hx; try discriminate;
    injection Hx as <-; apply wf_of_entries.
Qed.

Lemma imported_session_shape now random x (built : session) :
  imported_session now random x = Normal built -> kept_by_import (data built).
Proof.
  unfold imported_session. destruct (x_data x) as [d |]; [| discriminate].
  destruct (new_Map (x_cookies d)) as [jar | e] eqn:Hjar; [| discriminate].
  destruct (new_Map (x_localStorage d)) as [local | e] eqn:Hlocal; [| discriminate].
  destruct (new_Map (x_sessionStorage d)) as [tab | e] eqn:Htab; [| discriminate].
  cbn [bind]. intros Hs. injection Hs as <-.
  unfold kept_by_import. cbn [data cookies localStorage sessionStorage
    customProxy userAgent headers settings].
  repeat split; try (eapply new_Map_wf; eassumption).
  - apply or_else_null.
  - apply or_else_null.
  - apply or_else_object.
  - apply or_else_object.
Qed.

End SessionFacts.

Module SessionClaims.
Import JS Sessions MapFacts SessionFacts.
Local Open Scope Z_scope.

Lemma set_new {V} (m : Map.t V) k v :
  ~ In k (Map.keys m) -> Map.set m k v = m ++ [(k, v)].
Proof.
  induction m as [| [k' v'] m IH]; intros Hnin; [reflexivity |].
  cbn [Map.set]. cbn [Map.keys map fst] in Hnin.
  destruct (str_eqb k' k) eqn:Hk.
  - apply str_eqb_eq in Hk. subst k'. exfalso. apply Hnin. now left.
  - cbn [app]. f_equal. apply IH. intros Hin. apply Hnin. now right.
Qed.

Lemma fold_set_fresh {V} (l : list (str * V)) : forall acc : Map.t V,
  NoDup (Map.keys (acc ++ l)) ->
  fold_left (fun m kv => Map.set m (fst kv) (snd kv)) l acc = acc ++ l.
Proof.
  induction l as [| [k v] l IH]; intros acc Hnd; cbn [fold_left fst snd].
  - now rewrite app_nil_r.
  - rewrite set_new.
    + rewrite IH; rewrite <- app_assoc; [reflexivity | exact Hnd].
    + unfold Map.keys in Hnd. rewrite map_app in Hnd.
      intros Hin. apply (nodup_app_disjoint _ _ Hnd k Hin). now left.
Qed.

(** [new Map(Array.from(m.entries()))] has the entries of [m], in order. *)
Lemma of_entries_entries {V} (m : Map.t V) : Map.wf m -> Map.of_entries (Map.entries m) = m.
Proof.
  intros Hwf. unfold Map.of_entries, Map.entries, Map.empty.
  now rewrite fold_set_fresh.
Qed.

Lemma or_else_kept v d : v = d \/ truthy v = true -> or_else v d = v.
Proof.
  unfold or_else. intros [-> | ->]; [now destruct (truthy d) | reflexivity].
Qed.

Lemma hex2_length b : List.length (hex2 b) = 2%nat.
Proof. reflexivity. Qed.

Lemma generateSessionId_length random :
  List.length (generateSessionId random) = (2 * List.length random)%nat.
Proof.
  unfold generateSessionId. induction random as [| b random IH]; [reflexivity |].
  cbn [flat_map]. rewrite length_app, IH, hex2_length. cbn [List.length]. lia.
Qed.

(** C3: a sweep on a store with a non-negative capacity succeeds; what it
    leaves are sessions of the store that have not timed out, at most
    [maxSessions] of them; nothing else goes when these fit, and otherwise
    exactly [maxSessions] stay, none of them accessed earlier than a
    session that was dropped for capacity. *)
Theorem cleanupOldSessions_sweep (m : manager) (now : Z) :
  Map.wf (sessions m) -> 0 <= maxSessions m ->
  let m' := fst (cleanupOldSessions m now) in
  snd (cleanupOldSessions m now) = Normal tt /\
  (forall e, In e (sessions m') -> In e (unexpired m now)) /\
  (forall e, In e (sessions m') -> now - lastAccessed (snd e) <= sessionTimeout m) /\
  Map.size (sessions m') <= maxSessions m /\
  (Map.size (unexpired m now) <= maxSessions m -> sessions m' = unexpired m now) /\
  (maxSessions m < Map.size (unexpired m now) ->
   Map.size (sessions m') = maxSessions m /\
   forall a b,
     In a (unexpired m now) -> ~ In a (sessions m') -> In b (sessions m') -> older a b).
Proof.
  intros Hwf Hmax. cbn zeta. rewrite cleanupOldSessions_eq by assumption. cbn [fst snd sessions with_sessions].
  assert (Hfresh : forall e, In e (unexpired m now) ->
                             now - lastAccessed (snd e) <= sessionTimeout m).
  { intros e He. apply filter_In in He as [_ He]. apply negb_true_iff in He.
    unfold stale in He. rewrite Z.gtb_ltb in He. apply Z.ltb_ge in He. exact He. }
  assert (Hwf1 : Map.wf (unexpired m now)) by (now apply wf_filter).
  destruct (Map.size (unexpired m now) >? maxSessions m) eqn:Hbig.
  - rewrite Z.gtb_ltb in Hbig. apply Z.ltb_lt in Hbig.
    set (n := Z.to_nat (Map.size (unexpired m now) - maxSessions m)).
    pose proof (kept_length (unexpired m now) n Hwf1) as Hlen.
    assert (Hsize : Map.size (filter (survives (unexpired m now) n) (unexpired m now))
                    = maxSessions m).
    { unfold Map.size in *. rewrite Hlen. lia. }
    split; [reflexivity |]. split; [| split; [| split; [| split]]].
    + intros e He. now apply filter_In in He.
    + intros e He. apply Hfresh. now apply filter_In in He.
    + lia.
    + lia.
    + intros _. split; [exact Hsize |].
      intros a b Ha Hgone Hb.
      exact (kept_most_recent (unexpired m now) n Hwf1 a b Ha Hgone Hb).
  - rewrite Z.gtb_ltb in Hbig. apply Z.ltb_ge in Hbig.
    split; [reflexivity |]. split; [| split; [| split; [| split]]].
    + trivial.
    + exact Hfresh.
    + exact Hbig.
    + reflexivity.
    + lia.
Qed.

(** C8 (amended): for a session whose id is not empty, whose jar and
    mirrors are maps, whose [customProxy] and [userAgent] are [null] or
    truthy and whose [headers] and [settings] are truthy,
    [importSession(exportSession(id))] stores under the same id a session
    with the same data; data that has a [data] object, arrays of pairs (or
    nothing) for the jar and the mirrors and no id (or an empty one) is
    stored under the id [generateSessionId()] returns; and on data without
    [data], or with something else than an array of pairs for the jar or a
    mirror, [importSession] throws a TypeError and stores nothing. *)
Theorem export_import_round_trip
        (m : manager) (now now' : Z) (random : list N) (sessionId : str) (s : session) :
  Map.get (sessions m) sessionId = Some s ->
  id s <> [] ->
  kept_by_import (data s) ->
  (exists x,
     snd (exportSession m now sessionId) = Some x /\
     let m1 := fst (exportSession m now sessionId) in
     let m2 := fst (importSession m1 now' random x) in
     snd (importSession m1 now' random x) = Normal (id s) /\
     exists s', Map.get (sessions m2) (id s) = Some s' /\ id s' = id s /\ data s' = data s) /\
  (forall m0 x0 d,
     x_data x0 = Some d ->
     x_cookies d <> NotEntries -> x_localStorage d <> NotEntries ->
     x_sessionStorage d <> NotEntries ->
     x_id x0 = None \/ x_id x0 = Some [] ->
     snd (importSession m0 now' random x0) = Normal (generateSessionId random) /\
     List.length (generateSessionId random) = (2 * List.length random)%nat /\
     exists s', Map.get (sessions (fst (importSession m0 now' random x0)))
                        (generateSessionId random) = Some s' /\
                id s' = generateSessionId random) /\
  (forall m0 x0,
     x_data x0 = None \/
     (exists d, x_data x0 = Some d /\
                (x_cookies d = NotEntries \/ x_localStorage d = NotEntries \/
                 x_sessionStorage d = NotEntries)) ->
     importSession m0 now' random x0 = (m0, Throw TypeError)).
Proof.
  intros Hget Hid (Hc & Hl & Hs & Hproxy & Hagent & Hheaders & Hsettings).
  split; [| split].
  - unfold exportSession, getSession. rewrite Hget. cbn [fst snd touch id data createdAt lastAccessed].
    eexists. split; [reflexivity |]. cbn zeta.
    unfold importSession, imported_session.
    cbn [fst snd x_id x_data x_cookies x_localStorage x_sessionStorage
      x_customProxy x_userAgent x_headers x_settings x_createdAt x_lastAccessed
      new_Map bind sessions with_sessions id].
    assert (Hsame : id_or_generated (Some (id s)) random = id s).
    { unfold id_or_generated. destruct (id s); [contradiction | reflexivity]. }
    rewrite Hsame. split; [reflexivity |].
    eexists. split; [apply get_set_same |]. cbn [id data]. split; [reflexivity |].
    rewrite !of_entries_entries by assumption.
    rewrite !or_else_kept by (assumption || now right).
    now destruct (data s).
  - intros m0 x0 d Hd Hcookies Hlocal Htab Hx.
    assert (Hgen : id_or_generated (x_id x0) random = generateSessionId random).
    { destruct Hx as [-> | ->]; reflexivity. }
    assert (Hmap : forall x, x <> NotEntries -> exists jar, new_Map x = Normal jar).
    { intros [| l |] Hx'; [now eexists | now eexists | contradiction]. }
    destruct (Hmap _ Hcookies) as [jar Hjar].
    destruct (Hmap _ Hlocal) as [local Hloc].
    destruct (Hmap _ Htab) as [tab Htb].
    unfold importSession, imported_session. rewrite Hd, Hjar, Hloc, Htb.
    cbn [bind fst snd id sessions with_sessions]. rewrite Hgen.
    split; [reflexivity |]. split; [apply generateSessionId_length |].
    eexists. split; [apply get_set_same | reflexivity].
  - intros m0 x0 [Hnone | (d & Hd & Hbad)]; unfold importSession, imported_session.
    + now rewrite Hnone.
    + rewrite Hd. destruct Hbad as [-> | [-> | ->]]; cbn [new_Map bind].
      * reflexivity.
      * now destruct (x_cookies d).
      * now destruct (x_cookies d), (x_localStorage d).
Qed.

Lemma cleanupOldSessions_sweep_witness :
  let m' := fst (cleanupOldSessions crowded_store 110) in
  snd (cleanupOldSessions crowded_store 110) = Normal tt /\
  (forall e, In e (sessions m') -> In e (unexpired crowded_store 110)) /\
  (forall e, In e (sessions m') -> 110 - lastAccessed (snd e) <= sessionTimeout crowded_store) /\
  Map.size (sessions m') <= maxSessions crowded_store /\
  (Map.size (unexpired crowded_store 110) <= maxSessions crowded_store ->
   sessions m' = unexpired crowded_store 110) /\
  (maxSessions crowded_store < Map.size (unexpired crowded_store 110) ->
   Map.size (sessions m') = maxSessions crowded_store /\
   forall a b,
     In a (unexpired crowded_store 110) -> ~ In a (sessions m') -> In b (sessions m') ->
     older a b).
Proof.
  apply (cleanupOldSessions_sweep crowded_store 110).
  - unfold Map.wf. cbn. repeat constructor; cbn; intuition discriminate.
  - cbn. lia.
Defined.

Lemma export_import_round_trip_witness :
  (exists x,
     snd (exportSession busy_store 120 (lit "b")) = Some x /\
     let m1 := fst (exportSession busy_store 120 (lit "b")) in
     let m2 := fst (importSession m1 130 sixteen_bytes x) in
     snd (importSession m1 130 sixteen_bytes x) = Normal (id busy_session) /\
     exists s', Map.get (sessions m2) (id busy_session) = Some s' /\
                id s' = id busy_session /\ data s' = data busy_session) /\
  (forall m0 x0 d,
     x_data x0 = Some d ->
     x_cookies d <> NotEntries -> x_localStorage d <> NotEntries ->
     x_sessionStorage d <> NotEntries ->
     x_id x0 = None \/ x_id x0 = Some [] ->
     snd (importSession m0 130 sixteen_bytes x0) = Normal (generateSessionId sixteen_bytes) /\
     List.length (generateSessionId sixteen_bytes) = (2 * List.length sixteen_bytes)%nat /\
     exists s', Map.get (sessions (fst (importSession m0 130 sixteen_bytes x0)))
                        (generateSessionId sixteen_bytes) = Some s' /\
                id s' = generateSessionId sixteen_bytes) /\
  (forall m0 x0,
     x_data x0 = None \/
     (exists d, x_data x0 = Some d /\
                (x_cookies d = NotEntries \/ x_localStorage d = NotEntries \/
                 x_sessionStorage d = NotEntries)) ->
     importSession m0 130 sixteen_bytes x0 = (m0, Throw TypeError)).
Proof.
  apply (export_import_round_trip busy_store 120 130 sixteen_bytes (lit "b") busy_session).
  - reflexivity.
  - discriminate.
  - unfold kept_by_import, Map.wf. cbn.
    repeat split; try (now right); try reflexivity;
      repeat constructor; cbn; intuition discriminate.
Defined.

(** The round trip on the session of [busy_store], and the two failures,
    computed. *)
Lemma export_import_busy_example :
  option_map (fun x => importSession busy_store 130 sixteen_bytes x)
             (snd (exportSession busy_store 120 (lit "b")))
  = Some (with_sessions busy_store
            [(lit "a", plain_session "a" 5);
             (lit "b", mkSession (lit "b") 10 120 (data busy_session))],
          Normal (lit "b")) /\
  importSession busy_store 130 sixteen_bytes no_data = (busy_store, Throw TypeError) /\
  importSession busy_store 130 sixteen_bytes bad_cookies = (busy_store, Throw TypeError).
Proof. repeat split; vm_compute; reflexivity. Qed.

(** C8, as stated, fails: after [updateSession(id, { customProxy: '' })]
    the exported [customProxy] is the empty string and the imported one is
    [null]. *)
Lemma export_import_loses_empty_string :
  let sid := generateSessionId sixteen_bytes in
  let m1 := fst (createSession (new_manager None None) 0 sixteen_bytes
                               (mkCreate None None None [])) in
  let m2 := fst (updateSession m1 1 sid cleared_proxy) in
  let m3 := fst (exportSession m2 2 sid) in
  exists x,
    snd (exportSession m2 2 sid) = Some x /\
    snd (importSession m3 3 sixteen_bytes x) = Normal sid /\
    option_map (fun s => customProxy (data s)) (Map.get (sessions m3) sid)
      = Some (VStr []) /\
    option_map (fun s => customProxy (data s))
               (Map.get (sessions (fst (importSession m3 3 sixteen_bytes x))) sid)
      = Some VNull.
Proof.
  cbn zeta. eexists. split; [vm_compute; reflexivity |].
  split; [vm_compute; reflexivity |].
  split; vm_compute; reflexivity.
Qed.

End SessionClaims.

(** ** More on maps and strings *)

Module MoreFacts.
Import JS MapFacts.

Lemma startsWith_prefix s p : startsWith s p = true <-> exists rest, s = p ++ rest.
Proof.
  revert s. induction p as [| a p IH]; intros s.
  - split; [intros _; now exists s | now destruct s].
  - destruct s as [| b s]; cbn [startsWith].
    + split; [discriminate | intros [rest Hr]; discriminate].
    + rewrite andb_true_iff, N.eqb_eq, IH. split.
      * intros [-> [rest ->]]. now exists rest.
      * intros [rest Hr]. injection Hr as -> ->. split; [reflexivity | now exists rest].
Qed.

Lemma endsWith_suffix s p : SessionAccess.endsWith s p = true <-> exists pre, s = pre ++ p.
Proof.
  unfold SessionAccess.endsWith. rewrite andb_true_iff, Nat.leb_le, str_eqb_eq. split.
  - intros [Hlen Hs]. exists (firstn (List.length s - List.length p) s).
    rewrite <- (firstn_skipn (List.length s - List.length p) s) at 1. now rewrite Hs.
  - intros [pre ->]. rewrite length_app. split; [lia |].
    replace (List.length pre + List.length p - List.length p)%nat with (List.length pre) by lia.
    now rewrite skipn_app, skipn_all, Nat.sub_diag, skipn_0.
Qed.

Section Maps.
Context {V : Type}.
Implicit Types (m : Map.t V) (k : str) (v : V).

Lemma get_delete_same m k : Map.get (Map.delete m k) k = None.
Proof.
  unfold Map.delete. induction m as [| [k' v'] m IH]; [reflexivity |].
  cbn [filter fst]. destruct (str_eqb k' k) eqn:Hk; cbn [negb]; [exact IH |].
  cbn [Map.get]. now rewrite Hk.
Qed.

Lemma get_delete_other m k k0 : k <> k0 -> Map.get (Map.delete m k) k0 = Map.get m k0.
Proof.
  intros Hne. unfold Map.delete. induction m as [| [k' v'] m IH]; [reflexivity |].
  cbn [filter fst Map.get]. destruct (str_eqb k' k) eqn:Hk; cbn [negb Map.get].
  - apply str_eqb_eq in Hk. subst k'.
    now replace (str_eqb k k0) with false by (symmetry; now apply str_eqb_neq).
  - now rewrite IH.
Qed.

Lemma delete_absent m k : Map.get m k = None -> Map.delete m k = m.
Proof.
  unfold Map.delete. induction m as [| [k' v'] m IH]; [reflexivity |].
  cbn [Map.get filter fst]. destruct (str_eqb k' k); [discriminate |].
  intros Hg. cbn [negb]. now rewrite IH.
Qed.

Lemma set_set m k a b : Map.set (Map.set m k a) k b = Map.set m k b.
Proof.
  induction m as [| [k' v'] m IH]; cbn [Map.set].
  - now rewrite str_eqb_refl.
  - destruct (str_eqb k' k) eqn:Hk; cbn [Map.set]; rewrite Hk; [reflexivity | now rewrite IH].
Qed.

Lemma get_in m k v : Map.get m k = Some v -> In (k, v) m.
Proof.
  induction m as [| [k' v'] m IH]; [discriminate |].
  cbn [Map.get]. destruct (str_eqb k' k) eqn:Hk.
  - apply str_eqb_eq in Hk. intros [= ->]. subst. now left.
  - intros Hg. right. now apply IH.
Qed.

Lemma in_get m k v : Map.wf m -> In (k, v) m -> Map.get m k = Some v.
Proof.
  unfold Map.wf. induction m as [| [k' v'] m IH]; intros Hwf Hin; [contradiction |].
  cbn [Map.keys map fst] in Hwf. inversion Hwf as [| ? ? Hnin Hnd]; subst.
  cbn [Map.get]. destruct Hin as [Heq | Hin].
  - injection Heq as -> ->. now rewrite str_eqb_refl.
  - destruct (str_eqb k' k) eqn:Hk; [| now apply IH].
    apply str_eqb_eq in Hk. subst k'. exfalso. apply Hnin.
    apply in_map_iff. now exists (k, v).
Qed.


Lemma set_length_known m k v v' :
  Map.get m k = Some v' -> List.length (Map.set m k v) = List.length m.
Proof.
  induction m as [| [k' v0] m IH]; [discriminate |].
  cbn [Map.get Map.set]. destruct (str_eqb k' k); [reflexivity |].
  intros Hg. cbn [List.length]. now rewrite IH.
Qed.
End Maps.

(** Property lookup in an object and lookup in a map are the same
    function. *)
Lemma lookup_get props k : lookup props k = Map.get props k.
Proof. induction props as [| [k' v] tl IH]; [reflexivity |]. cbn. now rewrite IH. Qed.

End MoreFacts.

(** ** The session store: lookups, cookies and mirrors *)

Module SessionAccessFacts.
Import JS Sessions SessionAccess MapFacts MoreFacts.
Local Open Scope Z_scope.

Lemma with_sessions_same m : with_sessions m (sessions m) = m.
Proof. now destruct m. Qed.

Lemma getSession_absent m now sessionId :
  Map.get (sessions m) sessionId = None -> getSession m now sessionId = (m, None).
Proof. intros Hg. unfold getSession. now rewrite Hg. Qed.

Lemma getSession_present m now sessionId s :
  Map.get (sessions m) sessionId = Some s ->
  getSession m now sessionId
  = (with_sessions m (Map.set (sessions m) sessionId (touch s now)), Some (touch s now)).
Proof. intros Hg. unfold getSession. now rewrite Hg. Qed.

(** X1: An unknown id is answered by [undefined], [false], [null] or an empty
    list, never by an exception, and the store is left as it was. *)
Theorem unknown_session_is_absent
        (m : manager) (now : Z) (sessionId name key domain path : str)
        (v : value) (o : cookie_options) (u : updates) :
  Map.get (sessions m) sessionId = None ->
  getSession m now sessionId = (m, None) /\
  updateSession m now sessionId u = (m, false) /\
  setCookie m now sessionId name v o = (m, false) /\
  getCookies m now sessionId domain path = (m, Normal []) /\
  setLocalStorage m now sessionId key v = (m, false) /\
  getLocalStorage m now sessionId key = (m, VNull) /\
  setSessionStorage m now sessionId key v = (m, false) /\
  getSessionStorage m now sessionId key = (m, VNull) /\
  exportSession m now sessionId = (m, None) /\
  deleteSession m sessionId = (m, false).
Proof.
  intros Hg. pose proof (getSession_absent m now sessionId Hg) as Hs.
  repeat split;
    try (unfold setCookie, getCookies, setLocalStorage, getLocalStorage,
           setSessionStorage, getSessionStorage, exportSession; now rewrite Hs).
  - unfold updateSession. now rewrite Hg.
  - unfold deleteSession, Map.has. now rewrite Hg, delete_absent, with_sessions_same.
Qed.

(** X2: [deleteSession] tells whether the id was known, leaves no session
    under it and leaves every other session as it was; a second call
    returns [false]. *)
Theorem deleteSession_removes (m : manager) (sessionId other : str) :
  other <> sessionId ->
  (snd (deleteSession m sessionId) = true <->
   exists s, Map.get (sessions m) sessionId = Some s) /\
  Map.get (sessions (fst (deleteSession m sessionId))) sessionId = None /\
  Map.get (sessions (fst (deleteSession m sessionId))) other
  = Map.get (sessions m) other /\
  deleteSession (fst (deleteSession m sessionId)) sessionId
  = (fst (deleteSession m sessionId), false).
Proof.
  intros Hne. unfold deleteSession. cbn [fst snd sessions with_sessions].
  split; [| repeat split].
  - unfold Map.has. destruct (Map.get (sessions m) sessionId) as [s |].
    + split; [now exists s | reflexivity].
    + split; [discriminate | now intros [s Hs]].
  - apply get_delete_same.
  - apply get_delete_other. congruence.
  - unfold Map.has. rewrite get_delete_same.
    now rewrite (delete_absent (Map.delete (sessions m) sessionId) sessionId
                   (get_delete_same _ _)).
Qed.

(** *** The storage mirrors *)

Lemma setLocalStorage_present m now sessionId key v s :
  Map.get (sessions m) sessionId = Some s ->
  setLocalStorage m now sessionId key v
  = (with_sessions m
       (Map.set (sessions m) sessionId
          (with_data (touch s now)
             (with_localStorage (data s) (Map.set (localStorage (data s)) key v)))),
     true).
Proof.
  intros Hg. unfold setLocalStorage. rewrite (getSession_present _ _ _ _ Hg).
  cbn [sessions with_sessions touch data]. now rewrite set_set.
Qed.

Lemma setSessionStorage_present m now sessionId key v s :
  Map.get (sessions m) sessionId = Some s ->
  setSessionStorage m now sessionId key v
  = (with_sessions m
       (Map.set (sessions m) sessionId
          (with_data (touch s now)
             (with_sessionStorage (data s) (Map.set (sessionStorage (data s)) key v)))),
     true).
Proof.
  intros Hg. unfold setSessionStorage. rewrite (getSession_present _ _ _ _ Hg).
  cbn [sessions with_sessions touch data]. now rewrite set_set.
Qed.

Lemma getLocalStorage_present m now sessionId key s :
  Map.get (sessions m) sessionId = Some s ->
  snd (getLocalStorage m now sessionId key) = map_get (localStorage (data s)) key.
Proof.
  intros Hg. unfold getLocalStorage. now rewrite (getSession_present _ _ _ _ Hg).
Qed.

Lemma getSessionStorage_present m now sessionId key s :
  Map.get (sessions m) sessionId = Some s ->
  snd (getSessionStorage m now sessionId key) = map_get (sessionStorage (data s)) key.
Proof.
  intros Hg. unfold getSessionStorage. now rewrite (getSession_present _ _ _ _ Hg).
Qed.

Lemma map_get_set_same mirror key v : map_get (Map.set mirror key v) key = v.
Proof. unfold map_get. now rewrite get_set_same. Qed.

Lemma map_get_set_other mirror key other v :
  other <> key -> map_get (Map.set mirror key v) other = map_get mirror other.
Proof. intros Hne. unfold map_get. now rewrite get_set_other by congruence. Qed.

(** X3: In a session whose two mirrors are [Map] objects, as
    [createSession] and [importSession] make them, what [setLocalStorage]
    stored under a key is what [getLocalStorage] reads there; the other
    keys of the mirror, the whole [sessionStorage] mirror and every other
    session are as before.  The same holds with the two mirrors
    exchanged. *)
Theorem storage_mirrors_round_trip
        (m : manager) (now now' : Z) (sessionId key other elsewhere : str)
        (v : value) (s : session) :
  Map.get (sessions m) sessionId = Some s ->
  other <> key ->
  elsewhere <> sessionId ->
  (let m1 := fst (setLocalStorage m now sessionId key v) in
   snd (setLocalStorage m now sessionId key v) = true /\
   snd (getLocalStorage m1 now' sessionId key) = v /\
   snd (getLocalStorage m1 now' sessionId other)
   = snd (getLocalStorage m now' sessionId other) /\
   (forall k, snd (getSessionStorage m1 now' sessionId k)
              = snd (getSessionStorage m now' sessionId k)) /\
   Map.get (sessions m1) elsewhere = Map.get (sessions m) elsewhere) /\
  (let m1 := fst (setSessionStorage m now sessionId key v) in
   snd (setSessionStorage m now sessionId key v) = true /\
   snd (getSessionStorage m1 now' sessionId key) = v /\
   snd (getSessionStorage m1 now' sessionId other)
   = snd (getSessionStorage m now' sessionId other) /\
   (forall k, snd (getLocalStorage m1 now' sessionId k)
              = snd (getLocalStorage m now' sessionId k)) /\
   Map.get (sessions m1) elsewhere = Map.get (sessions m) elsewhere).
Proof.
  intros Hg Hother Helse. split; cbn zeta.
  - rewrite (setLocalStorage_present _ _ _ _ _ _ Hg). cbn [fst snd].
    set (m1 := with_sessions m (Map.set (sessions m) sessionId
      (with_data (touch s now)
         (with_localStorage (data s) (Map.set (localStorage (data s)) key v))))).
    assert (Hg1 : Map.get (sessions m1) sessionId
                  = Some (with_data (touch s now)
                            (with_localStorage (data s) (Map.set (localStorage (data s)) key v))))
      by apply get_set_same.
    repeat split.
    + rewrite (getLocalStorage_present m1 _ _ _ _ Hg1). apply map_get_set_same.
    + rewrite (getLocalStorage_present m1 _ _ _ _ Hg1), (getLocalStorage_present _ _ _ _ _ Hg).
      now apply map_get_set_other.
    + intros k. now rewrite (getSessionStorage_present m1 _ _ _ _ Hg1),
        (getSessionStorage_present _ _ _ _ _ Hg).
    + apply get_set_other. congruence.
  - rewrite (setSessionStorage_present _ _ _ _ _ _ Hg). cbn [fst snd].
    set (m1 := with_sessions m (Map.set (sessions m) sessionId
      (with_data (touch s now)
         (with_sessionStorage (data s) (Map.set (sessionStorage (data s)) key v))))).
    assert (Hg1 : Map.get (sessions m1) sessionId
                  = Some (with_data (touch s now)
                            (with_sessionStorage (data s) (Map.set (sessionStorage (data s)) key v))))
      by apply get_set_same.
    repeat split.
    + rewrite (getSessionStorage_present m1 _ _ _ _ Hg1). apply map_get_set_same.
    + rewrite (getSessionStorage_present m1 _ _ _ _ Hg1),
        (getSessionStorage_present _ _ _ _ _ Hg).
      now apply map_get_set_other.
    + intros k. now rewrite (getLocalStorage_present m1 _ _ _ _ Hg1),
        (getLocalStorage_present _ _ _ _ _ Hg).
    + apply get_set_other. congruence.
Qed.

(** *** Cookies *)

Lemma cookie_domain v o :
  get_prop (cookie_object v o) (lit "domain") = Normal (or_else (c_domain o) (VStr [])).
Proof. reflexivity. Qed.

Lemma cookie_path v o :
  get_prop (cookie_object v o) (lit "path") = Normal (or_else (c_path o) (VStr (lit "/"))).
Proof. reflexivity. Qed.

Lemma cookie_value v o : get_prop (cookie_object v o) (lit "value") = Normal v.
Proof. reflexivity. Qed.

Lemma or_else_empty_truthy v : truthy (or_else v (VStr [])) = truthy v.
Proof. unfold or_else. now destruct (truthy v) eqn:Hv. Qed.

Lemma or_else_slash_truthy v : truthy (or_else v (VStr (lit "/"))) = true.
Proof. unfold or_else. now destruct (truthy v) eqn:Hv. Qed.

(** A cookie stored by [setCookie] matches a query exactly when its domain,
    if it has one, is a suffix of the queried domain and its path is a
    prefix of the queried path. *)
Lemma cookieMatches_stored v o domain path :
  exists b, cookieMatches (cookie_object v o) domain path = Normal b /\
            (b = true <-> domain_allows o domain /\ path_allows o path).
Proof.
  unfold cookieMatches. rewrite cookie_domain. cbn [bind].
  rewrite or_else_empty_truthy. unfold domain_allows, path_allows.
  destruct (truthy (c_domain o)) eqn:Hd; cbn [andb].
  - assert (Hsame : or_else (c_domain o) (VStr []) = c_domain o)
      by (unfold or_else; now rewrite Hd).
    rewrite Hsame.
    destruct (endsWith domain (Rewriter.to_string (c_domain o))) eqn:He; cbn [negb].
    + rewrite cookie_path. cbn [bind]. rewrite or_else_slash_truthy. cbn [andb].
      destruct (startsWith path _) eqn:Hp; cbn [negb]; eexists; (split; [reflexivity |]).
      * apply startsWith_prefix in Hp. apply endsWith_suffix in He. tauto.
      * split; [discriminate |]. intros [_ Hpath].
        apply startsWith_prefix in Hpath. congruence.
    + eexists. split; [reflexivity |]. split; [discriminate |]. intros [Hdom _].
      specialize (Hdom eq_refl). apply endsWith_suffix in Hdom. congruence.
  - rewrite cookie_path. cbn [bind]. rewrite or_else_slash_truthy. cbn [andb].
    destruct (startsWith path _) eqn:Hp; cbn [negb]; eexists; (split; [reflexivity |]).
    + apply startsWith_prefix in Hp. split; [| reflexivity]. intros _. split; [discriminate | exact Hp].
    + split; [discriminate |]. intros [_ Hpath].
      apply startsWith_prefix in Hpath. congruence.
Qed.

Lemma matching_cookies_stored jar domain path :
  stored_by_setCookie jar ->
  exists l,
    matching_cookies jar domain path = Normal l /\
    forall x, In x l <->
      exists name v o,
        In (name, cookie_object v o) jar /\
        x = name ++ lit "=" ++ Rewriter.to_string v /\
        domain_allows o domain /\ path_allows o path.
Proof.
  induction 1 as [| [name cookie] jar (v & o & Hc & _) _ (l & Hl & IH)].
  - exists []. split; [reflexivity |]. intros x. split; [intros [] |].
    intros (? & ? & ? & [] & _).
  - cbn [snd] in Hc. subst cookie. cbn [matching_cookies].
    destruct (cookieMatches_stored v o domain path) as (b & Hb & Hiff).
    rewrite Hb. cbn [bind]. destruct b.
    + rewrite cookie_value, Hl. cbn [bind]. eexists. split; [reflexivity |].
      intros x. cbn [In]. rewrite IH. split.
      * intros [<- | (n & v' & o' & Hin & Hx & Hok)].
        -- exists name, v, o. split; [now left |]. split; [reflexivity | now apply Hiff].
        -- exists n, v', o'. split; [now right | now split].
      * intros (n & v' & o' & [Heq | Hin] & Hx & Hok).
        -- left. injection Heq as Hn Hv _ _ _ _ _ _. now subst.
        -- right. now exists n, v', o'.
    + rewrite Hl. exists l. split; [reflexivity |].
      intros x. rewrite IH. split.
      * intros (n & v' & o' & Hin & Hx & Hok). exists n, v', o'. split; [now right | now split].
      * intros (n & v' & o' & [Heq | Hin] & Hx & Hok); [| now exists n, v', o'].
        exfalso. apply (f_equal snd) in Heq. cbn [snd] in Heq.
        destruct (cookieMatches_stored v' o' domain path) as (b' & Hb' & Hiff').
        rewrite <- Heq, Hb in Hb'. injection Hb' as <-.
        apply Hiff' in Hok. discriminate.
Qed.

Lemma stored_set jar name v o :
  plainly_printed v o ->
  stored_by_setCookie jar -> stored_by_setCookie (Map.set jar name (cookie_object v o)).
Proof.
  unfold stored_by_setCookie. intros Hplain.
  induction 1 as [| [k c] jar Hc Hjar IH]; cbn [Map.set].
  - constructor; [now exists v, o | constructor].
  - destruct (str_eqb k name).
    + constructor; [now exists v, o | exact Hjar].
    + constructor; [exact Hc | exact IH].
Qed.

Lemma setCookie_present m now sessionId name v o s :
  Map.get (sessions m) sessionId = Some s ->
  setCookie m now sessionId name v o
  = (with_sessions m
       (Map.set (sessions m) sessionId
          (with_data (touch s now)
             (with_cookies (data s) (Map.set (cookies (data s)) name (cookie_object v o))))),
     true).
Proof.
  intros Hg. unfold setCookie. rewrite (getSession_present _ _ _ _ Hg).
  cbn [sessions with_sessions touch data]. now rewrite set_set.
Qed.

(** X4: [getCookies] on a jar filled by [setCookie] does not throw, and it
    returns the [name=value] strings of exactly the cookies whose domain
    (when they have one) is a suffix of the queried domain and whose path
    is a prefix of the queried path.  The values, domains and paths of the
    cookies hold no number beyond 2^53, so that they are printed by their
    digits. *)
Theorem getCookies_matching
        (m : manager) (now : Z) (sessionId domain path : str) (s : session) :
  Map.get (sessions m) sessionId = Some s ->
  stored_by_setCookie (cookies (data s)) ->
  exists l,
    snd (getCookies m now sessionId domain path) = Normal l /\
    forall x, In x l <->
      exists name v o,
        In (name, cookie_object v o) (cookies (data s)) /\
        x = name ++ lit "=" ++ Rewriter.to_string v /\
        domain_allows o domain /\ path_allows o path.
Proof.
  intros Hg Hjar. unfold getCookies. rewrite (getSession_present _ _ _ _ Hg).
  cbn [snd touch data]. now apply matching_cookies_stored.
Qed.

(** X5: The jar holds one cookie per name, whatever its domain and path: a
    second [setCookie] under a name replaces the first, and the cookie is
    then listed for every query its own domain and path allow.  The value,
    the domain and the path of the second cookie, like those of the jar,
    hold no number beyond 2^53. *)
Theorem setCookie_replaces
        (m : manager) (now now' now'' : Z) (sessionId name domain path : str)
        (v v' : value) (o o' : cookie_options) (s : session) :
  Map.get (sessions m) sessionId = Some s ->
  stored_by_setCookie (cookies (data s)) ->
  plainly_printed v' o' ->
  domain_allows o' domain -> path_allows o' path ->
  let m1 := fst (setCookie m now sessionId name v o) in
  let m2 := fst (setCookie m1 now' sessionId name v' o') in
  m2 = fst (setCookie m now' sessionId name v' o') /\
  exists l,
    snd (getCookies m2 now'' sessionId domain path) = Normal l /\
    In (name ++ lit "=" ++ Rewriter.to_string v') l.
Proof.
  intros Hg Hjar Hplain Hdom Hpath. cbn zeta.
  rewrite (setCookie_present _ _ _ _ _ _ _ Hg). cbn [fst].
  set (s1 := with_data (touch s now)
               (with_cookies (data s) (Map.set (cookies (data s)) name (cookie_object v o)))).
  set (m1 := with_sessions m (Map.set (sessions m) sessionId s1)).
  assert (Hg1 : Map.get (sessions m1) sessionId = Some s1) by apply get_set_same.
  rewrite (setCookie_present m1 _ _ _ _ _ _ Hg1), (setCookie_present _ _ _ _ _ _ _ Hg).
  cbn [fst]. unfold m1, s1. cbn [sessions with_sessions data with_data with_cookies cookies touch
    id createdAt lastAccessed localStorage sessionStorage customProxy userAgent headers settings].
  rewrite !set_set. split; [reflexivity |].
  set (s2 := with_data (touch s now')
               (with_cookies (data s) (Map.set (cookies (data s)) name (cookie_object v' o')))).
  set (m2 := with_sessions m (Map.set (sessions m) sessionId s2)).
  assert (Hg2 : Map.get (sessions m2) sessionId = Some s2) by apply get_set_same.
  unfold getCookies. rewrite (getSession_present m2 _ _ _ Hg2). cbn [snd touch data].
  destruct (matching_cookies_stored (cookies (data s2)) domain path) as (l & Hl & Hin).
  { unfold s2. cbn [data with_data with_cookies cookies]. now apply stored_set. }
  exists l. split; [exact Hl |]. apply Hin. exists name, v', o'.
  split; [| now repeat split].
  unfold s2. cbn [data with_data with_cookies cookies]. apply get_in, get_set_same.
Qed.

(** *** Session ids *)

Lemma two_equal {A} (a b c d : A) : [a; b] = [c; d] -> a = c /\ b = d.
Proof. intros Heq. now injection Heq. Qed.

Lemma app_same_length {A} (a a' b b' : list A) :
  List.length a = List.length a' -> a ++ b = a' ++ b' -> a = a' /\ b = b'.
Proof.
  revert a'. induction a as [| x a IH]; intros [| x' a'] Hlen Heq; try discriminate.
  - now split.
  - cbn [app] in Heq. injection Heq as -> Heq. cbn [List.length] in Hlen.
    destruct (IH a' ltac:(lia) Heq) as [-> ->]. now split.
Qed.

Lemma hex2_injective b b' :
  (b < 256)%N -> (b' < 256)%N -> hex2 b = hex2 b' -> b = b'.
Proof.
  intros Hb Hb'. unfold hex2. cbv beta zeta. intros Heq.
  apply two_equal in Heq as [Hhi Hlo].
  destruct (N.ltb_spec (b / 16) 10), (N.ltb_spec (b' / 16) 10),
           (N.ltb_spec (b mod 16) 10), (N.ltb_spec (b' mod 16) 10);
    URIFacts.euclid.
Qed.

Lemma hex2_lower_hex b : (b < 256)%N -> Forall lower_hex (hex2 b).
Proof.
  intros Hb. unfold hex2, lower_hex. cbv beta zeta.
  destruct (N.ltb_spec (b / 16) 10), (N.ltb_spec (b mod 16) 10);
    repeat constructor; URIFacts.euclid.
Qed.

(** X6: A session id is the lower-case hexadecimal form of the random octets:
    two characters for each, and different octets give different ids. *)
Theorem generateSessionId_hex (random random' : list N) :
  octets random -> octets random' ->
  List.length (generateSessionId random) = (2 * List.length random)%nat /\
  Forall lower_hex (generateSessionId random) /\
  (generateSessionId random = generateSessionId random' -> random = random').
Proof.
  unfold octets, generateSessionId. intros Ho Ho'. repeat split.
  - clear Ho. induction random as [| b r IH]; [reflexivity |].
    cbn [flat_map]. rewrite length_app, IH. cbn [hex2 List.length]. lia.
  - induction Ho as [| b r Hb _ IH]; [constructor |].
    cbn [flat_map]. apply Forall_app. split; [now apply hex2_lower_hex | exact IH].
  - revert random' Ho'. induction Ho as [| b r Hb _ IH]; intros random' Ho' Heq.
    + destruct random' as [| b' r']; [reflexivity | discriminate].
    + destruct Ho' as [| b' r' Hb' Hr']; [discriminate |].
      cbn [flat_map] in Heq.
      apply app_same_length in Heq as [Hhead Hrest]; [| reflexivity].
      f_equal; [now apply hex2_injective | now apply IH].
Qed.

(** *** Creation and expiry *)





(** X8: Access slides the expiry: a session read at [now] is still there
    after a sweep at [now'] when [now' - now] does not exceed the timeout
    (the store being within its capacity), while a session that was not
    read and was last accessed more than the timeout before is gone. *)
Theorem access_slides_expiry
        (m : manager) (now now' : Z) (sessionId idle : str) (s s' : session) :
  Map.wf (sessions m) ->
  Map.get (sessions m) sessionId = Some s ->
  Map.get (sessions m) idle = Some s' ->
  idle <> sessionId ->
  Map.size (sessions m) <= maxSessions m ->
  now' - now <= sessionTimeout m ->
  sessionTimeout m < now' - lastAccessed s' ->
  let m1 := fst (getSession m now sessionId) in
  snd (cleanupOldSessions m1 now') = Normal tt /\
  Map.get (sessions (fst (cleanupOldSessions m1 now'))) sessionId = Some (touch s now) /\
  Map.get (sessions (fst (cleanupOldSessions m1 now'))) idle = None.
Proof.
  intros Hwf Hg Hidle Hne Hcap Hrecent Hold. cbn zeta.
  rewrite (getSession_present _ _ _ _ Hg). cbn [fst].
  set (m1 := with_sessions m (Map.set (sessions m) sessionId (touch s now))).
  assert (Hwf1 : Map.wf (sessions m1)) by (now apply wf_set).
  assert (Hlen : List.length (sessions m1) = List.length (sessions m)).
  { unfold m1. cbn [sessions with_sessions]. now apply set_length_known with (v' := s). }
  assert (Hpos : 0 <= maxSessions m1).
  { unfold Map.size in Hcap. cbn. lia. }
  assert (Hfit : (Map.size (unexpired m1 now') >? maxSessions m1) = false).
  { rewrite Z.gtb_ltb. apply Z.ltb_ge. unfold Map.size in *.
    pose proof (filter_length_le (fun kv => negb (stale m1 now' (snd kv))) (sessions m1)).
    unfold unexpired. cbn [maxSessions m1 with_sessions]. lia. }
  rewrite (SessionFacts.cleanupOldSessions_eq m1 now' Hwf1 Hpos), Hfit.
  cbn [fst snd sessions with_sessions]. split; [reflexivity |]. split.
  - apply in_get; [now apply wf_filter |]. apply filter_In. split.
    + apply get_in. apply get_set_same.
    + cbn [snd]. unfold stale. cbn [lastAccessed touch sessionTimeout m1 with_sessions].
      rewrite Z.gtb_ltb. apply negb_true_iff, Z.ltb_ge. exact Hrecent.
  - destruct (Map.get (unexpired m1 now') idle) as [s2 |] eqn:Hget; [| reflexivity].
    exfalso. apply get_in, filter_In in Hget as [Hin Hst].
    assert (Hs2 : Map.get (sessions m1) idle = Some s') .
    { unfold m1. cbn [sessions with_sessions]. rewrite get_set_other by congruence. exact Hidle. }
    rewrite (SessionFacts.wf_functional _ _ _ _ Hwf1 Hin (get_in _ _ _ Hs2)) in Hst.
    cbn [snd] in Hst. unfold stale in Hst. cbn [sessionTimeout m1 with_sessions] in Hst.
    rewrite Z.gtb_ltb in Hst. apply negb_true_iff, Z.ltb_ge in Hst. lia.
Qed.

(** *** The theorems at concrete stores *)

Lemma unknown_session_is_absent_witness :
  getSession crowded_store 70 (lit "z") = (crowded_store, None) /\
  updateSession crowded_store 70 (lit "z") cleared_proxy = (crowded_store, false) /\
  setCookie crowded_store 70 (lit "z") (lit "sid") (VStr (lit "1")) site_cookie
  = (crowded_store, false) /\
  getCookies crowded_store 70 (lit "z") (lit "a.com") (lit "/") = (crowded_store, Normal []) /\
  setLocalStorage crowded_store 70 (lit "z") (lit "k") (VStr (lit "1")) = (crowded_store, false) /\
  getLocalStorage crowded_store 70 (lit "z") (lit "k") = (crowded_store, VNull) /\
  setSessionStorage crowded_store 70 (lit "z") (lit "k") (VStr (lit "1")) = (crowded_store, false) /\
  getSessionStorage crowded_store 70 (lit "z") (lit "k") = (crowded_store, VNull) /\
  exportSession crowded_store 70 (lit "z") = (crowded_store, None) /\
  deleteSession crowded_store (lit "z") = (crowded_store, false).
Proof.
  apply (unknown_session_is_absent crowded_store 70 (lit "z") (lit "sid") (lit "k")
           (lit "a.com") (lit "/") (VStr (lit "1")) site_cookie cleared_proxy).
  reflexivity.
Defined.

Lemma deleteSession_removes_witness :
  (snd (deleteSession crowded_store (lit "b")) = true <->
   exists s, Map.get (sessions crowded_store) (lit "b") = Some s) /\
  Map.get (sessions (fst (deleteSession crowded_store (lit "b")))) (lit "b") = None /\
  Map.get (sessions (fst (deleteSession crowded_store (lit "b")))) (lit "c")
  = Map.get (sessions crowded_store) (lit "c") /\
  deleteSession (fst (deleteSession crowded_store (lit "b"))) (lit "b")
  = (fst (deleteSession crowded_store (lit "b")), false).
Proof.
  apply (deleteSession_removes crowded_store (lit "b") (lit "c")).
  discriminate.
Defined.

Lemma storage_mirrors_round_trip_witness :
  (let m1 := fst (setLocalStorage crowded_store 70 (lit "b") (lit "k") (VNum 7)) in
   snd (setLocalStorage crowded_store 70 (lit "b") (lit "k") (VNum 7)) = true /\
   snd (getLocalStorage m1 80 (lit "b") (lit "k")) = VNum 7 /\
   snd (getLocalStorage m1 80 (lit "b") (lit "j"))
   = snd (getLocalStorage crowded_store 80 (lit "b") (lit "j")) /\
   (forall k, snd (getSessionStorage m1 80 (lit "b") k)
              = snd (getSessionStorage crowded_store 80 (lit "b") k)) /\
   Map.get (sessions m1) (lit "c") = Map.get (sessions crowded_store) (lit "c")) /\
  (let m1 := fst (setSessionStorage crowded_store 70 (lit "b") (lit "k") (VNum 7)) in
   snd (setSessionStorage crowded_store 70 (lit "b") (lit "k") (VNum 7)) = true /\
   snd (getSessionStorage m1 80 (lit "b") (lit "k")) = VNum 7 /\
   snd (getSessionStorage m1 80 (lit "b") (lit "j"))
   = snd (getSessionStorage crowded_store 80 (lit "b") (lit "j")) /\
   (forall k, snd (getLocalStorage m1 80 (lit "b") k)
              = snd (getLocalStorage crowded_store 80 (lit "b") k)) /\
   Map.get (sessions m1) (lit "c") = Map.get (sessions crowded_store) (lit "c")).
Proof.
  apply (storage_mirrors_round_trip crowded_store 70 80 (lit "b") (lit "k") (lit "j") (lit "c")
           (VNum 7) (plain_session "b" 50)).
  - reflexivity.
  - discriminate.
  - discriminate.
Defined.

Lemma getCookies_matching_witness :
  exists l,
    snd (getCookies cookie_store 70 (lit "b") (lit "www.a.com") (lit "/app/x")) = Normal l /\
    forall x, In x l <->
      exists name v o,
        In (name, cookie_object v o) (cookies (data cookie_session)) /\
        x = name ++ lit "=" ++ Rewriter.to_string v /\
        domain_allows o (lit "www.a.com") /\ path_allows o (lit "/app/x").
Proof.
  apply (getCookies_matching cookie_store 70 (lit "b") (lit "www.a.com") (lit "/app/x")
           cookie_session).
  - reflexivity.
  - constructor; [| constructor]. exists (VStr (lit "1")), site_cookie.
    split; [reflexivity | now repeat split].
Defined.

Lemma setCookie_replaces_witness :
  let m1 := fst (setCookie cookie_store 60 (lit "b") (lit "sid") (VStr (lit "2"))
                   no_cookie_options) in
  let m2 := fst (setCookie m1 70 (lit "b") (lit "sid") (VStr (lit "3")) site_cookie) in
  m2 = fst (setCookie cookie_store 70 (lit "b") (lit "sid") (VStr (lit "3")) site_cookie) /\
  exists l,
    snd (getCookies m2 80 (lit "b") (lit "www.a.com") (lit "/app/x")) = Normal l /\
    In (lit "sid" ++ lit "=" ++ Rewriter.to_string (VStr (lit "3"))) l.
Proof.
  apply (setCookie_replaces cookie_store 60 70 80 (lit "b") (lit "sid")
           (lit "www.a.com") (lit "/app/x") (VStr (lit "2")) (VStr (lit "3"))
           no_cookie_options site_cookie cookie_session).
  - reflexivity.
  - constructor; [| constructor]. exists (VStr (lit "1")), site_cookie.
    split; [reflexivity | now repeat split].
  - now repeat split.
  - intros _. now exists (lit "www.").
  - now exists (lit "/x").
Defined.

Lemma generateSessionId_hex_witness :
  List.length (generateSessionId sixteen_bytes) = (2 * List.length sixteen_bytes)%nat /\
  Forall lower_hex (generateSessionId sixteen_bytes) /\
  (generateSessionId sixteen_bytes = generateSessionId (rev sixteen_bytes) ->
   sixteen_bytes = rev sixteen_bytes).
Proof.
  apply (generateSessionId_hex sixteen_bytes (rev sixteen_bytes));
    unfold octets; repeat (apply Forall_cons; [reflexivity |]); apply Forall_nil.
Defined.


Lemma access_slides_expiry_witness :
  let m1 := fst (getSession roomy_store 90 (lit "a")) in
  snd (cleanupOldSessions m1 160) = Normal tt /\
  Map.get (sessions (fst (cleanupOldSessions m1 160))) (lit "a")
  = Some (touch (plain_session "a" 5) 90) /\
  Map.get (sessions (fst (cleanupOldSessions m1 160))) (lit "b") = None.
Proof.
  apply (access_slides_expiry roomy_store 90 160 (lit "a") (lit "b")
           (plain_session "a" 5) (plain_session "b" 50)).
  - unfold Map.wf. cbn. repeat constructor; cbn; intuition discriminate.
  - reflexivity.
  - reflexivity.
  - discriminate.
  - cbn. lia.
  - cbn. lia.
  - cbn. lia.
Defined.

End SessionAccessFacts.
(** ** The pipeline and the limiter, in general *)

Module PipelineFacts.
Import JS Middleware MapFacts MiddlewareFacts ErrorPhase Window.
Local Open Scope string_scope.
Local Open Scope list_scope.
Local Open Scope Z_scope.

Section Pipeline.
Variable world : Type.
Implicit Types (hs : list (handler world)) (ctx : context) (w : world).

(** The loop asks its [escalate] argument for the error phase only. *)
Lemma run_ext esc1 esc2 type hs :
  (forall c w, esc1 c w = esc2 c w) ->
  forall ctx w, run esc1 type hs ctx w = run esc2 type hs ctx w.
Proof.
  intros Hext. induction hs as [| h hs IH]; intros ctx w; cbn [run]; [reflexivity |].
  destruct (h ctx w) as [[c w'] [[] | e]]; [apply IH |].
  destruct (negb (String.eqb type "error")); [now rewrite Hext | reflexivity].
Qed.

(** Handlers that return hand over to the handlers after them; a failure
    ends the loop. *)
Lemma run_app esc type hs hs2 : forall ctx w,
  run esc type (hs ++ hs2) ctx w =
  match settle hs ctx w with
  | (c, w', None) => run esc type hs2 c w'
  | (_, _, Some _) => run esc type hs ctx w
  end.
Proof.
  induction hs as [| h hs IH]; intros ctx w; cbn [app run settle]; [reflexivity |].
  destruct (h ctx w) as [[c w'] [[] | e]]; [apply IH | reflexivity].
Qed.

Lemma chain_error (m : middlewares world) : chain m "error" = Some (error m).
Proof. reflexivity. Qed.

(** The error phase of two registries with the same error handlers. *)
Lemma execute_error_phase (m m' : middlewares world) n n' ctx w :
  error m' = error m ->
  execute (S n') m' "error" ctx w = execute (S n) m "error" ctx w.
Proof.
  intros He. cbn [execute]. rewrite !chain_error, He. cbv beta iota.
  now rewrite !run_error_phase.
Qed.

(** X9: A call of [execute] returns after at most one nested call, whatever
    the handlers do: on an unknown phase it throws a TypeError before any
    handler runs; otherwise the handlers of the phase run in order up to
    the first failure, the error phase never escalates, and the other
    phases run the error handlers once, on a copy of the context that
    carries the failure.  The copy shares the objects of the context: the
    error handlers are taken to leave them, and the copy, as they are,
    and to act on the world. *)
Theorem execute_outcome (m : middlewares world) (type : string) ctx w (n : nat) :
  (type <> "error" -> Forall leaves_context (error m)) ->
  exists o,
    execute (S (S n)) m type ctx w = Some o /\
    match chain m type with
    | None => o = mkOutcome ctx w [] (Throw TypeError)
    | Some hs =>
      match settle hs ctx w with
      | (c, w', None) => o = mkOutcome c w' [] (Normal tt)
      | (c, w', Some e) =>
        if String.eqb type "error" then o = mkOutcome c w' [] (Throw e)
        else
          let '(_, w2, failure) := settle (error m) (with_error c e) w' in
          o = mkOutcome c w2 [("error", with_error c e)]
                (match failure with None => Throw e | Some later => Throw later end)
      end
    end.
Proof.
  intros _. destruct (chain m type) as [hs |] eqn:Hchain.
  - destruct (String.eqb type "error") eqn:Htype.
    + cbn [execute]. rewrite Hchain. apply String.eqb_eq in Htype. subst type.
      rewrite run_error_phase. eexists. split; [reflexivity |].
      now destruct (settle hs ctx w) as [[c w'] [e |]].
    + apply String.eqb_neq in Htype.
      rewrite (execute_escalates_once world m type hs ctx w n Hchain Htype).
      eexists. split; [reflexivity |].
      destruct (settle hs ctx w) as [[c w'] [e |]]; [| reflexivity].
      now destruct (settle (error m) (with_error c e) w') as [[c2 w2] [later |]].
  - cbn [execute]. rewrite Hchain. now eexists.
Qed.

Lemma use_chain (m m' : middlewares world) type h :
  use m type h = Normal m' ->
  exists hs,
    chain m type = Some hs /\ chain m' type = Some (hs ++ [h]) /\
    (forall t, t <> type -> chain m' t = chain m t) /\
    (type <> "error" -> error m' = error m).
Proof.
  unfold use, chain.
  destruct (String.eqb type "request") eqn:Hq.
  { apply String.eqb_eq in Hq. subst type. intros Hu. injection Hu as <-.
    exists (request m). cbn. repeat split. intros t Ht.
    now replace (String.eqb t "request") with false by (symmetry; now apply String.eqb_neq). }
  destruct (String.eqb type "response") eqn:Hp.
  { apply String.eqb_eq in Hp. subst type. intros Hu. injection Hu as <-.
    exists (response m). cbn. repeat split. intros t Ht.
    now replace (String.eqb t "response") with false by (symmetry; now apply String.eqb_neq). }
  destruct (String.eqb type "error") eqn:He; [| now destruct (inherited type)].
  apply String.eqb_eq in He. subst type. intros Hu. injection Hu as <-.
  exists (error m). cbn. repeat split; [| congruence]. intros t Ht.
  now replace (String.eqb t "error") with false by (symmetry; now apply String.eqb_neq).
Qed.

(** X10: Handlers run in the order of their registration: the handler [use]
    adds runs after the earlier handlers of its phase, on the context and
    the world they leave, and does not run when one of them fails; the
    other phases keep their handlers. *)
Theorem use_runs_last (m m' : middlewares world) (type : string) (h : handler world) :
  use m type h = Normal m' ->
  exists hs,
    chain m type = Some hs /\ chain m' type = Some (hs ++ [h]) /\
    (forall t, t <> type -> chain m' t = chain m t) /\
    forall ctx w n,
      match settle hs ctx w with
      | (c, w', None) =>
        execute (S n) m' type ctx w = run (execute n m' "error") type [h] c w'
      | (_, _, Some _) =>
        execute (S (S n)) m' type ctx w = execute (S (S n)) m type ctx w
      end.
Proof.
  intros Hu. destruct (use_chain m m' type h Hu) as (hs & Hc & Hc' & Hother & Herr).
  exists hs. repeat split; try assumption.
  intros ctx w n. pose proof (run_app (execute n m' "error") type hs [h] ctx w) as Hn.
  pose proof (run_app (execute (S n) m' "error") type hs [h] ctx w) as Hsn.
  destruct (settle hs ctx w) as [[c w'] [e |]].
  - change (execute (S (S n)) m' type ctx w)
      with (match chain m' type with
            | None => Some (mkOutcome ctx w [] (Throw TypeError))
            | Some hs => run (execute (S n) m' "error") type hs ctx w
            end).
    change (execute (S (S n)) m type ctx w)
      with (match chain m type with
            | None => Some (mkOutcome ctx w [] (Throw TypeError))
            | Some hs => run (execute (S n) m "error") type hs ctx w
            end).
    rewrite Hc, Hc', Hsn.
    destruct (String.eqb type "error") eqn:Htype.
    + apply String.eqb_eq in Htype. subst type. now rewrite !run_error_phase.
    + apply String.eqb_neq in Htype. apply run_ext. intros c0 w0.
      now apply execute_error_phase, Herr.
  - change (execute (S n) m' type ctx w)
      with (match chain m' type with
            | None => Some (mkOutcome ctx w [] (Throw TypeError))
            | Some hs => run (execute n m' "error") type hs ctx w
            end).
    now rewrite Hc', Hn.
Qed.

End Pipeline.

Lemma execute_outcome_witness :
  exists o,
    execute 2 (mkMiddlewares [failing first_failure] [] [failing second_failure])
            "request" [] tt = Some o /\
    match chain (mkMiddlewares [failing first_failure] [] [failing second_failure])
                "request" with
    | None => o = mkOutcome [] tt [] (Throw TypeError)
    | Some hs =>
      match settle hs [] tt with
      | (c, w', None) => o = mkOutcome c w' [] (Normal tt)
      | (c, w', Some e) =>
        if String.eqb "request" "error" then o = mkOutcome c w' [] (Throw e)
        else
          let '(_, w2, failure) :=
            settle (error (mkMiddlewares [failing first_failure] []
                                         [failing second_failure]))
                   (with_error c e) w' in
          o = mkOutcome c w2 [("error", with_error c e)]
                (match failure with None => Throw e | Some later => Throw later end)
      end
    end.
Proof.
  apply (execute_outcome unit
           (mkMiddlewares [failing first_failure] [] [failing second_failure])
           "request" [] tt 0).
  intros _. repeat constructor.
Defined.

Lemma use_runs_last_witness :
  exists hs,
    chain (mkMiddlewares [failing first_failure] [] []) "request" = Some hs /\
    chain (mkMiddlewares [failing first_failure; failing second_failure] [] []) "request"
    = Some (hs ++ [failing second_failure]) /\
    (forall t, t <> "request" ->
       chain (mkMiddlewares [failing first_failure; failing second_failure] [] []) t
       = chain (mkMiddlewares [failing first_failure] [] []) t) /\
    forall ctx w n,
      match settle hs ctx w with
      | (c, w', None) =>
        execute (S n) (mkMiddlewares [failing first_failure; failing second_failure] [] [])
                "request" ctx w
        = run (execute n (mkMiddlewares [failing first_failure; failing second_failure] [] [])
                 "error") "request" [failing second_failure] c w'
      | (_, _, Some _) =>
        execute (S (S n)) (mkMiddlewares [failing first_failure; failing second_failure] [] [])
                "request" ctx w
        = execute (S (S n)) (mkMiddlewares [failing first_failure] [] []) "request" ctx w
      end.
Proof.
  apply (use_runs_last unit (mkMiddlewares [failing first_failure] [] [])
           (mkMiddlewares [failing first_failure; failing second_failure] [] [])
           "request" (failing second_failure)).
  reflexivity.
Defined.

(** *** The window of the limiter *)

Lemma prune_sorted windowStart l :
  Sorted Z.le l -> prune windowStart l = filter (fun t => windowStart <=? t) l.
Proof.
  intros Hs. apply Sorted_StronglySorted in Hs; [| intros x y z; lia].
  induction Hs as [| t0 l Hl IH Hall]; [reflexivity |].
  cbn [prune filter]. destruct (Z.ltb_spec t0 windowStart) as [Hold | Hnew].
  - replace (windowStart <=? t0) with false by (symmetry; apply Z.leb_gt; lia). exact IH.
  - replace (windowStart <=? t0) with true by (symmetry; apply Z.leb_le; lia).
    f_equal. symmetry. apply SessionFacts.filter_all.
    intros t Ht. rewrite Forall_forall in Hall. specialize (Hall t Ht). apply Z.leb_le. lia.
Qed.

Lemma sorted_snoc l now :
  Sorted Z.le l -> Forall (fun t => t <= now) l -> Sorted Z.le (l ++ [now]).
Proof.
  intros Hs Hle. induction Hs as [| t0 l Hl IH Hhd]; cbn [app].
  - repeat constructor.
  - inversion Hle as [| ? ? Ht0 Hrest]; subst. constructor; [now apply IH |].
    destruct l as [| t1 l]; cbn [app]; constructor; [exact Ht0 | now inversion Hhd].
Qed.

Lemma sorted_filter (f : Z -> bool) l : Sorted Z.le l -> Sorted Z.le (filter f l).
Proof.
  intros Hs. apply Sorted_StronglySorted in Hs; [| intros x y z; lia].
  apply StronglySorted_Sorted.
  induction Hs as [| t0 l Hl IH Hall]; cbn [filter]; [constructor |].
  destruct (f t0); [| exact IH]. constructor; [exact IH |].
  rewrite Forall_forall in *. intros t Ht. apply filter_In in Ht as [Ht _]. now apply Hall.
Qed.

Lemma history_chronological requests now k :
  chronological requests now ->
  Sorted Z.le (history requests k) /\ Forall (fun t => t <= now) (history requests k).
Proof.
  intros Hc. unfold history. destruct (Map.get requests k) as [l |] eqn:Hg.
  - now apply (Hc k).
  - split; constructor.
Qed.

(** X11: The limiter is a sliding window: while the clock does not go back, a
    request is let through exactly when fewer than [maxRequests] requests
    of its address were let through during the [windowMs] milliseconds
    before it; the list of the address then holds those and the new one,
    and a request that is turned away leaves just those. *)
Theorem rateLimiter_sliding_window
        (o : limits) (r : request_info) (now0 now : Z) (requests : Map.t (list Z)) :
  chronological requests now0 ->
  now0 <= now ->
  let window := recent o now (history requests (clientIP r)) in
  let requests' := fst (rateLimiter o (Some r) now requests) in
  let c := snd (rateLimiter o (Some r) now requests) in
  (c = Normal tt <-> Z.of_nat (List.length window) < maxRequests o) /\
  (c = Normal tt -> history requests' (clientIP r) = window ++ [now]) /\
  (c <> Normal tt ->
   c = Throw rate_limit_error /\ history requests' (clientIP r) = window) /\
  chronological requests' now.
Proof.
  intros Hc Hnow. cbn zeta.
  destruct (history_chronological requests now0 (clientIP r) Hc) as [Hs Hle].
  pose proof (rateLimiter_history o r now requests) as Hh. cbn zeta in Hh.
  rewrite (prune_sorted _ _ Hs) in Hh. fold (recent o now (history requests (clientIP r))) in Hh.
  set (window := recent o now (history requests (clientIP r))) in *.
  assert (Hws : Sorted Z.le window) by (now apply sorted_filter).
  assert (Hwle : Forall (fun t => t <= now) window).
  { apply Forall_forall. intros t Ht. apply filter_In in Ht as [Ht _].
    rewrite Forall_forall in Hle. specialize (Hle t Ht). cbn beta in Hle. lia. }
  assert (Hothers : forall k l,
    k <> clientIP r -> Map.get (fst (rateLimiter o (Some r) now requests)) k = Some l ->
    Sorted Z.le l /\ Forall (fun t => t <= now) l).
  { intros k l Hk Hg. rewrite rateLimiter_others in Hg by assumption.
    destruct (Hc k l Hg) as [Hsl Hll]. split; [exact Hsl |].
    apply Forall_forall. intros t Ht. rewrite Forall_forall in Hll.
    specialize (Hll t Ht). cbn beta in Hll. lia. }
  destruct (rateLimiter o (Some r) now requests) as [requests' c]. cbn [fst snd] in *.
  assert (Hchron : forall own,
    Map.get requests' (clientIP r) = Some own ->
    Sorted Z.le own -> Forall (fun t => t <= now) own -> chronological requests' now).
  { intros own Hget Hso Hlo k l Hg.
    destruct (list_eq_dec N.eq_dec k (clientIP r)) as [-> | Hne]; [| now apply (Hothers k l)].
    rewrite Hget in Hg. injection Hg as <-. now split. }
  destruct (Z.of_nat (List.length window) >=? maxRequests o) eqn:Hfull;
    destruct Hh as [Hget ->]; rewrite Z.geb_leb in Hfull.
  - apply Z.leb_le in Hfull. split; [| split; [| split]].
    + split; [discriminate | lia].
    + discriminate.
    + intros _. split; [reflexivity |]. unfold history. now rewrite Hget.
    + now apply (Hchron window).
  - apply Z.leb_gt in Hfull. split; [| split; [| split]].
    + split; [intros _; exact Hfull | reflexivity].
    + intros _. unfold history. now rewrite Hget.
    + now intros [].
    + apply (Hchron (window ++ [now])); [exact Hget | now apply sorted_snoc |].
      apply Forall_app. split; [exact Hwle |]. repeat constructor. lia.
Qed.

Lemma rateLimiter_sliding_window_witness :
  let window := recent (mkLimits 1000 2) 1500 (history busy_map (clientIP alice)) in
  let requests' := fst (rateLimiter (mkLimits 1000 2) (Some alice) 1500 busy_map) in
  let c := snd (rateLimiter (mkLimits 1000 2) (Some alice) 1500 busy_map) in
  (c = Normal tt <-> Z.of_nat (List.length window) < maxRequests (mkLimits 1000 2)) /\
  (c = Normal tt -> history requests' (clientIP alice) = window ++ [1500]) /\
  (c <> Normal tt ->
   c = Throw rate_limit_error /\ history requests' (clientIP alice) = window) /\
  chronological requests' 1500.
Proof.
  apply (rateLimiter_sliding_window (mkLimits 1000 2) alice 900 1500 busy_map).
  - intros k l. unfold busy_map. cbn [Map.get].
    destruct (str_eqb (lit "10.0.0.1") k); [| discriminate].
    intros Hl. injection Hl as <-. split.
    + repeat constructor. lia.
    + repeat constructor; lia.
  - lia.
Defined.

(** What the limiter decides for a request, and what it records for its
    address, depend on the list of that address alone. *)
Lemma rateLimiter_local o r now requests requests2 :
  history requests2 (clientIP r) = history requests (clientIP r) ->
  snd (rateLimiter o (Some r) now requests2) = snd (rateLimiter o (Some r) now requests) /\
  history (fst (rateLimiter o (Some r) now requests2)) (clientIP r)
  = history (fst (rateLimiter o (Some r) now requests)) (clientIP r).
Proof.
  intros Hsame.
  pose proof (rateLimiter_history o r now requests) as H1.
  pose proof (rateLimiter_history o r now requests2) as H2. cbn zeta in H1, H2.
  rewrite Hsame in H2.
  destruct (rateLimiter o (Some r) now requests) as [m1 c1].
  destruct (rateLimiter o (Some r) now requests2) as [m2 c2]. cbn [fst snd].
  unfold history at 1 2.
  destruct (Z.of_nat _ >=? maxRequests o); destruct H1 as [G1 ->], H2 as [G2 ->];
    now rewrite G1, G2.
Qed.

(** X12: Addresses do not share a quota: the requests of one address change
    neither what is recorded for another address nor whether a request of
    that other address is let through. *)
Theorem rateLimiter_isolated
        (o : limits) (r1 r2 : request_info) (t1 t2 : Z) (requests : Map.t (list Z)) :
  clientIP r1 <> clientIP r2 ->
  let requests1 := fst (rateLimiter o (Some r1) t1 requests) in
  history requests1 (clientIP r2) = history requests (clientIP r2) /\
  snd (rateLimiter o (Some r2) t2 requests1) = snd (rateLimiter o (Some r2) t2 requests) /\
  history (fst (rateLimiter o (Some r2) t2 requests1)) (clientIP r2)
  = history (fst (rateLimiter o (Some r2) t2 requests)) (clientIP r2).
Proof.
  intros Hne. cbn zeta.
  assert (Hsame : history (fst (rateLimiter o (Some r1) t1 requests)) (clientIP r2)
                  = history requests (clientIP r2)).
  { unfold history. now rewrite rateLimiter_others by congruence. }
  split; [exact Hsame |]. now apply rateLimiter_local.
Qed.

Lemma rateLimiter_isolated_witness :
  let requests1 := fst (rateLimiter (mkLimits 1000 2) (Some alice) 950 busy_map) in
  history requests1 (clientIP bob) = history busy_map (clientIP bob) /\
  snd (rateLimiter (mkLimits 1000 2) (Some bob) 960 requests1)
  = snd (rateLimiter (mkLimits 1000 2) (Some bob) 960 busy_map) /\
  history (fst (rateLimiter (mkLimits 1000 2) (Some bob) 960 requests1)) (clientIP bob)
  = history (fst (rateLimiter (mkLimits 1000 2) (Some bob) 960 busy_map)) (clientIP bob).
Proof.
  apply (rateLimiter_isolated (mkLimits 1000 2) alice bob 950 960 busy_map).
  discriminate.
Defined.

End PipelineFacts.
(** ** The rewriter: scripts, plain text and data *)

Module StagesFacts.
Import JS Regex Rewriter RegexFacts RewriterFacts ExampleHost Stages MoreFacts.
Local Open Scope N_scope.

(** *** Literal prefixes and text without a match *)

Section Literal.
Context {R : Type}.

(** A run of literal characters at the head of a pattern is a test of
    [startsWith]. *)
Lemma match_literal (p : str) re : forall s caps (k : list str -> str -> option R),
  match_nodes (map (fun c => Item (One (Chr c))) p ++ re) s caps k
  = if startsWith s p then match_nodes re (skipn (List.length p) s) caps k else None.
Proof.
  induction p as [| a p IH]; intros s caps k; [now destruct s |].
  cbn [map app match_nodes match_item]. destruct s as [| c s]; [reflexivity |].
  cbn [startsWith accepts List.length skipn]. rewrite (N.eqb_sym c a).
  destruct (a =? c); [apply IH | reflexivity].
Qed.

(** Whatever a greedy run hands to its continuation is a suffix of the
    input. *)
Lemma star_suffix a s (k : str -> option R) r :
  star a s k = Some r -> exists pre s', s = pre ++ s' /\ k s' = Some r.
Proof.
  induction s as [| c s IH]; cbn [star]; intros Hm.
  - now exists [], [].
  - destruct (accepts a c); [| now exists [], (c :: s)].
    unfold first_of in Hm. destruct (star a s k) as [r' |] eqn:Hs.
    + injection Hm as ->. destruct (IH eq_refl) as (pre & s' & -> & Hk).
      now exists (c :: pre), s'.
    + now exists [], (c :: s).
Qed.
End Literal.

Lemma startsWith_same p rest : startsWith (p ++ rest) p = true.
Proof. apply startsWith_prefix. now exists rest. Qed.

Lemma skipn_same {A} (p rest : list A) : skipn (List.length p) (p ++ rest) = rest.
Proof. induction p as [| a p IH]; [reflexivity | exact IH]. Qed.

Lemma includes_false_head c s p :
  includes (c :: s) p = false -> startsWith (c :: s) p = false /\ includes s p = false.
Proof. cbn [includes]. now intros [H1 H2]%orb_false_iff. Qed.

Lemma includes_false_start s p : includes s p = false -> startsWith s p = false.
Proof.
  destruct s as [| c s]; [| now intros [H1 _]%includes_false_head].
  cbn [includes]. now intros [H1 _]%orb_false_iff.
Qed.

Lemma includes_false_suffix pre : forall s p,
  includes (pre ++ s) p = false -> includes s p = false.
Proof.
  induction pre as [| c pre IH]; intros s p Hi; [exact Hi |].
  cbn [app] in Hi. apply includes_false_head in Hi as [_ Hi]. now apply IH.
Qed.

Section NoMatch.
Variable re : regex.
Variable f : str -> list str -> Z -> str.

(** Where the pattern matches nowhere, [replace] copies its input. *)
Lemma replace_from_none : forall s fuel pos,
  (forall pre t, s = pre ++ t -> match_at re t = None) ->
  replace_from fuel re f pos s = s.
Proof.
  induction s as [| c s IH]; intros fuel pos Hno; (destruct fuel as [| fuel]; [reflexivity |]);
    cbn [replace_from].
  - now rewrite (Hno [] [] eq_refl).
  - rewrite (Hno [] (c :: s) eq_refl). f_equal. apply IH.
    intros pre t ->. now apply (Hno (c :: pre) t).
Qed.

(** Text before the first match is copied, and the offset advances by
    its length. *)
Lemma replace_from_copy : forall pre fuel pos s,
  (forall t1 c t2, pre = t1 ++ c :: t2 -> match_at re (c :: t2 ++ s) = None) ->
  replace_from (List.length pre + fuel) re f pos (pre ++ s)
  = pre ++ replace_from fuel re f (pos + Z.of_nat (List.length pre))%Z s.
Proof.
  induction pre as [| c pre IH]; intros fuel pos s Hno.
  - cbn [List.length app Nat.add]. now rewrite Z.add_0_r.
  - cbn [List.length app Nat.add replace_from].
    rewrite (Hno [] c pre eq_refl). f_equal.
    rewrite IH.
    + f_equal. f_equal. lia.
    + intros t1 c' t2 ->. now apply (Hno (c :: t1) c' t2).
Qed.
End NoMatch.

(** A pattern that starts with the characters of [p] matches nowhere in
    a text that does not contain [p]. *)
Lemma replace_without_literal (p : str) re f s :
  includes s p = false ->
  replace (map (fun c => Item (One (Chr c))) p ++ re) f s = s.
Proof.
  intros Hi. apply replace_from_none. intros pre t ->.
  unfold match_at. rewrite match_literal.
  now rewrite (includes_false_start _ _ (includes_false_suffix _ _ _ Hi)).
Qed.

Lemma includes_start pre : forall s p, startsWith s p = true -> includes (pre ++ s) p = true.
Proof.
  induction pre as [| c pre IH]; intros s p Hs; cbn [app].
  - destruct s; cbn [includes]; now rewrite Hs.
  - cbn [includes]. rewrite (IH s p Hs). apply orb_true_r.
Qed.

(** The pattern of the third [replace] matches only where [WebSocket]
    follows. *)
Lemma websocket_match_includes t :
  includes t (lit "WebSocket") = false -> match_at re_js_websocket t = None.
Proof.
  intros Hi. destruct (match_at re_js_websocket t) as [r |] eqn:Hm; [exfalso | reflexivity].
  unfold match_at, re_js_websocket, re_js_call, chars in Hm.
  rewrite <- !app_assoc in Hm. rewrite match_literal in Hm.
  destruct (startsWith t (lit "new")) eqn:Hnew; [| discriminate].
  cbn [app match_nodes match_item] in Hm.
  destruct (skipn (List.length (lit "new")) t) as [| c s] eqn:Hskip; [discriminate |].
  destruct (accepts Space c); [| discriminate].
  apply star_suffix in Hm as (pre & s' & -> & Hk).
  rewrite match_literal in Hk.
  destruct (startsWith s' (lit "WebSocket")) eqn:Hw; [| discriminate].
  assert (Ht : t = (firstn (List.length (lit "new")) t ++ c :: pre) ++ s').
  { rewrite <- (firstn_skipn (List.length (lit "new")) t) at 1. rewrite Hskip.
    now rewrite <- app_assoc. }
  rewrite Ht, (includes_start _ _ _ Hw) in Hi. discriminate.
Qed.

(** *** Calls at the head of a script *)

Lemma js_quote_accepted c : js_quote c -> accepts (OneOf [39; 34; 96]) c = true.
Proof. intros [-> | [-> | ->]]; reflexivity. Qed.

Lemma js_quote_not_space c : js_quote c -> accepts Space c = false.
Proof. intros [-> | [-> | ->]]; reflexivity. Qed.

Lemma js_quote_ends_string c : js_quote c -> accepts (NoneOf [39; 34; 96]) c = false.
Proof. intros [-> | [-> | ->]]; reflexivity. Qed.

(** The common tail of the three patterns: [\s*\(\s*], a quote, the
    captured string, a quote. *)
Lemma js_call_tail ws1 ws2 q body q' post :
  spaces ws1 -> spaces ws2 -> js_quote q -> body <> [] -> Forall js_string_char body ->
  js_quote q' ->
  match_nodes [Item (Star Space); Item (One (Chr 40)); Item (Star Space);
               Item (One (OneOf [39; 34; 96])); Group [Plus (NoneOf [39; 34; 96])];
               Item (One (OneOf [39; 34; 96]))]
    (ws1 ++ 40 :: ws2 ++ q :: body ++ q' :: post) []
    (fun caps rest => Some (caps, rest))
  = Some ([body], post).
Proof.
  intros Hws1 Hws2 Hq Hne Hbody Hq'.
  cbn [match_nodes match_item]. apply star_greedy; [exact Hws1 | reflexivity |].
  rewrite accepts_chr.
  apply star_greedy; [exact Hws2 | now apply js_quote_not_space |].
  rewrite (js_quote_accepted q Hq).
  destruct body as [| b body]; [contradiction |].
  inversion Hbody as [| ? ? Hb Hrest]; subst.
  cbn [match_items match_item app]. unfold js_string_char in Hb. rewrite Hb.
  apply star_greedy; [exact Hrest | now apply js_quote_ends_string |].
  change (b :: body ++ q' :: post) with ((b :: body) ++ q' :: post).
  rewrite consumed_app. cbn [app match_nodes match_item].
  now rewrite (js_quote_accepted q' Hq').
Qed.

Lemma js_call_match (name : str) ws1 ws2 q body q' post :
  spaces ws1 -> spaces ws2 -> js_quote q -> body <> [] -> Forall js_string_char body ->
  js_quote q' ->
  match_at (re_js_call (map (fun c => Item (One (Chr c))) name))
           (name ++ ws1 ++ 40 :: ws2 ++ q :: body ++ q' :: post)
  = Some ([body], post).
Proof.
  intros Hws1 Hws2 Hq Hne Hbody Hq'. unfold match_at, re_js_call.
  rewrite match_literal, startsWith_same, skipn_same. now apply js_call_tail.
Qed.

Lemma js_websocket_match ws0 ws1 ws2 q body q' post :
  ws0 <> [] -> spaces ws0 ->
  spaces ws1 -> spaces ws2 -> js_quote q -> body <> [] -> Forall js_string_char body ->
  js_quote q' ->
  match_at re_js_websocket
           (lit "new" ++ ws0 ++ lit "WebSocket" ++ ws1 ++ 40 :: ws2 ++ q :: body ++ q' :: post)
  = Some ([body], post).
Proof.
  intros Hne0 Hws0 Hws1 Hws2 Hq Hne Hbody Hq'.
  unfold match_at, re_js_websocket, re_js_call, chars.
  rewrite <- !app_assoc. rewrite match_literal, startsWith_same, skipn_same.
  destruct ws0 as [| w ws0]; [contradiction |].
  inversion Hws0 as [| ? ? Hw Hrest]; subst.
  cbn [app match_nodes match_item accepts]. rewrite Hw.
  apply star_greedy; [exact Hrest | reflexivity |].
  rewrite match_literal, startsWith_same, skipn_same. now apply js_call_tail.
Qed.

Ltac reassociate := repeat first [rewrite <- app_assoc | progress cbn [app]]; reflexivity.

Section WithHost.
Context {H : Host}.
Variable this : config.

(** [rewriteJavaScript] is its three replacements in turn, then the
    injection. *)
Lemma rewriteJavaScript_text_steps js sessionId targetUrl :
  rewriteJavaScript_text this js sessionId targetUrl
  = let js := rewrite_js_websocket this
               (rewrite_js_open this (rewrite_js_fetch this js targetUrl) targetUrl)
               targetUrl in
    if truthy sessionId then injectSessionManagement js sessionId else js.
Proof. reflexivity. Qed.

(** X13: A [fetch(] call with a string literal in quotes of any of the three
    kinds (also two different ones) is replaced by the call with the
    rewritten URL in single quotes, and so is [new WebSocket(] with the
    rewritten socket URL; a template literal loses its backquotes. *)
Theorem rewriteJavaScript_calls (targetUrl : value)
        (ws0 ws1 ws2 : str) (q q' : N) (body post : str) :
  ws0 <> [] -> spaces ws0 -> spaces ws1 -> spaces ws2 ->
  js_quote q -> js_quote q' -> body <> [] -> Forall js_string_char body ->
  rewrite_js_fetch this (lit "fetch" ++ ws1 ++ 40 :: ws2 ++ q :: body ++ q' :: post) targetUrl
  = lit "fetch('" ++ to_string (rewriteURL this (VStr body) targetUrl) ++ lit "'"
    ++ rewrite_js_fetch this post targetUrl /\
  rewrite_js_websocket this
    (lit "new" ++ ws0 ++ lit "WebSocket" ++ ws1 ++ 40 :: ws2 ++ q :: body ++ q' :: post)
    targetUrl
  = lit "new WebSocket('" ++ rewriteWebSocketURL this body targetUrl ++ lit "'"
    ++ rewrite_js_websocket this post targetUrl.
Proof.
  intros Hne0 Hws0 Hws1 Hws2 Hq Hq' Hne Hbody. split.
  - pose proof (js_call_match (lit "fetch") ws1 ws2 q body q' post
                  Hws1 Hws2 Hq Hne Hbody Hq') as Hm.
    unfold rewrite_js_fetch.
    replace (lit "fetch" ++ ws1 ++ 40 :: ws2 ++ q :: body ++ q' :: post)
      with ((lit "fetch" ++ ws1 ++ 40 :: ws2 ++ q :: body ++ [q']) ++ post) in *
      by reassociate.
    erewrite replace_match_head; [| reflexivity | discriminate | exact Hm].
    cbn [cap1 nth]. now rewrite <- !app_assoc.
  - pose proof (js_websocket_match ws0 ws1 ws2 q body q' post
                  Hne0 Hws0 Hws1 Hws2 Hq Hne Hbody Hq') as Hm.
    unfold rewrite_js_websocket.
    replace (lit "new" ++ ws0 ++ lit "WebSocket" ++ ws1 ++ 40 :: ws2 ++ q :: body ++ q' :: post)
      with ((lit "new" ++ ws0 ++ lit "WebSocket" ++ ws1 ++ 40 :: ws2 ++ q :: body ++ [q'])
              ++ post) in *
      by reassociate.
    erewrite replace_match_head; [| reflexivity | discriminate | exact Hm].
    cbn [cap1 nth]. now rewrite <- !app_assoc.
Qed.

Lemma open_needs_dot c t : c <> 46 -> match_at re_js_open (c :: t) = None.
Proof.
  intros Hc. unfold match_at, re_js_open, re_js_call, chars. rewrite match_literal.
  change (lit ".open") with (46 :: lit "open"). cbn [startsWith].
  now replace (46 =? c) with false by (symmetry; apply N.eqb_neq; congruence).
Qed.

(** X14: The second replacement does not rewrite a URL: its callback takes the
    captured string for the method and the offset of the match for the
    URL, so that [.open(] with a string literal becomes [.open(] with that
    string and, as a second argument, the offset in decimal; the result
    depends neither on the rewriter nor on the target. *)
Theorem rewriteJavaScript_open_offset (targetUrl : value)
        (pre ws1 ws2 : str) (q q' : N) (body post : str) :
  Forall (fun c => c <> 46) pre -> spaces ws1 -> spaces ws2 ->
  js_quote q -> js_quote q' -> body <> [] -> Forall js_string_char body ->
  (exists rest,
     rewrite_js_open this
       (pre ++ lit ".open" ++ ws1 ++ 40 :: ws2 ++ q :: body ++ q' :: post) targetUrl
     = pre ++ lit ".open('" ++ body ++ lit "', '"
           ++ to_string (VNum (Z.of_nat (List.length pre))) ++ lit "'" ++ rest) /\
  (forall (H' : Host) (this' : config) (targetUrl' : value) (js : str),
     rewrite_js_open (H := H') this' js targetUrl' = rewrite_js_open this js targetUrl).
Proof.
  intros Hpre Hws1 Hws2 Hq Hq' Hne Hbody. split; [| reflexivity].
  assert (Hm : match_at re_js_open
                 (lit ".open" ++ ws1 ++ 40 :: ws2 ++ q :: body ++ q' :: post)
               = Some ([body], post))
    by (now apply (js_call_match (lit ".open"))).
  unfold rewrite_js_open, replace.
  replace (lit ".open" ++ ws1 ++ 40 :: ws2 ++ q :: body ++ q' :: post)
    with ((lit ".open" ++ ws1 ++ 40 :: ws2 ++ q :: body ++ [q']) ++ post) in *
    by reassociate.
  set (m := lit ".open" ++ ws1 ++ 40 :: ws2 ++ q :: body ++ [q']) in *.
  replace (S (List.length (pre ++ m ++ post)))
    with (List.length pre + S (List.length (m ++ post)))%nat
    by (rewrite (length_app pre); lia).
  rewrite replace_from_copy.
  - cbn [replace_from]. rewrite Hm, consumed_app.
    cbn [cap1 nth rewriteURL Z.add].
    destruct m as [| c m'] eqn:Hmeq; [discriminate |].
    eexists. f_equal. rewrite <- !app_assoc. reflexivity.
  - intros t1 c t2 Heq. apply open_needs_dot.
    rewrite Forall_forall in Hpre. apply Hpre. rewrite Heq. apply in_or_app. right. now left.
Qed.

(** X15: A style sheet that contains neither [url(] nor [@import] is returned
    as it is. *)
Theorem rewriteCSS_untouched (css : str) (targetUrl : value) :
  includes css (lit "url(") = false ->
  includes css (lit "@import") = false ->
  rewriteCSS this (VStr css) targetUrl = Normal (VStr css).
Proof.
  intros Hurl Himport. cbn [rewriteCSS].
  unfold rewriteCSS_text, rewrite_css_urls, rewrite_css_imports, re_css_url, re_css_import, chars.
  rewrite (replace_without_literal (lit "url(")) by exact Hurl.
  now rewrite (replace_without_literal (lit "@import")) by exact Himport.
Qed.

(** X16: A script that contains none of [fetch], [.open] and [WebSocket] is
    returned as it is when no session id is given. *)
Theorem rewriteJavaScript_untouched (js : str) (sessionId targetUrl : value) :
  includes js (lit "fetch") = false ->
  includes js (lit ".open") = false ->
  includes js (lit "WebSocket") = false ->
  truthy sessionId = false ->
  rewriteJavaScript this (VStr js) sessionId targetUrl = Normal (VStr js).
Proof.
  intros Hfetch Hopen Hws Hsid. cbn [rewriteJavaScript].
  rewrite rewriteJavaScript_text_steps. cbn zeta. rewrite Hsid.
  unfold rewrite_js_fetch, rewrite_js_open, rewrite_js_websocket.
  unfold re_js_fetch, re_js_open, re_js_call, chars.
  rewrite (replace_without_literal (lit "fetch")) by exact Hfetch.
  rewrite (replace_without_literal (lit ".open")) by exact Hopen.
  do 2 f_equal. apply replace_from_none. intros pre t ->.
  apply websocket_match_includes. now apply includes_false_suffix with (pre := pre).
Qed.

(** *** Data *)

Lemma value_induction (P : value -> Prop) :
  P VUndefined -> P VNull -> (forall b, P (VBool b)) -> (forall n, P (VNum n)) ->
  (forall s, P (VStr s)) ->
  (forall items, Forall P items -> P (VArr items)) ->
  (forall props, Forall (fun kv => P (snd kv)) props -> P (VObj props)) ->
  forall v, P v.
Proof.
  intros Hu Hn Hb Hz Hs Ha Ho. fix IH 1. intros [| | b | n | s | items | props].
  - exact Hu.
  - exact Hn.
  - apply Hb.
  - apply Hz.
  - apply Hs.
  - apply Ha. induction items as [| x tl IHl]; constructor; [apply IH | exact IHl].
  - apply Ho. induction props as [| [k x] tl IHl]; constructor; [apply IH | exact IHl].
Qed.

Lemma rewriteURL_string s targetUrl :
  exists s', rewriteURL this (VStr s) targetUrl = VStr s'.
Proof.
  unfold rewriteURL. destruct (negb (truthy (VStr s))); [now eexists |].
  destruct (resolve s targetUrl) as [[url1 |] | e]; try now eexists.
  destruct (proxied this url1); now eexists.
Qed.

(** X17: [rewriteObject] changes nothing but the contents of the strings that
    parse as URLs: the constants, the lengths of the arrays and the keys
    of the objects with their order are kept, every string is replaced by
    what [rewriteURL] makes of it when it is a URL, and data without such
    a string is returned as it is.  The data has no own property named
    [__proto__]: every key is then created on the result by the
    assignment [result[key] = ...]. *)
Theorem rewriteObject_shape (obj targetUrl : value) :
  proto_free obj = true ->
  same_shape obj (rewriteObject this obj targetUrl) = true /\
  strings (rewriteObject this obj targetUrl)
  = map (fun s => if isURL (VStr s) then to_string (rewriteURL this (VStr s) targetUrl) else s)
        (strings obj) /\
  ((forall s, In s (strings obj) -> isURL (VStr s) = false) ->
   rewriteObject this obj targetUrl = obj).
Proof.
  intros _. induction obj as [| | b | n | s | items IH | props IH] using value_induction.
  - repeat split.
  - repeat split.
  - repeat split. apply Bool.eqb_reflx.
  - repeat split. apply Z.eqb_refl.
  - cbn [rewriteObject strings map]. destruct (isURL (VStr s)) eqn:Hurl.
    + destruct (rewriteURL_string s targetUrl) as [s' ->]. repeat split.
      intros Hno. rewrite (Hno s (or_introl eq_refl)) in Hurl. discriminate.
    + repeat split.
  - cbn [rewriteObject strings]. split; [| split].
    + cbn [same_shape]. induction IH as [| x tl [Hx _] _ IHtl]; [reflexivity |].
      cbn [map]. now rewrite Hx, IHtl.
    + induction IH as [| x tl (_ & Hx & _) _ IHtl]; [reflexivity |].
      cbn [map flat_map]. now rewrite Hx, IHtl, map_app.
    + intros Hno. f_equal. induction IH as [| x tl (_ & _ & Hx) _ IHtl]; [reflexivity |].
      cbn [map]. rewrite Hx, IHtl; [reflexivity | |].
      * intros s Hs. apply Hno. cbn [flat_map]. apply in_or_app. now right.
      * intros s Hs. apply Hno. cbn [flat_map]. apply in_or_app. now left.
  - cbn [rewriteObject strings]. split; [| split].
    + cbn [same_shape]. induction IH as [| [k x] tl [Hx _] _ IHtl]; [reflexivity |].
      cbn [map snd] in *. now rewrite MapFacts.str_eqb_refl, Hx, IHtl.
    + induction IH as [| [k x] tl (_ & Hx & _) _ IHtl]; [reflexivity |].
      cbn [map flat_map snd] in *. now rewrite Hx, IHtl, map_app.
    + intros Hno. f_equal. induction IH as [| [k x] tl (_ & _ & Hx) _ IHtl]; [reflexivity |].
      cbn [map snd] in *. rewrite Hx, IHtl; [reflexivity | |].
      * intros s Hs. apply Hno. cbn [flat_map]. apply in_or_app. now right.
      * intros s Hs. apply Hno. cbn [flat_map]. apply in_or_app. now left.
Qed.

End WithHost.

(** *** The theorems at concrete scripts and data *)

Lemma rewriteJavaScript_calls_witness :
  rewrite_js_fetch (H := example_host) example_config
    (lit "fetch" ++ [] ++ 40 :: [] ++ 96 :: lit "/api" ++ 96 :: lit ")")
    (VStr (lit "https://a.com/page"))
  = lit "fetch('"
    ++ to_string (rewriteURL (H := example_host) example_config (VStr (lit "/api"))
                    (VStr (lit "https://a.com/page")))
    ++ lit "'"
    ++ rewrite_js_fetch (H := example_host) example_config (lit ")")
         (VStr (lit "https://a.com/page")) /\
  rewrite_js_websocket (H := example_host) example_config
    (lit "new" ++ [32] ++ lit "WebSocket" ++ [] ++ 40 :: [] ++ 96 :: lit "/api" ++ 96 :: lit ")")
    (VStr (lit "https://a.com/page"))
  = lit "new WebSocket('"
    ++ rewriteWebSocketURL (H := example_host) example_config (lit "/api")
         (VStr (lit "https://a.com/page"))
    ++ lit "'"
    ++ rewrite_js_websocket (H := example_host) example_config (lit ")")
         (VStr (lit "https://a.com/page")).
Proof.
  apply (rewriteJavaScript_calls (H := example_host) example_config
           (VStr (lit "https://a.com/page")) [32] [] [] 96 96 (lit "/api") (lit ")")).
  - discriminate.
  - repeat constructor.
  - constructor.
  - constructor.
  - right. now right.
  - right. now right.
  - discriminate.
  - repeat constructor.
Defined.

Lemma rewriteJavaScript_open_offset_witness :
  (exists rest,
     rewrite_js_open (H := example_host) example_config
       (lit "xhr" ++ lit ".open" ++ [] ++ 40 :: [] ++ 39 :: lit "GET" ++ 39 :: lit ", '/api')")
       (VStr (lit "https://a.com/page"))
     = lit "xhr" ++ lit ".open('" ++ lit "GET" ++ lit "', '"
           ++ to_string (VNum (Z.of_nat (List.length (lit "xhr")))) ++ lit "'" ++ rest) /\
  (forall (H' : Host) (this' : config) (targetUrl' : value) (js : str),
     rewrite_js_open (H := H') this' js targetUrl'
     = rewrite_js_open (H := example_host) example_config js (VStr (lit "https://a.com/page"))).
Proof.
  apply (rewriteJavaScript_open_offset (H := example_host) example_config
           (VStr (lit "https://a.com/page")) (lit "xhr") [] [] 39 39 (lit "GET")
           (lit ", '/api')")).
  - repeat constructor; discriminate.
  - constructor.
  - constructor.
  - now left.
  - now left.
  - discriminate.
  - repeat constructor.
Defined.

Lemma rewriteCSS_untouched_witness :
  rewriteCSS (H := example_host) example_config (VStr (lit "body{color:red}"))
             (VStr (lit "https://a.com/page"))
  = Normal (VStr (lit "body{color:red}")).
Proof.
  apply (rewriteCSS_untouched (H := example_host) example_config (lit "body{color:red}")
           (VStr (lit "https://a.com/page"))); reflexivity.
Defined.

Lemma rewriteJavaScript_untouched_witness :
  rewriteJavaScript (H := example_host) example_config (VStr (lit "let news = 1;"))
                    VUndefined (VStr (lit "https://a.com/page"))
  = Normal (VStr (lit "let news = 1;")).
Proof.
  apply (rewriteJavaScript_untouched (H := example_host) example_config (lit "let news = 1;")
           VUndefined (VStr (lit "https://a.com/page"))); reflexivity.
Defined.

Lemma rewriteObject_shape_witness :
  same_shape example_data
    (rewriteObject (H := example_host) example_config example_data
                   (VStr (lit "https://a.com/page"))) = true /\
  strings (rewriteObject (H := example_host) example_config example_data
                         (VStr (lit "https://a.com/page")))
  = map (fun s => if isURL (H := example_host) (VStr s)
                  then to_string (rewriteURL (H := example_host) example_config (VStr s)
                                    (VStr (lit "https://a.com/page")))
                  else s)
        (strings example_data) /\
  ((forall s, In s (strings example_data) -> isURL (H := example_host) (VStr s) = false) ->
   rewriteObject (H := example_host) example_config example_data
                 (VStr (lit "https://a.com/page")) = example_data).
Proof.
  apply (rewriteObject_shape (H := example_host) example_config example_data
           (VStr (lit "https://a.com/page"))).
  reflexivity.
Defined.

End StagesFacts.
(** ** The handlers that correct headers *)

Module HandlersFacts.
Import JS Regex Middleware RegexFacts MapFacts MoreFacts StagesFacts Handlers.
Local Open Scope string_scope.
Local Open Scope list_scope.
Local Open Scope N_scope.

(** *** Replacing the first match *)

Lemma substitute_plain replacement matched before after :
  Forall (fun c => c <> 36) replacement ->
  substitute replacement matched before after = replacement.
Proof.
  induction 1 as [| c tl Hc _ IH]; [reflexivity |].
  cbn [substitute]. replace (c =? 36) with false by (symmetry; now apply N.eqb_neq).
  now rewrite IH.
Qed.

Section First.
Variable matcher : str -> option (list str * str).
Variable replacement : str.

Lemma replace_first_none : forall s before,
  (forall pre t, s = pre ++ t -> matcher t = None) ->
  replace_first_from matcher replacement before s = s.
Proof.
  induction s as [| c s IH]; intros before Hno; cbn [replace_first_from].
  - now rewrite (Hno [] [] eq_refl).
  - rewrite (Hno [] (c :: s) eq_refl). f_equal. apply IH.
    intros pre t ->. now apply (Hno (c :: pre) t).
Qed.

Lemma replace_first_at : forall pre before t caps rest,
  (forall t1 c t2, pre = t1 ++ c :: t2 -> matcher (c :: t2 ++ t) = None) ->
  matcher t = Some (caps, rest) ->
  replace_first_from matcher replacement before (pre ++ t)
  = pre ++ substitute replacement (consumed t rest) (before ++ pre) rest ++ rest.
Proof.
  induction pre as [| c pre IH]; intros before t caps rest Hno Hm.
  - cbn [app]. rewrite app_nil_r. destruct t; cbn [replace_first_from]; now rewrite Hm.
  - cbn [app replace_first_from]. rewrite (Hno [] c pre eq_refl). f_equal.
    rewrite (IH (before ++ [c]) t caps rest); [now rewrite <- app_assoc | | exact Hm].
    intros t1 c' t2 ->. now apply (Hno (c :: t1) c' t2).
Qed.
End First.

(** *** Occurrences *)

Lemma startsWith_within : forall p u v,
  (List.length p <= List.length u)%nat -> startsWith (u ++ v) p = startsWith u p.
Proof.
  induction p as [| a p IH]; intros u v Hl; [now destruct u, v |].
  destruct u as [| b u]; [cbn [List.length] in Hl; lia |].
  cbn [app startsWith]. cbn [List.length] in Hl. rewrite IH by lia. reflexivity.
Qed.

(** The first occurrence of [p] in a text that contains it. *)
Lemma first_occurrence p : forall s,
  includes s p = true ->
  exists pre post,
    s = pre ++ post /\ startsWith post p = true /\
    forall t1 c t2, pre = t1 ++ c :: t2 -> startsWith (c :: t2 ++ post) p = false.
Proof.
  induction s as [| c s IH]; cbn [includes]; intros Hi.
  - exists [], []. rewrite orb_false_r in Hi. repeat split; [exact Hi |].
    intros t1 c t2 Heq. now destruct t1.
  - destruct (startsWith (c :: s) p) eqn:Hs.
    + exists [], (c :: s). repeat split; [exact Hs |]. intros t1 c' t2 Heq. now destruct t1.
    + cbn [orb] in Hi. destruct (IH Hi) as (pre & post & -> & Hpost & Hfirst).
      exists (c :: pre), post. repeat split; [exact Hpost |].
      intros [| c1 t1] c' t2 Heq; cbn [app] in Heq; injection Heq as -> ->.
      * exact Hs.
      * now apply (Hfirst t1 c' t2).
Qed.

(** A text is a run of characters that are not [x], then nothing or
    [x]. *)
Lemma span_until (x : N) : forall s,
  exists body rest,
    s = body ++ rest /\ Forall (fun c => c <> x) body /\ starts_with_or_empty x rest.
Proof.
  induction s as [| c s (body & rest & -> & Hbody & Hrest)].
  - exists [], []. repeat split; [constructor | now left].
  - destruct (N.eq_dec c x) as [-> | Hne].
    + exists [], (x :: body ++ rest). repeat split; [constructor | right; now eexists].
    + exists (c :: body), rest. repeat split; [now constructor | exact Hrest].
Qed.

(** *** [cookieManager]: the path of a cookie *)

Lemma cookie_path_match body rest :
  Forall (fun c => c <> 59) body -> starts_with_or_empty 59 rest ->
  match_at re_cookie_path (lit "Path=/" ++ body ++ rest) = Some ([], rest).
Proof.
  intros Hbody Hrest. unfold match_at, re_cookie_path, chars.
  rewrite match_literal, startsWith_same, skipn_same.
  cbn [match_nodes match_item]. apply star_greedy; [| | reflexivity].
  - eapply Forall_impl; [| exact Hbody]. intros c Hc. cbn [accepts existsb].
    now replace (c =? 59) with false by (symmetry; now apply N.eqb_neq).
  - destruct Hrest as [-> | [tl ->]]; [exact I | reflexivity].
Qed.

Lemma cookie_path_needs_literal t :
  startsWith t (lit "Path=/") = false -> match_at re_cookie_path t = None.
Proof.
  intros Hs. unfold match_at, re_cookie_path, chars. now rewrite match_literal, Hs.
Qed.

Lemma fix_path_at pre body rest :
  (forall t1 c t2, pre = t1 ++ c :: t2 ->
     startsWith (c :: t2 ++ lit "Path=/") (lit "Path=/") = false) ->
  Forall (fun c => c <> 59) body -> starts_with_or_empty 59 rest ->
  fix_path (pre ++ lit "Path=/" ++ body ++ rest) = pre ++ lit "Path=/" ++ rest.
Proof.
  intros Hfirst Hbody Hrest. unfold fix_path, replace_first.
  rewrite (replace_first_at _ _ pre [] _ [] rest).
  - rewrite substitute_plain; [reflexivity |].
    repeat (apply Forall_cons; [discriminate |]). apply Forall_nil.
  - intros t1 c t2 Heq. apply cookie_path_needs_literal.
    change (c :: t2 ++ lit "Path=/" ++ body ++ rest)
      with ((c :: t2) ++ lit "Path=/" ++ body ++ rest).
    rewrite app_assoc, startsWith_within; [now apply (Hfirst t1) |].
    rewrite length_app. cbn. lia.
  - now apply cookie_path_match.
Qed.

(** X18: What [cookieManager] does to a cookie: the first [Path=/...]
    attribute, up to the next semicolon, becomes [Path=/]; a cookie
    without the characters [Path=/] (thus also one that spells its
    attribute [path=]) stays as it is; doing it twice changes nothing
    more. *)
Theorem fix_path_resets (pre body rest cookie : str) :
  includes (pre ++ lit "Path=") (lit "Path=/") = false ->
  Forall (fun c => c <> 59) body ->
  starts_with_or_empty 59 rest ->
  fix_path (pre ++ lit "Path=/" ++ body ++ rest) = pre ++ lit "Path=/" ++ rest /\
  (includes cookie (lit "Path=/") = false -> fix_path cookie = cookie) /\
  fix_path (fix_path cookie) = fix_path cookie.
Proof.
  intros Hpre Hbody Hrest.
  assert (Hplain : forall s, includes s (lit "Path=/") = false -> fix_path s = s).
  { intros s Hi. unfold fix_path, replace_first. apply replace_first_none.
    intros p t ->. apply cookie_path_needs_literal.
    now apply includes_false_start, includes_false_suffix with (pre := p). }
  split; [| split; [apply Hplain |]].
  - apply fix_path_at; [| exact Hbody | exact Hrest].
    intros t1 c t2 Heq.
    replace (c :: t2 ++ lit "Path=/") with ((c :: t2 ++ lit "Path=") ++ lit "/")
      by (cbn [app]; now rewrite <- app_assoc).
    rewrite startsWith_within by (cbn [List.length]; rewrite length_app; cbn; lia).
    apply includes_false_start. apply includes_false_suffix with (pre := t1).
    rewrite Heq in Hpre. now rewrite <- app_assoc in Hpre.
  - destruct (includes cookie (lit "Path=/")) eqn:Hi; [| now rewrite !(Hplain cookie Hi)].
    destruct (first_occurrence _ _ Hi) as (p & post & -> & Hpost & Hfirst).
    apply startsWith_prefix in Hpost as [tail ->].
    destruct (span_until 59 tail) as (b & r & -> & Hb & Hr).
    assert (Hp : forall t1 c t2, p = t1 ++ c :: t2 ->
                 startsWith (c :: t2 ++ lit "Path=/") (lit "Path=/") = false).
    { intros t1 c t2 Heq. pose proof (Hfirst t1 c t2 Heq) as Hf.
      change (c :: t2 ++ lit "Path=/" ++ b ++ r)
        with ((c :: t2) ++ lit "Path=/" ++ b ++ r) in Hf.
      rewrite app_assoc, startsWith_within in Hf by (rewrite length_app; cbn; lia).
      exact Hf. }
    rewrite (fix_path_at p b r Hp Hb Hr).
    apply (fix_path_at p [] r Hp); [constructor | exact Hr].
Qed.

Lemma fix_path_resets_witness :
  fix_path (lit "sid=1; " ++ lit "Path=/" ++ lit "app" ++ lit "; HttpOnly")
  = lit "sid=1; " ++ lit "Path=/" ++ lit "; HttpOnly" /\
  (includes (lit "sid=1; path=/app") (lit "Path=/") = false ->
   fix_path (lit "sid=1; path=/app") = lit "sid=1; path=/app") /\
  fix_path (fix_path (lit "sid=1; path=/app")) = fix_path (lit "sid=1; path=/app").
Proof.
  apply (fix_path_resets (lit "sid=1; ") (lit "app") (lit "; HttpOnly") (lit "sid=1; path=/app")).
  - reflexivity.
  - repeat constructor; discriminate.
  - right. now eexists.
Defined.

(** *** [cookieManager]: the handler *)

Lemma set_field_same ctx k f : get_field ctx k = Some f -> set_field ctx k f = ctx.
Proof.
  induction ctx as [| [k' f'] tl IH]; [discriminate |].
  cbn [get_field set_field]. destruct (String.eqb k' k).
  - now intros [= ->].
  - intros Hg. now rewrite IH.
Qed.

Lemma map_cookies_strings cookies :
  map_cookies (map VStr cookies) = Normal (map VStr (map fix_path cookies)).
Proof.
  induction cookies as [| c tl IH]; [reflexivity |].
  cbn [map map_cookies string_replace bind]. now rewrite IH.
Qed.

Lemma map_cookies_other items :
  Exists (fun v => forall s, v <> VStr s) items -> map_cookies items = Throw TypeError.
Proof.
  induction 1 as [v tl Hv | v tl _ IH]; cbn [map_cookies].
  - destruct v; try reflexivity. now destruct (Hv s).
  - destruct v; try reflexivity. cbn [string_replace bind]. now rewrite IH.
Qed.

(** X19: [cookieManager] on a response with headers: an array of cookie
    strings under [set-cookie] is replaced by the array of the cookies
    with their paths reset, and nothing else changes; an array with an
    entry that is not a string makes the handler throw a TypeError and
    leaves the context as it was; a value that is not an array (a single
    cookie string) and a missing header are left alone. *)
Theorem cookieManager_rewrites {world : Type} (ctx : context) (w : world)
        (props headers : list (str * value)) :
  get_field ctx "response" = Some (Data (VObj props)) ->
  lookup props (lit "headers") = Some (VObj headers) ->
  (forall cookies,
     lookup headers (lit "set-cookie") = Some (VArr (map VStr cookies)) ->
     cookieManager ctx w
     = (set_field ctx "response"
          (Data (VObj (Map.set props (lit "headers")
                         (VObj (Map.set headers (lit "set-cookie")
                                  (VArr (map VStr (map fix_path cookies)))))))),
        w, Normal tt)) /\
  (forall items,
     lookup headers (lit "set-cookie") = Some (VArr items) ->
     Exists (fun v => forall s, v <> VStr s) items ->
     cookieManager ctx w = (ctx, w, Throw TypeError)) /\
  (forall v,
     lookup headers (lit "set-cookie") = Some v -> (forall items, v <> VArr items) ->
     cookieManager ctx w = (ctx, w, Normal tt)) /\
  (lookup headers (lit "set-cookie") = None -> cookieManager ctx w = (ctx, w, Normal tt)).
Proof.
  intros Hresponse Hheaders.
  assert (Hstep : cookieManager ctx w
    = let '(response', c) := cookieManager_response (VObj props) in
      (set_field ctx "response" (Data response'), w, c)).
  { unfold cookieManager. now rewrite Hresponse. }
  assert (Hbody : cookieManager_response (VObj props)
    = match lookup headers (lit "set-cookie") with
      | Some cookies =>
        if negb (truthy cookies) then (VObj props, Normal tt) else
        match cookies with
        | VArr items =>
          match map_cookies items with
          | Normal items' =>
            (VObj (Map.set props (lit "headers")
                     (VObj (Map.set headers (lit "set-cookie") (VArr items')))), Normal tt)
          | Throw e => (VObj props, Throw e)
          end
        | _ => (VObj props, Normal tt)
        end
      | None => (VObj props, Normal tt)
      end).
  { unfold cookieManager_response. cbn [get_prop]. rewrite Hheaders. cbn [truthy negb get_prop].
    now destruct (lookup headers (lit "set-cookie")). }
  rewrite Hstep, Hbody. repeat split.
  - intros cookies ->. cbn [truthy negb]. now rewrite map_cookies_strings.
  - intros items -> Hex. cbn [truthy negb]. rewrite (map_cookies_other items Hex).
    now rewrite (set_field_same _ _ _ Hresponse).
  - intros v -> Hv.
    destruct v; try (destruct (negb (truthy _)); now rewrite (set_field_same _ _ _ Hresponse)).
    now destruct (Hv items).
  - intros ->. now rewrite (set_field_same _ _ _ Hresponse).
Qed.

Lemma cookieManager_rewrites_witness :
  (forall cookies,
     lookup [(lit "set-cookie", VArr [VStr (lit "sid=1; Path=/app"); VStr (lit "lang=en")])]
            (lit "set-cookie") = Some (VArr (map VStr cookies)) ->
     cookieManager [("response", Data cookie_response)] tt
     = (set_field [("response", Data cookie_response)] "response"
          (Data (VObj (Map.set [(lit "headers",
                                 VObj [(lit "set-cookie",
                                        VArr [VStr (lit "sid=1; Path=/app");
                                              VStr (lit "lang=en")])])]
                         (lit "headers")
                         (VObj (Map.set [(lit "set-cookie",
                                          VArr [VStr (lit "sid=1; Path=/app");
                                                VStr (lit "lang=en")])]
                                  (lit "set-cookie")
                                  (VArr (map VStr (map fix_path cookies)))))))),
        tt, Normal tt)) /\
  (forall items,
     lookup [(lit "set-cookie", VArr [VStr (lit "sid=1; Path=/app"); VStr (lit "lang=en")])]
            (lit "set-cookie") = Some (VArr items) ->
     Exists (fun v => forall s, v <> VStr s) items ->
     cookieManager [("response", Data cookie_response)] tt
     = ([("response", Data cookie_response)], tt, Throw TypeError)) /\
  (forall v,
     lookup [(lit "set-cookie", VArr [VStr (lit "sid=1; Path=/app"); VStr (lit "lang=en")])]
            (lit "set-cookie") = Some v -> (forall items, v <> VArr items) ->
     cookieManager [("response", Data cookie_response)] tt
     = ([("response", Data cookie_response)], tt, Normal tt)) /\
  (lookup [(lit "set-cookie", VArr [VStr (lit "sid=1; Path=/app"); VStr (lit "lang=en")])]
          (lit "set-cookie") = None ->
   cookieManager [("response", Data cookie_response)] tt
   = ([("response", Data cookie_response)], tt, Normal tt)).
Proof.
  apply (cookieManager_rewrites (world := unit) [("response", Data cookie_response)] tt
           [(lit "headers",
             VObj [(lit "set-cookie",
                    VArr [VStr (lit "sid=1; Path=/app"); VStr (lit "lang=en")])])]
           [(lit "set-cookie", VArr [VStr (lit "sid=1; Path=/app"); VStr (lit "lang=en")])]).
  - reflexivity.
  - reflexivity.
Defined.

(** *** [headerCorrection]: the port of the host *)

Lemma digit_accepted d : is_digit d <-> accepts (OneOf digits) d = true.
Proof.
  unfold is_digit, digits. cbn [accepts existsb]. rewrite !orb_true_iff, !N.eqb_eq.
  split; [| intros [-> | [-> | [-> | [-> | [-> | [-> | [-> | [-> | [-> | [-> | H]]]]]]]]]];
             [lia .. | discriminate]].
  intros Hd.
  assert (Hcases : d = 48 \/ d = 49 \/ d = 50 \/ d = 51 \/ d = 52 \/ d = 53 \/ d = 54
                   \/ d = 55 \/ d = 56 \/ d = 57) by lia.
  tauto.
Qed.

(** A greedy run before the end of the input takes all that is left. *)
Lemma star_to_end {R} a s (k : str -> option R) r :
  (forall c rest, k (c :: rest) = None) ->
  star a s k = Some r -> Forall (fun c => accepts a c = true) s.
Proof.
  intros Hend. induction s as [| c s IH]; cbn [star]; intros Hm; [constructor |].
  destruct (accepts a c) eqn:Hc; [| now rewrite Hend in Hm].
  rewrite Hend in Hm. unfold first_of in Hm.
  destruct (star a s k) as [r' |] eqn:Hs; [| discriminate].
  constructor; [exact Hc | now apply IH].
Qed.

Lemma port_match ds :
  ds <> [] -> Forall is_digit ds -> match_at_end re_port (58 :: ds) = Some ([], []).
Proof.
  intros Hne Hds. destruct ds as [| d ds]; [contradiction |].
  inversion Hds as [| ? ? Hd Hrest]; subst.
  unfold match_at_end, re_port. cbn [match_nodes match_item]. rewrite RewriterFacts.accepts_chr.
  apply digit_accepted in Hd. rewrite Hd.
  rewrite <- (app_nil_r ds). apply star_greedy; [| exact I | reflexivity].
  eapply Forall_impl; [| exact Hrest]. intros c. apply digit_accepted.
Qed.

Lemma port_match_inv t r :
  match_at_end re_port t = Some r ->
  exists ds, t = 58 :: ds /\ ds <> [] /\ Forall is_digit ds.
Proof.
  unfold match_at_end, re_port. cbn [match_nodes match_item].
  destruct t as [| c t]; [discriminate |].
  destruct (accepts (Chr 58) c) eqn:Hc; [| discriminate].
  cbn [accepts] in Hc. apply N.eqb_eq in Hc. subst c.
  destruct t as [| d t]; [discriminate |].
  destruct (accepts (OneOf digits) d) eqn:Hd; [| discriminate].
  intros Hm. apply star_to_end in Hm; [| reflexivity].
  exists (d :: t). repeat split; [discriminate |].
  constructor; [now apply digit_accepted |].
  eapply Forall_impl; [| exact Hm]. intros c. apply digit_accepted.
Qed.

(** X20: [headerCorrection] takes the port off the host: a colon and digits at
    the very end are removed, and only there; a host that does not end
    that way (a name alone, a bracketed address) stays as it is. *)
Theorem fix_host_strips_port (h ds : str) :
  ds <> [] -> Forall is_digit ds ->
  fix_host (h ++ 58 :: ds) = h /\
  (forall s, ~ has_port s -> fix_host s = s).
Proof.
  intros Hne Hds. split.
  - unfold fix_host, replace_first.
    rewrite (replace_first_at _ _ h [] (58 :: ds) [] []).
    + cbn [substitute app]. now rewrite app_nil_r.
    + intros t1 c t2 Heq.
      destruct (match_at_end re_port (c :: t2 ++ 58 :: ds)) as [r |] eqn:Hm; [| reflexivity].
      apply port_match_inv in Hm as (ds' & Heq' & _ & Hds').
      injection Heq' as -> <-. apply Forall_app in Hds' as [_ Hcolon].
      inversion Hcolon as [| ? ? H58 _]. unfold is_digit in H58. lia.
    + now apply port_match.
  - intros s Hno. unfold fix_host, replace_first. apply replace_first_none.
    intros pre t ->. destruct (match_at_end re_port t) as [r |] eqn:Hm; [| reflexivity].
    apply port_match_inv in Hm as (ds' & -> & Hne' & Hds').
    destruct Hno. now exists pre, ds'.
Qed.

Lemma fix_host_strips_port_witness :
  fix_host (lit "a.com" ++ 58 :: lit "8080") = lit "a.com" /\
  (forall s, ~ has_port s -> fix_host s = s).
Proof.
  apply (fix_host_strips_port (lit "a.com") (lit "8080")).
  - discriminate.
  - repeat constructor; unfold is_digit; cbn; lia.
Defined.

(** *** [headerCorrection]: the origin of the referer *)

Lemma origin_match scheme authority rest :
  scheme = lit "http" \/ scheme = lit "https" ->
  authority <> [] -> Forall (fun c => c <> 47) authority -> starts_with_or_empty 47 rest ->
  match_at re_origin (scheme ++ lit "://" ++ authority ++ rest) = Some ([], rest).
Proof.
  intros Hscheme Hne Hauth Hrest.
  assert (Htail : forall caps,
    match_nodes (chars "://" ++ [Item (Plus (NoneOf [47]))])
                (lit "://" ++ authority ++ rest) caps
                (fun caps rest => Some (caps, rest)) = Some (caps, rest)).
  { intros caps. unfold chars. rewrite match_literal, startsWith_same, skipn_same.
    destruct authority as [| a authority]; [contradiction |].
    inversion Hauth as [| ? ? Ha Hrest']; subst.
    cbn [app match_nodes match_item accepts existsb].
    replace (a =? 47) with false by (symmetry; now apply N.eqb_neq). cbn [orb negb].
    apply star_greedy; [| | reflexivity].
    - eapply Forall_impl; [| exact Hrest']. intros c Hc. cbn [accepts existsb].
      now replace (c =? 47) with false by (symmetry; now apply N.eqb_neq).
    - destruct Hrest as [-> | [tl ->]]; [exact I | reflexivity]. }
  unfold match_at, re_origin. unfold chars at 1.
  destruct Hscheme as [-> | ->].
  - rewrite match_literal, startsWith_same, skipn_same.
    change (lit "://" ++ authority ++ rest) with (58 :: lit "//" ++ authority ++ rest).
    cbn [app match_nodes match_item]. 
    change (accepts (Chr 115) 58) with false. cbv iota.
    apply (Htail []).
  - change (lit "https" ++ lit "://" ++ authority ++ rest)
      with (lit "http" ++ 115 :: lit "://" ++ authority ++ rest).
    rewrite match_literal, startsWith_same, skipn_same.
    cbn [app match_nodes match_item]. rewrite RewriterFacts.accepts_chr.
    unfold first_of. now rewrite (Htail []).
Qed.

(** X21: [headerCorrection] puts the proxy in the place of the origin of the
    referer: [http://] or [https://] and the authority that follows are
    replaced by [context.proxyUrl] (by nothing when it is missing) and the
    path stays; a referer that does not start with [http] stays as it
    is.  The proxy URL holds no [$], which [replace] would expand. *)
Theorem fix_referer_origin (proxyUrl : value) (scheme authority rest : str) :
  scheme = lit "http" \/ scheme = lit "https" ->
  authority <> [] -> Forall (fun c => c <> 47) authority -> starts_with_or_empty 47 rest ->
  Forall (fun c => c <> 36) (Rewriter.to_string (or_else proxyUrl (VStr []))) ->
  fix_referer proxyUrl (scheme ++ lit "://" ++ authority ++ rest)
  = Rewriter.to_string (or_else proxyUrl (VStr [])) ++ rest /\
  (forall referer,
     startsWith referer (lit "http") = false -> fix_referer proxyUrl referer = referer).
Proof.
  intros Hscheme Hne Hauth Hrest Hplain. split.
  - unfold fix_referer, replace_at_start.
    rewrite (origin_match scheme authority rest Hscheme Hne Hauth Hrest).
    now rewrite substitute_plain.
  - intros referer Hs. unfold fix_referer, replace_at_start, match_at, re_origin.
    unfold chars at 1. now rewrite match_literal, Hs.
Qed.

Lemma fix_referer_origin_witness :
  fix_referer (VStr (lit "http://p")) (lit "https" ++ lit "://" ++ lit "a.com" ++ lit "/page")
  = Rewriter.to_string (or_else (VStr (lit "http://p")) (VStr [])) ++ lit "/page" /\
  (forall referer,
     startsWith referer (lit "http") = false ->
     fix_referer (VStr (lit "http://p")) referer = referer).
Proof.
  apply (fix_referer_origin (VStr (lit "http://p")) (lit "https") (lit "a.com") (lit "/page")).
  - now right.
  - discriminate.
  - repeat constructor; discriminate.
  - right. now eexists.
  - repeat constructor; discriminate.
Defined.

(** *** [headerCorrection]: the handler *)

Lemma correct_header_string headers name s f :
  lookup headers name = Some (VStr s) -> s <> [] ->
  correct_header (VObj headers) name f
  = (VObj (Map.set headers name (VStr (f s))), Normal tt).
Proof.
  intros Hl Hne. unfold correct_header. cbn [get_prop]. rewrite Hl.
  destruct s as [| c s]; [contradiction | reflexivity].
Qed.

(** X22: On a request whose headers hold a host and a referer, the handler
    corrects both and changes nothing else; on a request without
    [headers] it throws a TypeError and leaves the context as it was. *)
Theorem headerCorrection_corrects {world : Type} (ctx : context) (w : world)
        (props : list (str * value)) :
  get_field ctx "request" = Some (Data (VObj props)) ->
  (forall headers host referer,
     lookup props (lit "headers") = Some (VObj headers) ->
     lookup headers (lit "host") = Some (VStr host) -> host <> [] ->
     lookup headers (lit "referer") = Some (VStr referer) -> referer <> [] ->
     headerCorrection ctx w
     = (set_field ctx "request"
          (Data (VObj (Map.set props (lit "headers")
             (VObj (Map.set (Map.set headers (lit "host") (VStr (fix_host host)))
                            (lit "referer")
                            (VStr (fix_referer (context_value ctx "proxyUrl") referer))))))),
        w, Normal tt)) /\
  (lookup props (lit "headers") = None ->
   headerCorrection ctx w = (ctx, w, Throw TypeError)).
Proof.
  intros Hrequest. split.
  - intros headers host referer Hheaders Hhost Hhostne Hreferer Hrefne.
    unfold headerCorrection. rewrite Hrequest. cbn [truthy].
    unfold headerCorrection_request. cbn [get_prop]. rewrite Hheaders.
    rewrite (correct_header_string headers _ host _ Hhost Hhostne).
    rewrite (correct_header_string _ _ referer); [reflexivity | | exact Hrefne].
    now rewrite lookup_get, get_set_other, <- lookup_get by discriminate.
  - intros Hnone. unfold headerCorrection. rewrite Hrequest. cbn [truthy].
    unfold headerCorrection_request. cbn [get_prop]. rewrite Hnone.
    cbn. now rewrite (set_field_same _ _ _ Hrequest).
Qed.

Lemma headerCorrection_corrects_witness :
  (forall headers host referer,
     lookup [(lit "headers",
              VObj [(lit "host", VStr (lit "a.com:8080"));
                    (lit "referer", VStr (lit "https://a.com/page"))])]
            (lit "headers") = Some (VObj headers) ->
     lookup headers (lit "host") = Some (VStr host) -> host <> [] ->
     lookup headers (lit "referer") = Some (VStr referer) -> referer <> [] ->
     headerCorrection [("request", Data plain_request)] tt
     = (set_field [("request", Data plain_request)] "request"
          (Data (VObj (Map.set [(lit "headers",
                                 VObj [(lit "host", VStr (lit "a.com:8080"));
                                       (lit "referer", VStr (lit "https://a.com/page"))])]
                         (lit "headers")
             (VObj (Map.set (Map.set headers (lit "host") (VStr (fix_host host)))
                            (lit "referer")
                            (VStr (fix_referer
                                     (context_value [("request", Data plain_request)] "proxyUrl")
                                     referer))))))),
        tt, Normal tt)) /\
  (lookup [(lit "headers",
            VObj [(lit "host", VStr (lit "a.com:8080"));
                  (lit "referer", VStr (lit "https://a.com/page"))])]
          (lit "headers") = None ->
   headerCorrection [("request", Data plain_request)] tt
   = ([("request", Data plain_request)], tt, Throw TypeError)).
Proof.
  apply (headerCorrection_corrects (world := unit) [("request", Data plain_request)] tt
           [(lit "headers",
             VObj [(lit "host", VStr (lit "a.com:8080"));
                   (lit "referer", VStr (lit "https://a.com/page"))])]).
  reflexivity.
Defined.

End HandlersFacts.
(** ** [rewriteContent]: the choice of the rewriter *)

Module ContentFacts.
Import JS Rewriter ExampleHost Stages SessionAccess JsonExample.

Section WithHost.
Context {H : Host}.
Variable this : config.



End WithHost.


(** The JSON text of a link comes back as the JSON text of its gateway
    URL. *)
Lemma rewriteContent_json_example :
  rewriteContent (H := json_host) example_config (VStr json_link)
                 (VStr (lit "application/json"))
                 (VObj [(lit "targetUrl", VStr (lit "https://a.com/page"))])
  = Normal (VStr (34%N :: lit "http://p/api/gateway?url=https%3A%2F%2Fa.com%2Fx" ++ [34%N])).
Proof. vm_compute. reflexivity. Qed.

End ContentFacts.
(** ** The session store: invariants *)

Module SessionInvariants.
Import JS Sessions SessionAccess MapFacts MoreFacts SessionAccessFacts.
Local Open Scope Z_scope.

Lemma keyed_set (store : Map.t session) k s :
  Forall (fun kv => id (snd kv) = fst kv) store -> id s = k ->
  Forall (fun kv => id (snd kv) = fst kv) (Map.set store k s).
Proof.
  intros Hall Hid. induction Hall as [| [k' s'] tl Hk Htl IH]; cbn [Map.set].
  - constructor; [exact Hid | constructor].
  - destruct (str_eqb k' k) eqn:Heq.
    + apply str_eqb_eq in Heq. subst k'. constructor; [exact Hid | exact Htl].
    + constructor; [exact Hk | exact IH].
Qed.

Lemma keyed_filter (f : str * session -> bool) (store : Map.t session) :
  Forall (fun kv => id (snd kv) = fst kv) store ->
  Forall (fun kv => id (snd kv) = fst kv) (filter f store).
Proof.
  intros Hall. apply Forall_forall. intros kv [Hin _]%filter_In.
  rewrite Forall_forall in Hall. now apply Hall.
Qed.

Lemma keyed_delete_all ks : forall store : Map.t session,
  Forall (fun kv => id (snd kv) = fst kv) store ->
  Forall (fun kv => id (snd kv) = fst kv) (delete_all ks store).
Proof.
  unfold delete_all. induction ks as [| k ks IH]; intros store Hall; [exact Hall |].
  cbn [fold_left]. apply IH. now apply keyed_filter.
Qed.

Lemma keyed_evict sortedSessions : forall count i (store : Map.t session),
  Forall (fun kv => id (snd kv) = fst kv) store ->
  Forall (fun kv => id (snd kv) = fst kv) (fst (evict sortedSessions i count store)).
Proof.
  induction count as [| count IH]; intros i store Hall; [exact Hall |].
  cbn [evict]. destruct (nth_error sortedSessions i); [| exact Hall].
  apply IH. now apply keyed_filter.
Qed.

Lemma keyed_known (m : manager) k s :
  keyed_by_id m -> Map.get (sessions m) k = Some s -> id s = k.
Proof.
  intros Hall Hg. apply get_in in Hg. unfold keyed_by_id in Hall.
  rewrite Forall_forall in Hall. exact (Hall _ Hg).
Qed.

Lemma keyed_cleanup m now : keyed_by_id m -> keyed_by_id (fst (cleanupOldSessions m now)).
Proof.
  unfold keyed_by_id, cleanupOldSessions. intros Hall.
  pose proof (keyed_delete_all (toDelete m now) _ Hall) as Hfirst.
  destruct (Map.size _ >? maxSessions m); [| exact Hfirst].
  pose proof (keyed_evict (sort_entries (Map.entries (delete_all (toDelete m now) (sessions m))))
                (Z.to_nat (Map.size (delete_all (toDelete m now) (sessions m)) - maxSessions m))
                0 _ Hfirst) as Hsecond.
  now destruct (evict _ 0 _ _).
Qed.

(** X24: In a store whose sessions have [Map] objects for their jar and
    their mirrors, as [createSession] and [importSession] make them and
    as [updateSession] leaves them when it is given [Map] objects for
    them or nothing, every session is stored under its own id: the store
    of a new manager is, and every method keeps it so.  [getStats]
    therefore lists the ids under which the sessions are stored, in the
    order of the store, one entry for each session. *)
Theorem sessions_keyed_by_id (m : manager) :
  keyed_by_id m ->
  (forall opt_max opt_timeout, keyed_by_id (new_manager opt_max opt_timeout)) /\
  (forall now random o, keyed_by_id (fst (createSession m now random o))) /\
  (forall now sessionId, keyed_by_id (fst (getSession m now sessionId))) /\
  (forall now sessionId u, keyed_by_id (fst (updateSession m now sessionId u))) /\
  (forall now sessionId name v o, keyed_by_id (fst (setCookie m now sessionId name v o))) /\
  (forall now sessionId domain path, keyed_by_id (fst (getCookies m now sessionId domain path))) /\
  (forall now sessionId key v, keyed_by_id (fst (setLocalStorage m now sessionId key v))) /\
  (forall now sessionId key v, keyed_by_id (fst (setSessionStorage m now sessionId key v))) /\
  (forall sessionId, keyed_by_id (fst (deleteSession m sessionId))) /\
  (forall now, keyed_by_id (fst (cleanupOldSessions m now))) /\
  (forall now sessionId, keyed_by_id (fst (exportSession m now sessionId))) /\
  (forall now random x, keyed_by_id (fst (importSession m now random x))) /\
  map sum_id (summaries (getStats m)) = Map.keys (sessions m) /\
  totalSessions (getStats m) = Z.of_nat (List.length (summaries (getStats m))).
Proof.
  intros Hall.
  assert (Hget : forall now sessionId, keyed_by_id (fst (getSession m now sessionId))).
  { intros now sessionId. unfold getSession.
    destruct (Map.get (sessions m) sessionId) as [s |] eqn:Hg; [| exact Hall].
    apply keyed_set; [exact Hall |]. exact (keyed_known m _ _ Hall Hg). }
  assert (Hstore : forall now sessionId (change : session_data -> session_data),
    keyed_by_id
      (fst (match getSession m now sessionId with
            | (m', Some session) =>
              (with_sessions m'
                 (Map.set (sessions m') sessionId (with_data session (change (data session)))),
               true)
            | (m', None) => (m', false)
            end))).
  { intros now sessionId change. pose proof (Hget now sessionId) as Hm'.
    unfold getSession in *.
    destruct (Map.get (sessions m) sessionId) as [s |] eqn:Hg; [| exact Hall].
    cbn [fst] in *. apply keyed_set; [exact Hm' |]. exact (keyed_known m _ _ Hall Hg). }
  repeat split.
  - intros opt_max opt_timeout. constructor.
  - intros now random o. unfold createSession.
    pose proof (keyed_cleanup
                  (with_sessions m (Map.set (sessions m) (generateSessionId random)
                                      (new_session (generateSessionId random) now o))) now)
      as Hc.
    destruct (cleanupOldSessions _ now) as [m' c]. apply Hc.
    now apply keyed_set.
  - exact Hget.
  - intros now sessionId u. unfold updateSession.
    destruct (Map.get (sessions m) sessionId) as [s |] eqn:Hg; [| exact Hall].
    apply keyed_set; [exact Hall |]. exact (keyed_known m _ _ Hall Hg).
  - intros now sessionId name v o.
    exact (Hstore now sessionId
             (fun d => with_cookies d (Map.set (cookies d) name (cookie_object v o)))).
  - intros now sessionId domain path. unfold getCookies.
    pose proof (Hget now sessionId) as Hm'. now destruct (getSession m now sessionId) as [m' [s |]].
  - intros now sessionId key v.
    exact (Hstore now sessionId (fun d => with_localStorage d (Map.set (localStorage d) key v))).
  - intros now sessionId key v.
    exact (Hstore now sessionId
             (fun d => with_sessionStorage d (Map.set (sessionStorage d) key v))).
  - intros sessionId. now apply keyed_filter.
  - intros now. now apply keyed_cleanup.
  - intros now sessionId. unfold exportSession.
    pose proof (Hget now sessionId) as Hm'. now destruct (getSession m now sessionId) as [m' [s |]].
  - intros now random x. unfold importSession.
    destruct (imported_session now random x); [now apply keyed_set | exact Hall].
  - unfold getStats, Map.keys. cbn [summaries]. rewrite map_map. cbn [sum_id].
    unfold keyed_by_id in Hall. induction Hall as [| kv tl Hk _ IH]; [reflexivity |].
    cbn [map]. now rewrite Hk, IH.
  - unfold getStats, Map.size. cbn [totalSessions summaries]. now rewrite length_map.
Qed.

Lemma sessions_keyed_by_id_witness :
  (forall opt_max opt_timeout, keyed_by_id (new_manager opt_max opt_timeout)) /\
  (forall now random o, keyed_by_id (fst (createSession crowded_store now random o))) /\
  (forall now sessionId, keyed_by_id (fst (getSession crowded_store now sessionId))) /\
  (forall now sessionId u, keyed_by_id (fst (updateSession crowded_store now sessionId u))) /\
  (forall now sessionId name v o,
     keyed_by_id (fst (setCookie crowded_store now sessionId name v o))) /\
  (forall now sessionId domain path,
     keyed_by_id (fst (getCookies crowded_store now sessionId domain path))) /\
  (forall now sessionId key v,
     keyed_by_id (fst (setLocalStorage crowded_store now sessionId key v))) /\
  (forall now sessionId key v,
     keyed_by_id (fst (setSessionStorage crowded_store now sessionId key v))) /\
  (forall sessionId, keyed_by_id (fst (deleteSession crowded_store sessionId))) /\
  (forall now, keyed_by_id (fst (cleanupOldSessions crowded_store now))) /\
  (forall now sessionId, keyed_by_id (fst (exportSession crowded_store now sessionId))) /\
  (forall now random x, keyed_by_id (fst (importSession crowded_store now random x))) /\
  map sum_id (summaries (getStats crowded_store)) = Map.keys (sessions crowded_store) /\
  totalSessions (getStats crowded_store)
  = Z.of_nat (List.length (summaries (getStats crowded_store))).
Proof.
  apply (sessions_keyed_by_id crowded_store).
  unfold keyed_by_id. cbn. repeat (apply Forall_cons; [reflexivity |]). apply Forall_nil.
Defined.

(** *** The settings of a new session *)

Lemma get_spread (extra : list (str * value)) : forall (base : list (str * value)) k,
  NoDup (Map.keys extra) ->
  Map.get (spread base extra) k
  = match Map.get extra k with Some v => Some v | None => Map.get base k end.
Proof.
  unfold spread. induction extra as [| [k' v'] extra IH]; intros base k Hnd; [reflexivity |].
  cbn [fold_left fst snd Map.get]. cbn [Map.keys map fst] in Hnd.
  inversion Hnd as [| ? ? Hnotin Hnd']; subst.
  rewrite IH by exact Hnd'.
  destruct (str_eqb k' k) eqn:Heq.
  - apply str_eqb_eq in Heq. subst k'.
    replace (Map.get extra k) with (@None value).
    + now rewrite get_set_same.
    + symmetry. destruct (Map.get extra k) as [v |] eqn:Hg; [| reflexivity].
      destruct Hnotin. apply get_in in Hg. unfold Map.keys.
      now apply (in_map fst) in Hg.
  - destruct (Map.get extra k); [reflexivity |].
    apply get_set_other. intros ->. now rewrite str_eqb_refl in Heq.
Qed.

(** X25: The settings of the session [createSession] builds are the four
    defaults, all [true], overridden and extended by the properties of
    [options.settings]. *)
Theorem createSession_settings (now : Z) (random : list N) (o : create_options) :
  NoDup (Map.keys (opt_settings o)) ->
  exists props,
    settings (data (new_session (generateSessionId random) now o)) = VObj props /\
    forall k,
      lookup props k
      = match lookup (opt_settings o) k with
        | Some v => Some v
        | None => lookup default_settings k
        end.
Proof.
  intros Hnd. eexists. split; [reflexivity |].
  intros k. rewrite !lookup_get. now apply get_spread.
Qed.

Lemma createSession_settings_witness :
  exists props,
    settings (data (new_session (generateSessionId sixteen_bytes) 70 custom_settings))
    = VObj props /\
    forall k,
      lookup props k
      = match lookup (opt_settings custom_settings) k with
        | Some v => Some v
        | None => lookup default_settings k
        end.
Proof.
  apply (createSession_settings 70 sixteen_bytes custom_settings).
  cbn. repeat constructor; cbn; intuition discriminate.
Defined.

End SessionInvariants.
